(** * Text-to-SQL agent (final/): a shallow embedding

    The development follows [backend.py] top to bottom, and then the three
    files around it.

    - [PyStr]: the Python string operations the files rely on
      ([str.replace], [in], [str.upper], [str.strip], the integer of an
      f-string).
    - [Re]: the two regular expressions of [backend.py], as a backtracking
      matcher ([re.findall] for e-mails, [re.search] for a fenced block).
    - [Backend]: [pii_filter_input], [redact_result_data], the four graph
      nodes, [should_retry] and the graph driver.
    - [Main]: the chat handler of [main.py], with the frame it plots and
      the loop that shows the history again.
    - [Evaluation]: the loop of [run_evaluation] over [test_dataset].
    - [Database]: the rows [init_db] generates.
    - [Scenario]: a few concrete questions, models and stores.

    Text is a list of 8-bit characters read as code points 0..255; the
    character tables ([\w], [isspace], [upper]) are Python's on that
    range.  A dict is an association list in insertion order, since the
    loops of the file iterate over it.

    The language model, the relational store, the schema description and
    the printing of a frame are fields of a [World].  A call to the model
    or to the store gets the number of earlier calls, so an answer may
    change from one call to the next; it returns or raises, and it is
    written to a log.  A node returns the keys it sets, and the graph
    merges them into the state.  The clock and the comparisons of the
    evaluation script, the random generator and the faker of the database
    script are given in the same way.

    The properties come after the definitions: first the facts on
    strings, nodes and runs, then, under a heading of their own, the
    statements on the pipeline (C2, C7, C8, C9, C1), on the validator and
    the executor (C10, C3, C6) and on the tokenizer (C4, C5), and what the
    redaction of a result achieves.  After these come further properties
    of the same code (X1 to X26): of the tokenizer and the redaction, of
    whole runs (calls, exceptions, what the state holds), of the chat
    page, of the evaluation script and of the sample database. *)

From Stdlib Require Import Ascii String DecimalString DecimalNat Decimal.
From Stdlib Require Import List Bool Arith PeanoNat ZArith Lia.
Import ListNotations.

Set Implicit Arguments.

(* ================================================================= *)
(** ** Python strings *)

Module PyStr.

Definition text := list ascii.

(** A literal. *)
Definition str (s : string) : text := list_ascii_of_string s.
Arguments str s%_string : simpl never.

Definition code (c : ascii) : nat := nat_of_ascii c.

Definition between (lo hi : nat) (c : ascii) : bool :=
  (lo <=? code c) && (code c <=? hi).

Fixpoint text_eqb (a b : text) : bool :=
  match a, b with
  | [], [] => true
  | x :: a', y :: b' => Ascii.eqb x y && text_eqb a' b'
  | _, _ => false
  end.

Definition text_dec : forall a b : text, {a = b} + {a <> b} :=
  list_eq_dec ascii_dec.

(** [s.startswith(p)] *)
Fixpoint starts_with (p s : text) : bool :=
  match p, s with
  | [], _ => true
  | x :: p', y :: s' => Ascii.eqb x y && starts_with p' s'
  | _ :: _, [] => false
  end.

(** [sub in s] *)
Fixpoint contains (sub s : text) : bool :=
  starts_with sub s ||
  match s with
  | [] => false
  | _ :: s' => contains sub s'
  end.

(** [s.replace(old, new)] for a non-empty [old]: a left-to-right scan that
    replaces every occurrence it meets and resumes after it.  [skip] counts
    the characters of the occurrence still to be passed over. *)
Fixpoint replace_from (skip : nat) (old new s : text) : text :=
  match s with
  | [] => []
  | c :: s' =>
      match skip with
      | S k => replace_from k old new s'
      | O =>
          if starts_with old s
          then new ++ replace_from (length old - 1) old new s'
          else c :: replace_from 0 old new s'
      end
  end.

(** [s.replace(old, new)].  With an empty [old] Python puts [new] before
    every character and at the end. *)
Definition replace (s old new : text) : text :=
  match old with
  | [] => new ++ flat_map (fun c => c :: new) s
  | _ :: _ => replace_from 0 old new s
  end.

(** [str.upper] on one code point: a-z, and the Latin-1 letters whose
    capital is again a single code point below 256.  (For 181, 223 and 255
    Python leaves the range; they are kept as they are here.) *)
Definition upper_char (c : ascii) : ascii :=
  if between 97 122 c || (between 224 254 c && negb (code c =? 247))
  then ascii_of_nat (code c - 32)
  else c.

Definition upper (s : text) : text := map upper_char s.

(** [str.isspace] on one code point. *)
Definition isspace (c : ascii) : bool :=
  between 9 13 c || between 28 32 c || (code c =? 133) || (code c =? 160).

Fixpoint lstrip (s : text) : text :=
  match s with
  | c :: s' => if isspace c then lstrip s' else s
  | [] => []
  end.

Definition rstrip (s : text) : text := rev (lstrip (rev s)).

(** [s.strip()] *)
Definition strip (s : text) : text := rstrip (lstrip s).

(** [str(n)] for a non-negative integer, as an f-string prints it. *)
Definition dec (n : nat) : text :=
  list_ascii_of_string (NilEmpty.string_of_uint (Nat.to_uint n)).

Definition digit (c : ascii) : bool := between 48 57 c.

Definition underscore : ascii := "_"%char.
Definition at_sign : ascii := "@"%char.

(** Truthiness of a string. *)
Definition truthy (s : text) : bool :=
  match s with [] => false | _ :: _ => true end.

(** [s.partition(sep)] when [sep] occurs: the text before its first
    occurrence and the text after it. *)
Fixpoint split_at_first (sep s : text) : option (text * text) :=
  if starts_with sep s then Some ([], skipn (length sep) s)
  else match s with
       | [] => None
       | c :: s' =>
           match split_at_first sep s' with
           | Some (before, after) => Some (c :: before, after)
           | None => None
           end
       end.

End PyStr.
Import PyStr.

(* ================================================================= *)
(** ** Regular expressions *)

Module Re.

(** [\w] on code points below 256 (alphanumeric or underscore). *)
Definition is_word (c : ascii) : bool :=
  between 48 57 c || between 65 90 c || (code c =? 95) || between 97 122 c
  || (code c =? 170) || (code c =? 178) || (code c =? 179) || (code c =? 181)
  || (code c =? 185) || (code c =? 186) || between 188 190 c
  || between 192 214 c || between 216 246 c || between 248 255 c.

(** The class [[\w\.-]]. *)
Definition is_addr (c : ascii) : bool :=
  is_word c || Ascii.eqb c "."%char || Ascii.eqb c "-"%char.

(** One element of a pattern: a single character of a class, or a greedy
    [+] over a class. *)
Inductive item :=
| One (cls : ascii -> bool)
| Many1 (cls : ascii -> bool).

(** [cls+] followed by the rest of the pattern [k]: take as many
    characters as possible, giving one back at a time while [k] fails.
    The result is the text matched from here on. *)
Fixpoint plus_greedy (cls : ascii -> bool) (k : text -> option text)
    (s : text) : option text :=
  match s with
  | [] => None
  | c :: s' =>
      if cls c then
        match plus_greedy cls k s' with
        | Some m => Some (c :: m)
        | None => option_map (cons c) (k s')
        end
      else None
  end.

(** [re.match] of a pattern at the head of [s]: the matched text. *)
Fixpoint match_here (p : list item) : text -> option text :=
  match p with
  | [] => fun _ => Some []
  | One cls :: p' =>
      fun s =>
        match s with
        | c :: s' => if cls c then option_map (cons c) (match_here p' s') else None
        | [] => None
        end
  | Many1 cls :: p' => plus_greedy cls (match_here p')
  end.

(** [r'[\w\.-]+@[\w\.-]+\.\w+'] *)
Definition email_pattern : list item :=
  [ Many1 is_addr; One (Ascii.eqb "@"%char); Many1 is_addr;
    One (Ascii.eqb "."%char); Many1 is_word ].

(** [re.findall(p, s)]: the non-overlapping matches, left to right; after
    a match the scan resumes at its end.  [skip] counts the characters of
    the last match still to be passed over. *)
Fixpoint findall_from (p : list item) (skip : nat) (s : text) : list text :=
  match s with
  | [] => []
  | _ :: s' =>
      match skip with
      | S k => findall_from p k s'
      | O =>
          match match_here p s with
          | Some m => m :: findall_from p (length m - 1) s'
          | None => findall_from p 0 s'
          end
      end
  end.

Definition findall (p : list item) (s : text) : list text := findall_from p 0 s.

Definition fence_sql : text := str "```sql".
(** The character of a fence. *)
Definition tick : ascii := "`"%char.

Definition fence : text := str "```".

(** [re.search(r"```sql(.*?)```", s, re.DOTALL)], group 1: the text
    between the first opening fence and the first closing fence after it.
    (The group is lazy, so it stops at the first closing fence; when the
    first opening fence has none after it, no later one has.) *)
Definition search_fenced (s : text) : option text :=
  match split_at_first fence_sql s with
  | Some (_, rest) =>
      match split_at_first fence rest with
      | Some (body, _) => Some body
      | None => None
      end
  | None => None
  end.

End Re.
Import Re.

(* ================================================================= *)
(** ** backend.py *)

Module Backend.

(** A Python [dict] from text to text; iteration follows insertion order,
    and assigning to a key that is present keeps its place. *)
Definition dict := list (text * text).

Fixpoint dict_set (d : dict) (k v : text) : dict :=
  match d with
  | [] => [(k, v)]
  | (k', v') :: d' =>
      if text_eqb k' k then (k, v) :: d' else (k', v') :: dict_set d' k v
  end.

Fixpoint dict_get (d : dict) (k : text) : option text :=
  match d with
  | [] => None
  | (k', v') :: d' => if text_eqb k' k then Some v' else dict_get d' k
  end.

Definition dict_values (d : dict) : list text := map snd d.
Definition dict_keys (d : dict) : list text := map fst d.

(** [f"__EMAIL_{i+1}__"] *)
Definition placeholder_of (i : nat) : text :=
  str "__EMAIL_" ++ dec (i + 1) ++ str "__".

(** The loop of [pii_filter_input], from index [i] on. *)
Fixpoint tokenize_loop (i : nat) (emails : list text)
    (sanitized_text : text) (pii_map : dict) : text * dict :=
  match emails with
  | [] => (sanitized_text, pii_map)
  | email :: rest =>
      let placeholder := placeholder_of i in
      let pii_map := dict_set pii_map placeholder email in
      let sanitized_text := replace sanitized_text email placeholder in
      tokenize_loop (S i) rest sanitized_text pii_map
  end.

Definition pii_filter_input (txt : text) : text * dict :=
  let emails := findall email_pattern txt in
  tokenize_loop 0 emails txt [].

(** The two components of [pii_filter_input(q)]. *)
Definition sanitized_of (q : text) : text := fst (pii_filter_input q).
Definition pii_map_of (q : text) : dict := snd (pii_filter_input q).

(** The entries the loop of [pii_filter_input] writes for the matches
    [emails], the first of them at index [i]. *)
Definition entries (i : nat) (emails : list text) : dict :=
  combine (map placeholder_of (seq i (length emails))) emails.

Definition EMAIL_REDACTED : text := str "[EMAIL_REDACTED]".

Definition redact_result_data (data_str : text) (pii_map : dict) : text :=
  match pii_map with
  | [] => data_str
  | _ :: _ =>
      fold_left (fun s kv => replace s (snd kv) EMAIL_REDACTED) pii_map data_str
  end.

(** The swap of [execute_sql_node]: every placeholder back to its value. *)
Definition rehydrate (sql : text) (pii_map : dict) : text :=
  fold_left (fun s kv => replace s (fst kv) (snd kv)) pii_map sql.

(** The last loop of [generate_answer_node]. *)
Definition scrub_placeholders (final_text : text) (pii_map : dict) : text :=
  fold_left (fun s kv => replace s (fst kv) EMAIL_REDACTED) pii_map final_text.

(** *** The outside world *)

Inductive role := System | Human.

(** [SystemMessage(content=c)], [HumanMessage(content=c)] *)
Definition message : Type := role * text.

Inductive event :=
| LLMCall (messages : list message)
| DBCall (sql : text).

Definition is_llm_call (e : event) : bool :=
  match e with LLMCall _ => true | DBCall _ => false end.

Definition is_db_call (e : event) : bool :=
  match e with LLMCall _ => false | DBCall _ => true end.

Definition llm_calls (log : list event) : nat := length (filter is_llm_call log).
Definition db_calls (log : list event) : nat := length (filter is_db_call log).

(** *** Computations: a log of calls, and exceptions *)

Inductive outcome (A : Type) :=
| Ret (a : A)
| Raise (e : text).
Arguments Raise {A} e.

Definition M (A : Type) : Type := list event -> outcome A * list event.

Definition ret {A} (a : A) : M A := fun log => (Ret a, log).

Definition raise {A} (e : text) : M A := fun log => (Raise e, log).

Definition bind {A B} (m : M A) (f : A -> M B) : M B :=
  fun log =>
    match m log with
    | (Ret a, log') => f a log'
    | (Raise e, log') => (Raise e, log')
    end.

(** [try: m  except Exception as e: h(str(e))] *)
Definition try_except {A} (m : M A) (h : text -> M A) : M A :=
  fun log =>
    match m log with
    | (Ret a, log') => (Ret a, log')
    | (Raise e, log') => h e log'
    end.

Notation "x <- m ;; k" := (bind m (fun x => k))
  (at level 61, m at next level, right associativity).

(** [state[key]]: a missing key raises [KeyError(key)]. *)
Definition subscript {A} (key : text) (v : option A) : M A :=
  match v with
  | Some a => ret a
  | None => raise (str "'" ++ key ++ str "'")
  end.

Section Graph.

(** The values a result set holds; the pipeline only copies them. *)
Variable cell : Type.

(** A pandas frame as [read_sql_query] returns it: the columns in order,
    each with its name and its values in row order (all of one length). *)
Record DataFrame := {
  df_series : list (text * list cell)
}.

(** [list(conn.columns)] *)
Definition df_columns (conn : DataFrame) : list text := map fst (df_series conn).

(** [len(conn)]: the number of rows. *)
Definition df_len (conn : DataFrame) : nat :=
  match df_series conn with
  | [] => 0
  | (_, values) :: _ => length values
  end.

(** [conn.empty]: some axis has length zero. *)
Definition df_empty (conn : DataFrame) : bool :=
  (length (df_columns conn) =? 0) || (df_len conn =? 0).

(** [conn.iloc[:, j].tolist()], for [j] within the columns *)
Definition iloc_col (j : nat) (conn : DataFrame) : list cell :=
  snd (nth j (df_series conn) ([], [])).

(** What the file reaches through [llm], [db] and pandas.  A call either
    returns ([inl]) or raises an exception whose [str] is given ([inr]);
    the first argument of a call is the number of earlier calls. *)
Record World := {
  get_table_info : text;
  llm_invoke : nat -> list message -> text + text;
  read_sql_query : nat -> text -> DataFrame + text;
  df_to_str : DataFrame -> text
}.

Variable w : World.

Definition call_llm (messages : list message) : M text :=
  fun log =>
    match llm_invoke w (llm_calls log) messages with
    | inl content => (Ret content, log ++ [LLMCall messages])
    | inr e => (Raise e, log ++ [LLMCall messages])
    end.

Definition call_db (sql : text) : M DataFrame :=
  fun log =>
    match read_sql_query w (db_calls log) sql with
    | inl conn => (Ret conn, log ++ [DBCall sql])
    | inr e => (Raise e, log ++ [DBCall sql])
    end.

(** *** State *)

Inductive chart :=
| NoChart                                   (* {} *)
| Chart (labels values : list cell) (columns : list text).

(** [AgentState]: a dict; a key is absent until a node returns it. *)
Record AgentState := {
  question : text;
  sanitized_question : option text;
  sql_query : option text;
  query_result : option text;
  final_answer : option text;
  chart_data : option chart;
  error : option text;          (* [None]: absent, or Python's None *)
  retry_count : option Z;
  pii_map : option dict
}.

(** What a node returns: the keys it sets. *)
Record Update := {
  u_question : option text;
  u_sanitized_question : option text;
  u_sql_query : option text;
  u_query_result : option text;
  u_final_answer : option text;
  u_chart_data : option chart;
  u_error : option (option text);
  u_retry_count : option Z;
  u_pii_map : option dict
}.

Definition set_or_keep {A} (u : option A) (old : option A) : option A :=
  match u with Some a => Some a | None => old end.

(** The graph merges a node's return value into the state key by key. *)
Definition apply_update (u : Update) (st : AgentState) : AgentState :=
  {| question := match u_question u with Some q => q | None => question st end;
     sanitized_question := set_or_keep (u_sanitized_question u) (sanitized_question st);
     sql_query := set_or_keep (u_sql_query u) (sql_query st);
     query_result := set_or_keep (u_query_result u) (query_result st);
     final_answer := set_or_keep (u_final_answer u) (final_answer st);
     chart_data := set_or_keep (u_chart_data u) (chart_data st);
     error := match u_error u with Some e => e | None => error st end;
     retry_count := set_or_keep (u_retry_count u) (retry_count st);
     pii_map := set_or_keep (u_pii_map u) (pii_map st) |}.

(** [state.get("error")] used as a condition *)
Definition error_set (st : AgentState) : bool :=
  match error st with
  | Some e => truthy e
  | None => false
  end.

(** [state.get('pii_map', {})] *)
Definition get_pii_map (st : AgentState) : dict :=
  match pii_map st with Some d => d | None => [] end.

Definition nl : ascii := "010"%char.
Definition dquote : ascii := "034"%char.

(** *** Node: SQL generator *)

Definition strip_fences (s : text) : text :=
  strip (replace (replace s fence_sql []) fence []).

Definition generate_sql_prompt (schema : text) : text :=
  str "You are an expert SQL Data Analyst." ++ nl ::
  str "    1. Schema: " ++ schema ++ nl ::
  str "    2. IMPORTANT: The user query uses placeholders like '__EMAIL_1__'." ++ nl ::
  str "       Treat these as LITERAL strings to search for in the database." ++ nl ::
  str "       DO NOT try to remove the underscores." ++ nl ::
  str "    3. Generate a valid SQLITE query." ++ nl ::
  str "    4. Output ONLY the SQL query." ++ nl ::
  str "    ".

Definition generate_sql_messages (schema sanitized : text) : list message :=
  [ (System, generate_sql_prompt schema);
    (Human, str "User Question: " ++ sanitized) ].

(** [{"sql_query": sql, "sanitized_question": sanitized,
      "pii_map": pii_map, "retry_count": n}] *)
Definition sql_generated (sql sanitized : text) (pii_map : dict) (n : Z) : Update :=
  {| u_question := None;
     u_sanitized_question := Some sanitized;
     u_sql_query := Some sql;
     u_query_result := None; u_final_answer := None; u_chart_data := None;
     u_error := None;
     u_retry_count := Some n;
     u_pii_map := Some pii_map |}.

Definition generate_sql_node (state : AgentState) : M Update :=
  let question := question state in
  let '(sanitized, pii_map) := pii_filter_input question in
  let schema := get_table_info w in
  response <- call_llm (generate_sql_messages schema sanitized) ;;
  let sql := strip_fences response in
  ret (sql_generated sql sanitized pii_map
         (match retry_count state with Some n => n | None => 0%Z end)).

(** *** Node: SQL checker *)

Definition unsafe_query (sql : text) : bool :=
  contains (str "DROP") (upper sql) || contains (str "DELETE") (upper sql).

Definition check_sql_prompt (schema sql : text) : text :=
  str "Verify this SQL query for SQLite schema: " ++ schema ++ nl ::
  str "    Query: " ++ sql ++ nl ::
  str "    If correct, output " ++ dquote :: str "CORRECT" ++ dquote ::
  str ". If incorrect, output ONLY the fixed SQL." ++ nl ::
  str "    ".

(** [{"error": e}] *)
Definition set_error (e : option text) : Update :=
  {| u_question := None; u_sanitized_question := None; u_sql_query := None;
     u_query_result := None; u_final_answer := None; u_chart_data := None;
     u_error := Some e; u_retry_count := None; u_pii_map := None |}.

(** [{"sql_query": sql, "error": e}] *)
Definition set_query_and_error (sql : text) (e : option text) : Update :=
  {| u_question := None; u_sanitized_question := None; u_sql_query := Some sql;
     u_query_result := None; u_final_answer := None; u_chart_data := None;
     u_error := Some e; u_retry_count := None; u_pii_map := None |}.

(** [{"error": "Unsafe query detected.", "sql_query": ""}] *)
Definition blocked : Update :=
  set_query_and_error [] (Some (str "Unsafe query detected.")).

(** What [check_sql_node] returns for the model's response. *)
Definition verdict (response : text) : Update :=
  let res_text := strip response in
  if contains (str "CORRECT") (upper res_text) then set_error None
  else
    match (if contains fence_sql res_text then search_fenced res_text else None) with
    | Some group1 => set_query_and_error (strip group1) None
    | None => set_query_and_error (strip_fences res_text) None
    end.

Definition check_sql_node (state : AgentState) : M Update :=
  sql <- subscript (str "sql_query") (sql_query state) ;;
  let schema := get_table_info w in
  if unsafe_query sql then ret blocked
  else
    response <- call_llm [ (System, check_sql_prompt schema sql) ] ;;
    ret (verdict response).

(** *** Node: execute SQL *)

Definition chart_of (conn : DataFrame) : chart :=
  if negb (df_empty conn) && (2 <=? length (df_columns conn))
  then Chart (iloc_col 0 conn) (iloc_col 1 conn) (df_columns conn)
  else NoChart.

(** [{"query_result": safe_result_str, "chart_data": chart_data}] *)
Definition executed (safe_result_str : text) (chart_data : chart) : Update :=
  {| u_question := None; u_sanitized_question := None; u_sql_query := None;
     u_query_result := Some safe_result_str;
     u_final_answer := None;
     u_chart_data := Some chart_data;
     u_error := None; u_retry_count := None; u_pii_map := None |}.

(** [{"error": str(e), "retry_count": n}] *)
Definition failed (e : text) (n : Z) : Update :=
  {| u_question := None; u_sanitized_question := None; u_sql_query := None;
     u_query_result := None; u_final_answer := None; u_chart_data := None;
     u_error := Some (Some e);
     u_retry_count := Some n;
     u_pii_map := None |}.

Definition execute_sql_node (state : AgentState) : M Update :=
  try_except
    (sql <- subscript (str "sql_query") (sql_query state) ;;
     let pii_map := get_pii_map state in
     let executable_sql := rehydrate sql pii_map in
     conn <- call_db executable_sql ;;
     let result_str := df_to_str w conn in
     let safe_result_str := redact_result_data result_str pii_map in
     let chart_data := chart_of conn in
     ret (executed safe_result_str chart_data))
    (fun e =>
       n <- subscript (str "retry_count") (retry_count state) ;;
       ret (failed e (n + 1))).

(** *** Node: final answer *)

Definition answer_prompt (sanitized sql result : text) : text :=
  nl ::
  str "    User Question: " ++ sanitized ++ nl ::
  str "    SQL Query: " ++ sql ++ nl ::
  str "    Data Retrieved: " ++ result ++ nl ::
  str "   " ++ nl ::
  str "    Answer the question." ++ nl ::
  str "    If the data shows the email is present, confirm it using '[EMAIL_REDACTED]'." ++ nl ::
  str "    If the data is empty, don't say anything about emails or so." ++ nl ::
  str "    ".

(** [{"final_answer": a}] *)
Definition set_final_answer (a : text) : Update :=
  {| u_question := None; u_sanitized_question := None; u_sql_query := None;
     u_query_result := None; u_final_answer := Some a; u_chart_data := None;
     u_error := None; u_retry_count := None; u_pii_map := None |}.

Definition generate_answer_node (state : AgentState) : M Update :=
  if error_set state then
    e <- subscript (str "error") (error state) ;;
    ret (set_final_answer (str "Error: " ++ e))
  else
    sanitized <- subscript (str "sanitized_question") (sanitized_question state) ;;
    sql <- subscript (str "sql_query") (sql_query state) ;;
    result <- subscript (str "query_result") (query_result state) ;;
    response <- call_llm [ (Human, answer_prompt sanitized sql result) ] ;;
    let final_text := scrub_placeholders response (get_pii_map state) in
    ret (set_final_answer final_text).

(** *** The graph *)

Inductive node := GenerateSQL | CheckSQL | ExecuteSQL | GenerateAnswer | END.

Definition should_retry (state : AgentState) : M node :=
  if error_set state then
    n <- subscript (str "retry_count") (retry_count state) ;;
    if (n <? 3)%Z then ret GenerateSQL else ret GenerateAnswer
  else ret GenerateAnswer.

(** One node and the edge out of it. *)
Definition run_node (n : node) (state : AgentState) : M (node * AgentState) :=
  match n with
  | GenerateSQL =>
      u <- generate_sql_node state ;; ret (CheckSQL, apply_update u state)
  | CheckSQL =>
      u <- check_sql_node state ;; ret (ExecuteSQL, apply_update u state)
  | ExecuteSQL =>
      u <- execute_sql_node state ;;
      let state' := apply_update u state in
      next <- should_retry state' ;; ret (next, state')
  | GenerateAnswer =>
      u <- generate_answer_node state ;; ret (END, apply_update u state)
  | END => ret (END, state)
  end.

(** The driver: nodes are run until [END]; [limit] bounds their number
    (the graph library gives up with an error beyond its recursion
    limit). *)
Fixpoint run (limit : nat) (n : node) (state : AgentState) : M AgentState :=
  match n with
  | END => ret state
  | _ =>
      match limit with
      | O => raise (str "GraphRecursionError")
      | S limit' =>
          fun log =>
            match run_node n state log with
            | (Ret (next, state'), log') => run limit' next state' log'
            | (Raise e, log') => (Raise e, log')
            end
      end
  end.

Definition recursion_limit : nat := 25.

(** [inputs = {"question": prompt, "retry_count": 0}] *)
Definition inputs (prompt : text) : AgentState :=
  {| question := prompt; sanitized_question := None; sql_query := None;
     query_result := None; final_answer := None; chart_data := None;
     error := None; retry_count := Some 0%Z; pii_map := None |}.

(** [app_graph.invoke(inputs)] *)
Definition invoke (prompt : text) : outcome AgentState * list event :=
  run recursion_limit GenerateSQL (inputs prompt) [].

(** The configurations a run from [inputs prompt] passes through: the
    node about to run, the state, the log so far. *)
Inductive reachable (prompt : text) : node -> AgentState -> list event -> Prop :=
| reach_start : reachable prompt GenerateSQL (inputs prompt) []
| reach_step n state log next state' log' :
    reachable prompt n state log ->
    n <> END ->
    run_node n state log = (Ret (next, state'), log') ->
    reachable prompt next state' log'.

(** *** Conditions on the outside world, and on states *)

(** Every call to the language model returns. *)
Definition llm_returns : Prop :=
  forall k messages, exists r, llm_invoke w k messages = inl r.

(** An exception of the store has a non-empty [str]. *)
Definition errors_have_text : Prop :=
  forall k sql e, read_sql_query w k sql = inr e -> e <> [].

(** The store raises on the empty statement. *)
Definition rejects_empty : Prop :=
  forall k, exists e, read_sql_query w k [] = inr e.

(** The store raises on every statement. *)
Definition always_fails : Prop :=
  forall k sql, exists e, read_sql_query w k sql = inr e.

(** The state holds what [pii_filter_input] gives for the question [q]. *)
Definition tokenized (q : text) (state : AgentState) : Prop :=
  sanitized_question state = Some (sanitized_of q) /\
  pii_map state = Some (pii_map_of q).

Definition unsafe_message : text := str "Unsafe query detected.".

(** A state as [check_sql_node] leaves it. *)
Definition checked (q : text) (state : AgentState) : Prop :=
  tokenized q state /\
  exists sql, sql_query state = Some sql /\
    (error state = None \/ (sql = [] /\ error state = Some unsafe_message)).

(** What holds of the state when node [n] is about to run. *)
Definition invariant (q : text) (n : node) (state : AgentState) : Prop :=
  question state = q /\
  (exists k, retry_count state = Some k) /\
  match n with
  | GenerateSQL => state = inputs q \/ tokenized q state
  | CheckSQL => tokenized q state /\ sql_query state <> None
  | ExecuteSQL => checked q state
  | GenerateAnswer | END => tokenized q state
  end.

End Graph.

Section Endings.

Variable cell : Type.
Variable w : World cell.

(** How a run that began with the log [log] ended after [attempts]
    executions: with the error of the last one, *)
Definition ended_in_error (log : list event) (attempts : nat)
    (state' : AgentState cell) (log' : list event) : Prop :=
  exists e,
    e <> [] /\
    error state' = Some e /\
    final_answer state' = Some (str "Error: " ++ e) /\
    retry_count state' = Some 3%Z /\
    db_calls log' = db_calls log + attempts /\
    exists sql, read_sql_query w (db_calls log + attempts - 1) sql = inr e.

(** or with the model's answer, after at most [attempts] executions, the
    last of which succeeded. *)
Definition ended_with_answer (q : text) (log : list event) (attempts : nat)
    (state' : AgentState cell) (log' : list event) : Prop :=
  error state' = None /\
  (exists k sql conn, read_sql_query w k sql = inl conn) /\
  (exists content,
     final_answer state' = Some (scrub_placeholders content (pii_map_of q))) /\
  db_calls log' <= db_calls log + attempts.

End Endings.

(** *** Sanitized text, piece by piece

    Used to follow a text through [pii_filter_input] and back: a piece is
    a character of the question, or the place where the e-mail of index
    [i] stood. *)

Inductive piece :=
| Lit (c : ascii)
| Tok (i : nat).

(** The text of a sequence of pieces in which the e-mails of index below
    [lo] are written out and the others stand as placeholders. *)
Fixpoint render (lo : nat) (emails : list text) (ps : list piece) : text :=
  match ps with
  | [] => []
  | Lit c :: ps' => c :: render lo emails ps'
  | Tok i :: ps' =>
      (if i <? lo then nth i emails [] else placeholder_of i) ++ render lo emails ps'
  end.

(** A text without underscore. *)
Definition plain (u : text) : Prop := ~ In underscore u.

(** Pieces whose characters are no underscores and whose indices are
    below [bound]. *)
Definition well_formed (bound : nat) (ps : list piece) : Prop :=
  Forall (fun p => match p with Lit c => c <> underscore | Tok i => i < bound end) ps.

(** *** Characters of a match *)

Definition item_class (it : item) : ascii -> bool :=
  match it with One cls => cls | Many1 cls => cls end.

(** [c] is accepted by some element of the pattern. *)
Definition in_pattern (p : list item) (c : ascii) : bool :=
  existsb (fun it => item_class it c) p.

Definition open_bracket : ascii := "["%char.
Definition close_bracket : ascii := "]"%char.

(** A text that the redaction tag cannot hide or complete: it holds an at
    sign and no square bracket. *)
Definition address_like (v : text) : Prop :=
  In at_sign v /\ ~ In open_bracket v /\ ~ In close_bracket v.

(** *** Replacements in a row *)

(** The loops of the file that replace one text after the other: [l]
    lists what is replaced and by what. *)
Definition replace_all (l : list (text * text)) (s : text) : text :=
  fold_left (fun s on => replace s (fst on) (snd on)) l s.

(** An occurrence of [v] cannot meet an inserted [new]: [v] does not occur
    in [new], and holds neither the first character of [new] nor the
    last. *)
Definition apart (v new : text) : Prop :=
  v <> [] /\
  contains v new = false /\
  exists first rest front last,
    new = first :: rest /\ new = front ++ [last] /\
    ~ In first v /\ ~ In last v.

(** *** Calls and steps of a run *)

Section Accounts.

Variable cell : Type.

(** The calls made so far when node [n] is about to run, against the [k]
    failed executions counted in [retry_count]. *)
Definition accounted (k : nat) (n : node) (state : AgentState cell)
    (log : list event) : Prop :=
  retry_count state = Some (Z.of_nat k) /\
  match n with
  | GenerateSQL => k <= 2 /\ db_calls log = k /\ llm_calls log <= 2 * k
  | CheckSQL => k <= 2 /\ db_calls log = k /\ llm_calls log <= 2 * k + 1
  | ExecuteSQL => k <= 2 /\ db_calls log = k /\ llm_calls log <= 2 * k + 2
  | GenerateAnswer => db_calls log <= 3 /\ llm_calls log <= 6
  | END => db_calls log <= 3 /\ llm_calls log <= 7
  end.

(** The nodes still to run, at most, from node [n] after [k] failed
    executions. *)
Definition steps_left (n : node) (k : nat) : nat :=
  match n with
  | GenerateSQL => 3 * (3 - k) + 1
  | CheckSQL => 3 * (3 - k)
  | ExecuteSQL => 3 * (3 - k) - 1
  | GenerateAnswer => 1
  | END => 0
  end.

(** A state in which [generate_answer_node] finds the keys it reads. *)
Definition answerable (n : node) (state : AgentState cell) : Prop :=
  match n with
  | GenerateAnswer =>
      sql_query state <> None /\
      (error_set state = true \/ query_result state <> None)
  | _ => True
  end.

End Accounts.

(** *** Results and charts in the state *)

Section Results.

Variable cell : Type.

(** Before the first successful execution the state holds neither result
    nor chart; after it, no error. *)
Definition fresh (n : node) (state : AgentState cell) : Prop :=
  match n with
  | GenerateSQL | CheckSQL | ExecuteSQL =>
      query_result state = None /\ chart_data state = None
  | GenerateAnswer | END =>
      error state = None \/ (query_result state = None /\ chart_data state = None)
  end.

(** All columns of a frame have the length of the frame. *)
Definition rectangular (conn : DataFrame cell) : Prop :=
  forall name values, In (name, values) (df_series conn) -> length values = df_len conn.

(** The store returns rectangular frames. *)
Definition frames_rectangular (w : World cell) : Prop :=
  forall k sql conn, read_sql_query w k sql = inl conn -> rectangular conn.

(** A chart as [main.py] can plot it: names for two columns, and as many
    labels as values, at least one. *)
Definition plottable (ch : chart cell) : Prop :=
  match ch with
  | NoChart _ => True
  | Chart labels values columns =>
      2 <= length columns /\ length labels = length values /\ values <> []
  end.

End Results.

End Backend.
Import Backend.

(* ================================================================= *)
(** ** main.py: the chat page *)

Module Main.

Section Chat.

Variable cell : Type.
Variable w : World cell.

Inductive chat_role := User | Assistant.

(** An entry of [st.session_state.messages].  [m_chart] is the key
    "chart": absent in the user's entries; in the assistant's, what
    [result.get('chart_data', None)] gave. *)
Record chat_message := {
  m_role : chat_role;
  m_content : text;
  m_chart : option (option (chart cell))
}.

(** The label of a column of a frame: a name, or a position when the
    frame was built from a plain list. *)
Inductive label :=
| Name (s : text)
| Position (n : nat).

(** A frame as the page plots it: its index and its columns. *)
Record Plot := {
  plot_index : list cell;
  plot_columns : list (label * list cell)
}.

(** What a run of the script puts on the page, in order.  (The spinner
    and the two tab titles are left out; the calls that put something on
    the page are taken to return.) *)
Inductive shown :=
| Markdown (r : chat_role) (s : text)  (* with st.chat_message(r): st.markdown(s) *)
| Subheader (s : text)
| Tabs
| BarChart (p : Plot)
| DataFrameView (p : Plot)
| ErrorBox (s : text).

(** [result.get('final_answer', "I couldn't generate an answer.")],
    [result.get('sql_query', 'N/A')] and the text built from them. *)
Definition response_content (show_sql : bool) (result : AgentState cell) : text :=
  let answer :=
    match final_answer result with
    | Some a => a
    | None => str "I couldn't generate an answer."
    end in
  let sql_used :=
    match sql_query result with
    | Some s => s
    | None => str "N/A"
    end in
  if show_sql
  then answer ++ nl :: nl :: str "**SQL Executed:**" ++ nl ::
       str "```sql" ++ nl :: sql_used ++ nl :: str "```"
  else answer.

(** [pd.DataFrame({columns[0]: labels, columns[1]: values})
       .set_index(columns[0])]: a dict display keeps one entry for a key
    written twice, with the later value; the frame wants columns of one
    length.  [inl] is the text of the exception. *)
Definition chart_frame (labels values : list cell) (columns : list text) : text + Plot :=
  match nth_error columns 0 with
  | None => inl (str "list index out of range")
  | Some c0 =>
      match nth_error columns 1 with
      | None => inl (str "list index out of range")
      | Some c1 =>
          if text_eqb c0 c1
          then inr {| plot_index := values; plot_columns := [] |}
          else if length labels =? length values
               then inr {| plot_index := labels; plot_columns := [ (Name c1, values) ] |}
               else inl (str "All arrays must be of the same length")
      end
  end.

(** The part of the handler after the assistant's text is on the page:
    [if chart_data and len(chart_data.get('values', [])) > 0: ...] *)
Definition plot_chart (chart_data : option (chart cell)) : text + list shown :=
  match chart_data with
  | Some (Chart labels values columns) =>
      if 0 <? length values
      then match chart_frame labels values columns with
           | inr df_chart =>
               inr [ Subheader (str "Visual Analysis"); Tabs;
                     BarChart df_chart; DataFrameView df_chart ]
           | inl e => inl e
           end
      else inr []
  | Some (NoChart _) | None => inr []
  end.

(** What is on the page when [plot_chart] raises: the subheader and the
    tabs come before the frame is built. *)
Definition plot_started : list shown := [ Subheader (str "Visual Analysis"); Tabs ].

(** The body of [if prompt := st.chat_input(...)]: the history and the
    page after the question [prompt].  Every exception of the run and of
    the plot ends in the error box.  (The switch [pii_enabled] of the side
    bar is read nowhere.) *)
Definition chat_turn (show_sql : bool) (prompt : text) (messages : list chat_message)
    : list chat_message * list shown :=
  let messages :=
    messages ++ [ {| m_role := User; m_content := prompt; m_chart := None |} ] in
  let page := [ Markdown User prompt ] in
  match fst (invoke w prompt) with
  | Raise e => (messages, page ++ [ ErrorBox (str "An error occurred: " ++ e) ])
  | Ret result =>
      let chart_data := chart_data result in
      let response_content := response_content show_sql result in
      let messages :=
        messages ++ [ {| m_role := Assistant; m_content := response_content;
                         m_chart := Some chart_data |} ] in
      let page := page ++ [ Markdown Assistant response_content ] in
      match plot_chart chart_data with
      | inr plot => (messages, page ++ plot)
      | inl e =>
          (messages,
           page ++ plot_started ++ [ ErrorBox (str "An error occurred: " ++ e) ])
      end
  end.

(** [pd.DataFrame(values, index=labels)]: one column, at position 0; no
    column for an empty list. *)
Definition replay_frame (labels values : list cell) : text + Plot :=
  match values with
  | [] => inr {| plot_index := labels; plot_columns := [] |}
  | _ :: _ =>
      if length labels =? length values
      then inr {| plot_index := labels; plot_columns := [ (Position 0, values) ] |}
      else inl (str "Shape of passed values is (" ++ dec (length values) ++
                str ", 1), indices imply (" ++ dec (length labels) ++ str ", 1)")
  end.

(** The loop that shows the history when the script runs again; it is
    outside every [try]. *)
Fixpoint replay (messages : list chat_message) : text + list shown :=
  match messages with
  | [] => inr []
  | message :: rest =>
      let head :=
        match m_chart message with
        | Some (Some (Chart labels values _)) =>
            match replay_frame labels values with
            | inr df => inr [ Markdown (m_role message) (m_content message); BarChart df ]
            | inl e => inl e
            end
        | _ => inr [ Markdown (m_role message) (m_content message) ]
        end in
      match head with
      | inl e => inl e
      | inr page =>
          match replay rest with
          | inr pages => inr (page ++ pages)
          | inl e => inl e
          end
      end
  end.

(** No error box among what is shown. *)
Definition no_error_box (page : list shown) : Prop :=
  forall s, ~ In (ErrorBox s) page.

End Chat.

End Main.

(** ** evaluation.py: the evaluation script *)

Module Evaluation.

(** [test_dataset]: the questions with their gold statements. *)
Definition test_dataset : list (text * text) :=
  [ (str "Show me the top 3 products by price.",
     str "SELECT product_name, price FROM products ORDER BY price DESC LIMIT 3");
    (str "Count the total number of sales.",
     str "SELECT COUNT(*) FROM sales");
    (str "What is the price of Laptop Pro?",
     str "SELECT price FROM products WHERE product_name = 'Laptop Pro'");
    (str "List email addresses of all customers.",
     str "SELECT email FROM customers");
    (str "Show me the sales happened in january regionwise.",
     str "SELECT r.region_name, SUM(s.total_amount) AS total_sales FROM sales s JOIN regions r ON s.region_id = r.region_id WHERE STRFTIME('%m', s.sale_date) = '01' GROUP BY r.region_name");
    (str "List all the products with their sales amount in 2023",
     str "SELECT p.product_name, SUM(s.total_amount) AS total_sales FROM products p JOIN sales s ON p.product_id = s.product_id WHERE STRFTIME('%Y', s.sale_date) = '2023' GROUP BY p.product_name");
    (str "List all the customers in descending order of their joining date.",
     str "SELECT * FROM customers ORDER BY join_date DESC;");
    (str "List total sales amount in 2024.",
     str "SELECT SUM(total_amount) FROM sales WHERE sale_date LIKE '2024%';");
    (str "List all the customers who like to dance.",
     str "SELECT * FROM customers WHERE customer_name LIKE '%dance%' OR email LIKE '%dance%';");
    (str "List all the regions where the sales didn't happen at all.",
     str "SELECT region_name FROM regions WHERE region_id NOT IN (SELECT region_id FROM sales)") ].

Section Script.

Variable cell : Type.

(** The numbers of [time.time()], with the two operations the script
    uses on them. *)
Variable number : Type.
Variable add sub : number -> number -> number.
Variable zero : number.

(** What the script reaches outside the graph: the clock, and pandas on
    the two frames it compares.  The first argument of [eval_query] is the
    index of the test case. *)
Record Bench := {
  time_time : nat -> number;
  eval_query : nat -> text -> DataFrame cell + text;
  frame_equals : DataFrame cell -> DataFrame cell -> bool;
  same_rows : DataFrame cell -> DataFrame cell -> bool
}.

Variable bench : Bench.

(** The graph as test case [i] finds it. *)
Variable agent : nat -> World cell.

(** The local variables of [run_evaluation]; [clock_reads] counts the
    calls of [time.time()].  An entry of [results] is the question,
    [passed] and [latency]. *)
Record Tally := {
  results : list (text * bool * number);
  total_latency : number;
  correct_count : nat;
  valid_sql_count : nat;
  clock_reads : nat
}.

Definition start : Tally :=
  {| results := []; total_latency := zero; correct_count := 0;
     valid_sql_count := 0; clock_reads := 0 |}.

(** Step 4 of the loop, the accuracy check: [inl matches], or [inr] when
    the gold statement raises (which the inner [try] does not cover). *)
Definition accuracy_check (i : nat) (gold_sql gen_sql : text) : bool + text :=
  match eval_query bench i gold_sql with
  | inr e => inr e
  | inl df_gold =>
      match eval_query bench i gen_sql with
      | inr _ => inl false
      | inl df_gen =>
          let matches := frame_equals bench df_gold df_gen in
          if negb matches && negb (df_empty df_gold) && negb (df_empty df_gen)
          then inl (same_rows bench df_gold df_gen)
          else inl matches
      end
  end.

(** One turn of the loop; the outer [except] keeps what was counted
    before the exception. *)
Definition test_case (i : nat) (case : text * text) (t : Tally) : Tally :=
  let q := fst case in
  let gold_sql := snd case in
  let start_time := time_time bench (clock_reads t) in
  match fst (invoke (agent i) q) with
  | Raise _ =>
      {| results := results t; total_latency := total_latency t;
         correct_count := correct_count t; valid_sql_count := valid_sql_count t;
         clock_reads := clock_reads t + 1 |}
  | Ret response =>
      let gen_sql := match sql_query response with Some s => s | None => [] end in
      let latency := sub (time_time bench (clock_reads t + 1)) start_time in
      let total_latency := add (total_latency t) latency in
      if negb (error_set response) && negb (text_eqb gen_sql (str "IMPOSSIBLE"))
      then
        let valid_sql_count := valid_sql_count t + 1 in
        match accuracy_check i gold_sql gen_sql with
        | inr _ =>
            {| results := results t; total_latency := total_latency;
               correct_count := correct_count t; valid_sql_count := valid_sql_count;
               clock_reads := clock_reads t + 2 |}
        | inl matches =>
            {| results := results t ++ [ (q, matches, latency) ];
               total_latency := total_latency;
               correct_count := if matches then correct_count t + 1 else correct_count t;
               valid_sql_count := valid_sql_count;
               clock_reads := clock_reads t + 2 |}
        end
      else
        {| results := results t ++ [ (q, false, latency) ];
           total_latency := total_latency;
           correct_count := correct_count t; valid_sql_count := valid_sql_count t;
           clock_reads := clock_reads t + 2 |}
  end.

(** [for i, case in enumerate(dataset): ...] from the variables [t]. *)
Definition loop (dataset : list (text * text)) (t : Tally) : Tally :=
  fold_left (fun t ic => test_case (fst ic) (snd ic) t)
    (combine (seq 0 (length dataset)) dataset) t.

(** The variables when the loop of [run_evaluation] is over; the report
    prints the two counts as percentages of [len(test_dataset)]. *)
Definition run_evaluation : Tally := loop test_dataset start.

(** The entries of [results] that passed. *)
Definition passed (t : Tally) : nat :=
  length (filter (fun r => snd (fst r)) (results t)).

(** A step that adds to the counts what a test case can add; [c] tells
    whether it may count its case as valid. *)
Definition counting {A : Type} (c : A -> bool) (f : Tally -> A -> Tally) : Prop :=
  forall t x,
    exists valid correct recorded : bool,
      valid_sql_count (f t x) = valid_sql_count t + (if valid then 1 else 0) /\
      correct_count (f t x) = correct_count t + (if correct then 1 else 0) /\
      length (results (f t x)) = length (results t) + (if recorded then 1 else 0) /\
      passed (f t x) = passed t + (if correct then 1 else 0) /\
      (correct = true -> valid = true /\ recorded = true) /\
      (c x = false -> valid = false /\ recorded = true).

(** Whether the run of a test case returns a state without error. *)
Definition run_clean (ic : nat * (text * text)) : bool :=
  match fst (invoke (agent (fst ic)) (fst (snd ic))) with
  | Ret response => negb (error_set response)
  | Raise _ => true
  end.

End Script.

End Evaluation.

(** ** database.py: the sample database *)

Module Database.

(** The rows of [regions] and of [products].  A price is a float with an
    integer value, written here as that integer; so are the totals (the
    largest is 5 * 1200). *)
Definition regions : list (Z * text) :=
  [ (1, str "North America"); (2, str "Europe"); (3, str "Asia");
    (4, str "South America") ]%Z.

Definition products : list (Z * text * text * Z) :=
  [ (1, str "Laptop Pro", str "Electronics", 1200);
    (2, str "Smart Phone X", str "Electronics", 800);
    (3, str "Ergo Chair", str "Furniture", 300);
    (4, str "Desk Lamp", str "Furniture", 45);
    (5, str "Gaming Monitor", str "Electronics", 400) ]%Z.

(** [next(p[3] for p in products if p[0] == p_id)]; [None] stands for
    [StopIteration]. *)
Fixpoint next_price (products : list (Z * text * text * Z)) (p_id : Z) : option Z :=
  match products with
  | [] => None
  | (id, _, _, price) :: rest =>
      if (id =? p_id)%Z then Some price else next_price rest p_id
  end.

Section Init.

(** [fake.name()], [fake.email()] and [fake.date_between(...)], by the
    number of the customer. *)
Record Faker := {
  fake_name : nat -> text;
  fake_email : nat -> text;
  fake_date_between : nat -> text
}.

Variable fake : Faker.

(** [random.randint(a, b)]; the first argument is the number of earlier
    calls. *)
Variable randint : nat -> Z -> Z -> Z.

(** [(datetime(2023, 1, 1) + timedelta(days=d)).strftime("%Y-%m-%d")] *)
Variable strftime : Z -> text.

(** [customer_list], after [for i in range(50)]. *)
Definition customer_list : list (Z * text * text * text) :=
  map (fun i => ((Z.of_nat i + 1)%Z, fake_name fake i, fake_email fake i,
                 fake_date_between fake i))
    (seq 0 50).

Record sale := {
  sale_id : Z;
  customer_id : Z;
  product_id : Z;
  region_id : Z;
  sale_date : text;
  quantity : Z;
  total_amount : Z
}.

(** The body of [for i in range(200)]: five draws, then the price. *)
Definition sale_row (i : nat) : option sale :=
  let c_id := randint (5 * i) 1 50 in
  let p_id := randint (5 * i + 1) 1 5 in
  let r_id := randint (5 * i + 2) 1 4 in
  let date := strftime (randint (5 * i + 3) 0 700) in
  let qty := randint (5 * i + 4) 1 5 in
  match next_price products p_id with
  | None => None
  | Some price =>
      let total := (qty * price)%Z in
      Some {| sale_id := (Z.of_nat i + 1)%Z; customer_id := c_id; product_id := p_id;
              region_id := r_id; sale_date := date; quantity := qty;
              total_amount := total |}
  end.

(** The loop over the indices [range], with the rows appended so far. *)
Fixpoint sales_loop (range : list nat) (sales_data : list sale) : option (list sale) :=
  match range with
  | [] => Some sales_data
  | i :: rest =>
      match sale_row i with
      | None => None
      | Some row => sales_loop rest (sales_data ++ [row])
      end
  end.

(** The rows [init_db] inserts into the four tables, which it has just
    created anew. *)
Record Tables := {
  t_regions : list (Z * text);
  t_products : list (Z * text * text * Z);
  t_customers : list (Z * text * text * text);
  t_sales : list sale
}.

Definition init_db : option Tables :=
  match sales_loop (seq 0 200) [] with
  | None => None
  | Some sales_data =>
      Some {| t_regions := regions; t_products := products;
              t_customers := customer_list; t_sales := sales_data |}
  end.

(** Row [s] is the row of index [i], and refers to rows of the other
    tables: a customer, a region, and a product whose price gives the
    total. *)
Definition sound_row (i : nat) (s : sale) : Prop :=
  sale_id s = (Z.of_nat i + 1)%Z /\
  In (customer_id s) (map (fun c => fst (fst (fst c))) customer_list) /\
  In (region_id s) (map fst regions) /\
  (1 <= quantity s <= 5)%Z /\
  (exists name category price,
     In (product_id s, name, category, price) products /\
     total_amount s = (quantity s * price)%Z) /\
  exists d, (0 <= d <= 700)%Z /\ sale_date s = strftime d.

(** [random.randint(a, b)] returns an integer from [a] to [b]. *)
Definition randint_in_range : Prop :=
  forall k a b, (a <= b)%Z -> (a <= randint k a b <= b)%Z.

End Init.

End Database.

(** ** Concrete worlds *)

Module Scenario.

Definition no_frame : DataFrame Z := {| df_series := [] |}.

(** A model that writes one fixed query, certifies every query it is shown
    and answers with a fixed sentence. *)
Definition llm_fixed (sql : text) (k : nat) (messages : list message) : text + text :=
  match messages with
  | [(System, _); (Human, _)] => inl sql
  | [(System, _)] => inl (str "CORRECT")
  | _ => inl (str "Done.")
  end.

Definition select_by_email : text :=
  str "SELECT * FROM customers WHERE email = '__EMAIL_1__'".

(** A store without the table asked for; like the database driver, it
    reports the statement it was given. *)
Definition world_no_table : World Z :=
  {| get_table_info := str "CREATE TABLE sales (id INTEGER)";
     llm_invoke := llm_fixed select_by_email;
     read_sql_query := fun _ sql =>
       inr (str "(sqlite3.OperationalError) no such table: customers" ++ nl ::
            str "[SQL: " ++ sql ++ str "]");
     df_to_str := fun _ => str "Empty DataFrame" |}.

(** A store holding one table of three columns. *)
Definition three_columns : DataFrame Z :=
  {| df_series := [ (str "region", [1; 2]%Z); (str "total", [10; 20]%Z);
                    (str "orders", [3; 5]%Z) ] |}.

Definition world_three_columns : World Z :=
  {| get_table_info := str "CREATE TABLE sales (id INTEGER)";
     llm_invoke := llm_fixed (str "SELECT region, total, orders FROM sales");
     read_sql_query := fun _ _ => inl three_columns;
     df_to_str := fun _ => str "region total orders" |}.

Definition state_with_query (q sql : text) : AgentState Z :=
  apply_update (set_query_and_error Z sql None) (inputs Z q).

(** A store that runs every statement but the empty one. *)
Definition world_ok : World Z :=
  {| get_table_info := str "CREATE TABLE customers (email TEXT)";
     llm_invoke := llm_fixed select_by_email;
     read_sql_query := fun _ sql =>
       match sql with
       | [] => inr (str "This result object does not return rows.")
       | _ :: _ => inl three_columns
       end;
     df_to_str := fun _ => str "region total orders" |}.

(** A language model that cannot be reached. *)
Definition world_llm_down : World Z :=
  {| get_table_info := str "CREATE TABLE customers (email TEXT)";
     llm_invoke := fun _ _ => inr (str "Connection error.");
     read_sql_query := fun _ _ => inl three_columns;
     df_to_str := fun _ => str "region total orders" |}.

(** A model that writes a harmless query and, asked to verify it, answers
    with a fenced statement of its own. *)
Definition llm_repairing (k : nat) (messages : list message) : text + text :=
  match messages with
  | [(System, _); (Human, _)] => inl (str "SELECT * FROM customer")
  | [(System, _)] => inl (str "```sql" ++ nl :: str "DROP TABLE customers" ++ nl :: str "```")
  | _ => inl (str "Done.")
  end.

Definition world_repairing : World Z :=
  {| get_table_info := str "CREATE TABLE customers (email TEXT)";
     llm_invoke := llm_repairing;
     read_sql_query := fun _ _ => inl no_frame;
     df_to_str := fun _ => str "Empty DataFrame" |}.

Definition who_is : text := str "Who is a@b.co?".

(** The state in which [execute_sql] first runs in [world_ok]. *)
Definition state_at_execute : AgentState Z :=
  apply_update (set_error Z None)
    (apply_update
       (sql_generated Z select_by_email (sanitized_of who_is) (pii_map_of who_is) 0)
       (inputs Z who_is)).

Definition log_at_execute : list event :=
  [ LLMCall (generate_sql_messages (get_table_info world_ok) (sanitized_of who_is));
    LLMCall [ (System, check_sql_prompt (get_table_info world_ok) select_by_email) ] ].

(** A question that already holds the text of a placeholder. *)
Definition with_placeholder : text := str "__EMAIL_1__ a@b.co".

(** A question with one underscore and no placeholder. *)
Definition with_underscore : text := str "a@b.co x@y.zz x@y.zzEMAIL_1a@b.co".

(** One address, twice. *)
Definition twice : text := str "a@b.co a@b.co".

(** Two addresses that run into each other. *)
Definition run_on : text := str "x@a.bx@a.b".

(** An address followed by an at sign and a domain. *)
Definition trailing_domain : text := str "_@a.b@a.b".

(** A model that answers its first two calls and cannot be reached for
    the third. *)
Definition world_llm_lost : World Z :=
  {| get_table_info := str "CREATE TABLE customers (email TEXT)";
     llm_invoke := fun k messages =>
       if k <? 2 then llm_fixed select_by_email k messages
       else inr (str "Connection error.");
     read_sql_query := read_sql_query world_ok;
     df_to_str := fun _ => str "region total orders" |}.

(** A store whose exception has no message. *)
Definition world_silent : World Z :=
  {| get_table_info := str "CREATE TABLE customers (email TEXT)";
     llm_invoke := llm_fixed select_by_email;
     read_sql_query := fun _ _ => inr [];
     df_to_str := fun _ => str "Empty DataFrame" |}.

(** A store of customers whose printed result shows an address, and a
    model that repeats the placeholder in its answer. *)
Definition llm_customers (k : nat) (messages : list message) : text + text :=
  match messages with
  | [(System, _); (Human, _)] => inl select_by_email
  | [(System, _)] => inl (str "CORRECT")
  | _ => inl (str "Yes, __EMAIL_1__ is a customer.")
  end.

Definition one_customer : DataFrame Z :=
  {| df_series := [ (str "customer_id", [7]%Z); (str "orders", [3]%Z) ] |}.

Definition world_customers : World Z :=
  {| get_table_info := str "CREATE TABLE customers (email TEXT)";
     llm_invoke := llm_customers;
     read_sql_query := fun _ sql =>
       match sql with
       | [] => inr (str "This result object does not return rows.")
       | _ :: _ => inl one_customer
       end;
     df_to_str := fun _ =>
       str "   customer_id   email" ++ nl :: str "0            7  a@b.co" |}.

(** The configurations of the run in [world_customers] after
    [execute_sql] and after [generate_answer]. *)
Definition state_at_answer : AgentState Z :=
  apply_update
    (executed (str "   customer_id   email" ++ nl :: str "0            7  [EMAIL_REDACTED]")
       (Chart [7]%Z [3]%Z [str "customer_id"; str "orders"]))
    state_at_execute.

Definition log_at_answer : list event :=
  log_at_execute ++ [ DBCall (str "SELECT * FROM customers WHERE email = 'a@b.co'") ].

Definition state_at_end : AgentState Z :=
  apply_update (set_final_answer Z (str "Yes, [EMAIL_REDACTED] is a customer."))
    state_at_answer.

(** A state that a caller built without [retry_count]. *)
Definition state_without_count (sql : text) : AgentState Z :=
  {| question := who_is; sanitized_question := None; sql_query := Some sql;
     query_result := None; final_answer := None; chart_data := None;
     error := None; retry_count := None; pii_map := None |}.

(** The state and the log with which the run on [q] in [w] ends. *)
Definition final_state (w : World Z) (q : text) : AgentState Z :=
  match fst (invoke w q) with
  | Ret st => st
  | Raise _ => inputs Z q
  end.

Definition final_log (w : World Z) (q : text) : list event := snd (invoke w q).

(** A clock and comparisons for the evaluation script. *)
Definition bench_plain : Evaluation.Bench Z Z :=
  {| Evaluation.time_time := fun k => Z.of_nat k;
     Evaluation.eval_query := fun _ _ => inl no_frame;
     Evaluation.frame_equals := fun _ _ => true;
     Evaluation.same_rows := fun _ _ => true |}.

(** A generator that always draws the lower bound, and a faker of fixed
    texts. *)
Definition randint_low (k : nat) (a b : Z) : Z := a.

Definition fake_fixed : Database.Faker :=
  {| Database.fake_name := fun _ => str "Ann Lee";
     Database.fake_email := fun _ => str "ann@lee.org";
     Database.fake_date_between := fun _ => str "2024-05-01" |}.

(** A stand-in for the formatting of dates: the offset in days. *)
Definition strftime_days (d : Z) : text := str "day " ++ dec (Z.to_nat d).

(** The tables of [init_db] with these, and the first of its sales. *)
Definition sample_tables : Database.Tables :=
  match Database.init_db fake_fixed randint_low strftime_days with
  | Some t => t
  | None =>
      {| Database.t_regions := []; Database.t_products := [];
         Database.t_customers := []; Database.t_sales := [] |}
  end.

Definition first_sale : Database.sale :=
  {| Database.sale_id := 1; Database.customer_id := 1; Database.product_id := 1;
     Database.region_id := 1; Database.sale_date := strftime_days 0;
     Database.quantity := 1; Database.total_amount := 1200 |}.

End Scenario.

(* ================================================================= *)
(** * Properties *)

(** ** Strings *)

Section StringFacts.

Lemma text_eqb_eq (a b : text) : text_eqb a b = true <-> a = b.
Proof.
  revert b; induction a as [|x a IH]; intros [|y b]; simpl; try easy.
  rewrite andb_true_iff, Ascii.eqb_eq, IH.
  split; [intros [-> ->]; reflexivity | intros [= -> ->]; auto].
Qed.

Lemma text_eqb_refl (a : text) : text_eqb a a = true.
Proof. apply text_eqb_eq; reflexivity. Qed.

Lemma text_eqb_neq (a b : text) : text_eqb a b = false <-> a <> b.
Proof.
  rewrite <- text_eqb_eq. destruct (text_eqb a b); split; congruence.
Qed.

Lemma starts_with_iff (p s : text) :
  starts_with p s = true <-> exists r, s = p ++ r.
Proof.
  revert s; induction p as [|x p IH]; intros s; simpl.
  - split; eauto.
  - destruct s as [|y s].
    + split; [discriminate | intros [r Hr]; discriminate].
    + rewrite andb_true_iff, Ascii.eqb_eq, IH. split.
      * intros [-> [r ->]]. now exists r.
      * intros [r [= -> ->]]. eauto.
Qed.

Lemma starts_with_app (p r : text) : starts_with p (p ++ r) = true.
Proof. apply starts_with_iff; eauto. Qed.

Lemma contains_iff (sub s : text) :
  contains sub s = true <-> exists a b, s = a ++ sub ++ b.
Proof.
  induction s as [|c s IH]; simpl.
  - rewrite orb_false_r, starts_with_iff. split.
    + intros [r Hr]. now exists [], r.
    + intros (a & b & H). destruct a; simpl in H; [eauto | discriminate].
  - rewrite orb_true_iff, starts_with_iff, IH. split.
    + intros [[r Hr] | (a & b & ->)].
      * now exists [], r.
      * now exists (c :: a), b.
    + intros (a & b & H). destruct a as [|x a]; simpl in H.
      * left; eauto.
      * injection H as -> ->. right; eauto.
Qed.

Lemma contains_app (sub a b : text) : contains sub (a ++ sub ++ b) = true.
Proof. apply contains_iff; eauto. Qed.

Lemma upper_app (a b : text) : upper (a ++ b) = upper a ++ upper b.
Proof. apply map_app. Qed.

Lemma replace_from_skip (old new u r : text) :
  replace_from (length u) old new (u ++ r) = replace_from 0 old new r.
Proof. induction u; simpl; auto. Qed.

Lemma replace_nil (old new : text) : old <> [] -> replace [] old new = [].
Proof. destruct old; [congruence | reflexivity]. Qed.

Lemma replace_hit (old new r : text) :
  old <> [] -> replace (old ++ r) old new = new ++ replace r old new.
Proof.
  destruct old as [|c old]; [congruence | intros _].
  unfold replace. change ((c :: old) ++ r) with (c :: (old ++ r)).
  cbn [replace_from]. change (c :: old ++ r) with ((c :: old) ++ r).
  rewrite starts_with_app.
  replace (length (c :: old) - 1) with (length old) by (simpl; lia).
  now rewrite replace_from_skip.
Qed.

Lemma replace_miss (old new : text) (c : ascii) (s : text) :
  old <> [] -> starts_with old (c :: s) = false ->
  replace (c :: s) old new = c :: replace s old new.
Proof.
  destruct old as [|x old]; [congruence | intros _ H].
  unfold replace. cbn [replace_from]. now rewrite H.
Qed.

End StringFacts.

(** ** The validator's keyword test *)

Section Validator.

Variable cell : Type.
Variable w : World cell.

Lemma check_sql_node_unsafe (st : AgentState cell) (log : list event) (sql : text) :
  sql_query st = Some sql -> unsafe_query sql = true ->
  check_sql_node w st log = (Ret (blocked cell), log).
Proof.
  intros Hq Hu. unfold check_sql_node, bind, subscript. rewrite Hq.
  unfold ret at 1. now rewrite Hu.
Qed.

End Validator.

(** ** The nodes, one by one *)

Section Nodes.

Variable cell : Type.
Variable w : World cell.

Lemma llm_calls_llm (log : list event) (m : list message) :
  llm_calls (log ++ [LLMCall m]) = S (llm_calls log).
Proof. unfold llm_calls. rewrite filter_app, length_app. simpl. lia. Qed.

Lemma llm_calls_db (log : list event) (sql : text) :
  llm_calls (log ++ [DBCall sql]) = llm_calls log.
Proof. unfold llm_calls. rewrite filter_app, length_app. simpl. lia. Qed.

Lemma db_calls_llm (log : list event) (m : list message) :
  db_calls (log ++ [LLMCall m]) = db_calls log.
Proof. unfold db_calls. rewrite filter_app, length_app. simpl. lia. Qed.

Lemma db_calls_db (log : list event) (sql : text) :
  db_calls (log ++ [DBCall sql]) = S (db_calls log).
Proof. unfold db_calls. rewrite filter_app, length_app. simpl. lia. Qed.

Lemma generate_sql_node_eq (st : AgentState cell) (log : list event) :
  let msgs := generate_sql_messages (get_table_info w) (sanitized_of (question st)) in
  generate_sql_node w st log =
  match llm_invoke w (llm_calls log) msgs with
  | inl r =>
      (Ret (sql_generated cell (strip_fences r) (sanitized_of (question st))
              (pii_map_of (question st))
              (match retry_count st with Some n => n | None => 0%Z end)),
       log ++ [LLMCall msgs])
  | inr e => (Raise e, log ++ [LLMCall msgs])
  end.
Proof.
  unfold generate_sql_node, sanitized_of, pii_map_of.
  destruct (pii_filter_input (question st)) as [sanitized pii]. simpl.
  unfold bind, call_llm.
  destruct (llm_invoke w (llm_calls log) _); reflexivity.
Qed.

Lemma check_sql_node_eq (st : AgentState cell) (log : list event) (sql : text) :
  sql_query st = Some sql ->
  let msgs := [ (System, check_sql_prompt (get_table_info w) sql) ] in
  check_sql_node w st log =
  if unsafe_query sql then (Ret (blocked cell), log)
  else match llm_invoke w (llm_calls log) msgs with
       | inl r => (Ret (verdict cell r), log ++ [LLMCall msgs])
       | inr e => (Raise e, log ++ [LLMCall msgs])
       end.
Proof.
  intros Hq. unfold check_sql_node, bind, subscript. rewrite Hq. unfold ret at 1.
  simpl. destruct (unsafe_query sql); [reflexivity|].
  unfold call_llm. destruct (llm_invoke w (llm_calls log) _); reflexivity.
Qed.

Lemma execute_sql_node_eq (st : AgentState cell) (log : list event) (sql : text) :
  sql_query st = Some sql ->
  let exe := rehydrate sql (get_pii_map st) in
  execute_sql_node w st log =
  match read_sql_query w (db_calls log) exe with
  | inl conn =>
      (Ret (executed (redact_result_data (df_to_str w conn) (get_pii_map st))
              (chart_of conn)),
       log ++ [DBCall exe])
  | inr e =>
      match retry_count st with
      | Some n => (Ret (failed cell e (n + 1)), log ++ [DBCall exe])
      | None => (Raise (str "'" ++ str "retry_count" ++ str "'"), log ++ [DBCall exe])
      end
  end.
Proof.
  intros Hq. unfold execute_sql_node, try_except, bind, subscript. rewrite Hq.
  unfold ret at 1. simpl. unfold call_db.
  destruct (read_sql_query w (db_calls log) _); [reflexivity|].
  destruct (retry_count st); reflexivity.
Qed.

Lemma verdict_error (r : text) : u_error (verdict cell r) = Some None.
Proof.
  unfold verdict. destruct (contains _ (upper _)); [reflexivity|].
  destruct (if contains fence_sql (strip r) then _ else _); reflexivity.
Qed.

Lemma verdict_frame (r : text) :
  u_question (verdict cell r) = None /\
  u_sanitized_question (verdict cell r) = None /\
  u_pii_map (verdict cell r) = None /\
  u_retry_count (verdict cell r) = None /\
  u_query_result (verdict cell r) = None /\
  u_final_answer (verdict cell r) = None.
Proof.
  unfold verdict. destruct (contains _ (upper _)); [repeat split|].
  destruct (if contains fence_sql (strip r) then _ else _); repeat split.
Qed.

End Nodes.

(** ** Placeholders and the e-mail pattern *)

Section Tokens.

Lemma string_of_uint_digits (d : Decimal.uint) :
  Forall (fun c => digit c = true)
    (list_ascii_of_string (NilEmpty.string_of_uint d)).
Proof. induction d; simpl; constructor; auto. Qed.

Lemma dec_digits (n : nat) : Forall (fun c => digit c = true) (dec n).
Proof. apply string_of_uint_digits. Qed.

Lemma dec_inj (n m : nat) : dec n = dec m -> n = m.
Proof.
  unfold dec. intros H.
  apply (f_equal string_of_list_ascii) in H.
  rewrite !string_of_list_ascii_of_string in H.
  apply (f_equal NilEmpty.uint_of_string) in H.
  rewrite !NilEmpty.usu in H. injection H as H.
  now apply DecimalNat.Unsigned.to_uint_inj.
Qed.

Lemma dec_nonempty (n : nat) : exists c r, dec n = c :: r /\ digit c = true.
Proof.
  pose proof (dec_digits n) as Hd.
  destruct (dec n) as [|c r] eqn:E.
  - exfalso. unfold dec in E.
    destruct (Nat.to_uint n) eqn:U; simpl in E; try discriminate.
    pose proof (DecimalNat.Unsigned.of_to n) as H. rewrite U in H.
    simpl in H. subst n. discriminate U.
  - inversion Hd; subst. eauto.
Qed.

Lemma digit_not_underscore (c : ascii) : digit c = true -> c <> underscore.
Proof. intros H ->. discriminate H. Qed.

Lemma digit_not_at (c : ascii) : digit c = true -> c <> at_sign.
Proof. intros H ->. discriminate H. Qed.

Lemma digits_no_underscore (u : text) :
  Forall (fun c => digit c = true) u -> ~ In underscore u.
Proof.
  intros H Hin. rewrite Forall_forall in H.
  now apply (digit_not_underscore (H _ Hin)).
Qed.

Lemma digits_no_at (u : text) :
  Forall (fun c => digit c = true) u -> ~ In at_sign u.
Proof.
  intros H Hin. rewrite Forall_forall in H.
  now apply (digit_not_at (H _ Hin)).
Qed.

(** Two texts without [c], each followed by [c]: the one that comes first
    in a common text is the other. *)
Lemma delimited_inj (c : ascii) (u v a b : text) :
  ~ In c u -> ~ In c v -> u ++ c :: a = v ++ c :: b -> u = v.
Proof.
  revert v; induction u as [|x u IH]; intros [|y v] Hu Hv H; simpl in *.
  - reflexivity.
  - injection H as <- _. tauto.
  - injection H as -> _. tauto.
  - injection H as -> H. f_equal. apply IH; tauto.
Qed.

Lemma placeholder_of_eq (i : nat) :
  placeholder_of i =
  underscore :: underscore :: str "EMAIL" ++ underscore :: dec (i + 1) ++ [underscore; underscore].
Proof. reflexivity. Qed.

Lemma placeholder_inj (i j : nat) : placeholder_of i = placeholder_of j -> i = j.
Proof.
  rewrite !placeholder_of_eq. intros H.
  injection H as H.
  apply delimited_inj in H; auto using digits_no_underscore, dec_digits.
  apply dec_inj in H. lia.
Qed.

Lemma placeholder_nonempty (i : nat) : placeholder_of i <> [].
Proof. rewrite placeholder_of_eq. discriminate. Qed.

End Tokens.

(** ** The e-mail pattern *)

Section Pattern.

Lemma plus_greedy_inv (cls : ascii -> bool) (k : text -> option text) (s m : text) :
  plus_greedy cls k s = Some m ->
  exists u r m', u <> [] /\ s = u ++ r /\ m = u ++ m' /\ k r = Some m'.
Proof.
  revert m; induction s as [|c s IH]; intros m; simpl; [discriminate|].
  destruct (cls c); [|discriminate].
  destruct (plus_greedy cls k s) as [m1|] eqn:E.
  - intros [= <-]. destruct (IH _ eq_refl) as (u & r & m' & _ & -> & -> & Hk).
    exists (c :: u), r, m'. repeat split; auto. discriminate.
  - destruct (k s) as [m'|] eqn:Ek; simpl; [|discriminate].
    intros [= <-]. exists [c], s, m'. repeat split; auto. discriminate.
Qed.

Lemma match_here_prefix (p : list item) (s m : text) :
  match_here p s = Some m -> exists r, s = m ++ r.
Proof.
  revert s m; induction p as [|[cls|cls] p IH]; intros s m; simpl.
  - intros [= <-]. now exists s.
  - destruct s as [|c s]; [discriminate|]. destruct (cls c); [|discriminate].
    destruct (match_here p s) as [m'|] eqn:E; simpl; [|discriminate].
    intros [= <-]. destruct (IH _ _ E) as [r ->]. now exists r.
  - intros H. apply plus_greedy_inv in H as (u & r & m' & _ & -> & -> & Hk).
    destruct (IH _ _ Hk) as [r' ->]. exists r'. now rewrite app_assoc.
Qed.

Lemma match_email_at (s m : text) :
  match_here email_pattern s = Some m -> In at_sign m.
Proof.
  unfold email_pattern. cbn [match_here]. intros H.
  apply plus_greedy_inv in H as (u & r & m' & _ & _ & -> & Hk).
  apply in_or_app; right.
  destruct r as [|c r]; [discriminate|].
  destruct (Ascii.eqb "@" c) eqn:E; [|discriminate].
  apply Ascii.eqb_eq in E; subst c.
  destruct (plus_greedy _ _ r); simpl in Hk; [|discriminate].
  injection Hk as <-. now left.
Qed.

Lemma findall_from_inv (p : list item) (s : text) (skip : nat) (m : text) :
  In m (findall_from p skip s) ->
  exists a b, s = a ++ b /\ match_here p b = Some m.
Proof.
  revert skip; induction s as [|c s IH]; intros skip; simpl; [tauto|].
  destruct skip as [|k].
  - destruct (match_here p (c :: s)) as [m'|] eqn:E.
    + intros [<- | H].
      * now exists [], (c :: s).
      * destruct (IH _ H) as (a & b & -> & Hb). now exists (c :: a), b.
    + intros H. destruct (IH _ H) as (a & b & -> & Hb). now exists (c :: a), b.
  - intros H. destruct (IH _ H) as (a & b & -> & Hb). now exists (c :: a), b.
Qed.

(** Every e-mail [re.findall] returns is a piece of the text and holds
    an at sign. *)
Lemma findall_email (s m : text) :
  In m (findall email_pattern s) ->
  In at_sign m /\ exists a b, s = a ++ m ++ b.
Proof.
  intros H. apply findall_from_inv in H as (a & b & -> & Hb).
  split; [eapply match_email_at; eauto|].
  apply match_here_prefix in Hb as [r ->]. now exists a, r.
Qed.

End Pattern.

(** ** The placeholder map *)

Section PiiMap.

Lemma entries_cons (i : nat) (e : text) (rest : list text) :
  entries i (e :: rest) = (placeholder_of i, e) :: entries (S i) rest.
Proof. reflexivity. Qed.

Lemma entries_keys (i : nat) (emails : list text) (k : text) :
  In k (dict_keys (entries i emails)) ->
  exists j, i <= j /\ k = placeholder_of j.
Proof.
  revert i; induction emails as [|e rest IH]; intros i; simpl; [tauto|].
  intros [<- | H]; [exists i; auto|].
  destruct (IH _ H) as (j & Hj & ->). exists j; split; [lia | reflexivity].
Qed.

Lemma dict_set_fresh (d : dict) (k v : text) :
  ~ In k (dict_keys d) -> dict_set d k v = d ++ [(k, v)].
Proof.
  induction d as [|[k' v'] d IH]; simpl; intros H; [reflexivity|].
  destruct (text_eqb k' k) eqn:E.
  - apply text_eqb_eq in E. tauto.
  - rewrite IH; tauto.
Qed.

Lemma tokenize_loop_snd (emails : list text) :
  forall i s d,
    (forall k, In k (dict_keys d) -> exists j, j < i /\ k = placeholder_of j) ->
    snd (tokenize_loop i emails s d) = d ++ entries i emails.
Proof.
  induction emails as [|e rest IH]; intros i s d Hd; simpl.
  - now rewrite app_nil_r.
  - rewrite IH.
    + rewrite dict_set_fresh.
      * rewrite <- app_assoc. reflexivity.
      * intros Hin. destruct (Hd _ Hin) as (j & Hj & E).
        apply placeholder_inj in E. lia.
    + intros k Hk. rewrite dict_set_fresh in Hk.
      * unfold dict_keys in Hk. rewrite map_app in Hk.
        apply in_app_or in Hk as [Hk | [<- | []]].
        -- destruct (Hd _ Hk) as (j & Hj & ->). exists j; split; [lia | reflexivity].
        -- exists i; split; [lia | reflexivity].
      * intros Hin. destruct (Hd _ Hin) as (j & Hj & E).
        apply placeholder_inj in E. lia.
Qed.

Lemma tokenize_loop_fst (emails : list text) :
  forall i s d,
    fst (tokenize_loop i emails s d) =
    fold_left (fun s kv => replace s (snd kv) (fst kv)) (entries i emails) s.
Proof.
  induction emails as [|e rest IH]; intros i s d; simpl; [reflexivity|].
  now rewrite IH.
Qed.

Lemma pii_map_of_eq (q : text) :
  pii_map_of q = entries 0 (findall email_pattern q).
Proof.
  unfold pii_map_of, pii_filter_input. rewrite tokenize_loop_snd; [reflexivity|].
  simpl; tauto.
Qed.

Lemma sanitized_of_eq (q : text) :
  sanitized_of q =
  fold_left (fun s kv => replace s (snd kv) (fst kv))
    (entries 0 (findall email_pattern q)) q.
Proof. unfold sanitized_of, pii_filter_input. apply tokenize_loop_fst. Qed.

Lemma rehydrate_nil (d : dict) :
  (forall k, In k (dict_keys d) -> k <> []) -> rehydrate [] d = [].
Proof.
  unfold rehydrate. induction d as [|[k v] d IH]; simpl; intros H; [reflexivity|].
  rewrite replace_nil by (apply H; auto). apply IH. auto.
Qed.

Lemma rehydrate_nil_pii_map (q : text) : rehydrate [] (pii_map_of q) = [].
Proof.
  apply rehydrate_nil. rewrite pii_map_of_eq. intros k Hk.
  apply entries_keys in Hk as (j & _ & ->). apply placeholder_nonempty.
Qed.

End PiiMap.

(** ** Runs *)

Section Runs.

Variable cell : Type.
Variable w : World cell.

Lemma run_END (limit : nat) (st : AgentState cell) (log : list event) :
  run w limit END st log = (Ret st, log).
Proof. destruct limit; reflexivity. Qed.

Lemma run_S (limit : nat) (n : node) (st : AgentState cell) (log : list event) :
  n <> END ->
  run w (S limit) n st log =
  match run_node w n st log with
  | (Ret (next, st'), log') => run w limit next st' log'
  | (Raise e, log') => (Raise e, log')
  end.
Proof. destruct n; try reflexivity. congruence. Qed.

Lemma apply_verdict (r : text) (st : AgentState cell) :
  let st' := apply_update (verdict cell r) st in
  question st' = question st /\
  sanitized_question st' = sanitized_question st /\
  pii_map st' = pii_map st /\
  retry_count st' = retry_count st /\
  query_result st' = query_result st /\
  error st' = None /\
  (sql_query st <> None -> sql_query st' <> None).
Proof.
  destruct (verdict_frame cell r) as (H1 & H2 & H3 & H4 & H5 & _).
  pose proof (verdict_error cell r) as H6.
  unfold apply_update; simpl. rewrite H1, H2, H3, H4, H5, H6. simpl.
  repeat split. destruct (u_sql_query (verdict cell r)); simpl; congruence.
Qed.

Lemma run_node_generate_sql (st : AgentState cell) (log : list event) :
  let msgs := generate_sql_messages (get_table_info w) (sanitized_of (question st)) in
  run_node w GenerateSQL st log =
  match llm_invoke w (llm_calls log) msgs with
  | inl r =>
      (Ret (CheckSQL,
            apply_update
              (sql_generated cell (strip_fences r) (sanitized_of (question st))
                 (pii_map_of (question st))
                 (match retry_count st with Some n => n | None => 0%Z end)) st),
       log ++ [LLMCall msgs])
  | inr e => (Raise e, log ++ [LLMCall msgs])
  end.
Proof.
  simpl. unfold run_node, bind. rewrite generate_sql_node_eq.
  destruct (llm_invoke w (llm_calls log) _); reflexivity.
Qed.

Lemma run_node_check_sql (st : AgentState cell) (log : list event) (sql : text) :
  sql_query st = Some sql ->
  let msgs := [ (System, check_sql_prompt (get_table_info w) sql) ] in
  run_node w CheckSQL st log =
  if unsafe_query sql then (Ret (ExecuteSQL, apply_update (blocked cell) st), log)
  else match llm_invoke w (llm_calls log) msgs with
       | inl r => (Ret (ExecuteSQL, apply_update (verdict cell r) st), log ++ [LLMCall msgs])
       | inr e => (Raise e, log ++ [LLMCall msgs])
       end.
Proof.
  intros Hq. simpl. unfold run_node, bind. rewrite (check_sql_node_eq w st log Hq).
  destruct (unsafe_query sql); [reflexivity|].
  destruct (llm_invoke w (llm_calls log) _); reflexivity.
Qed.

(** The edge out of [execute_sql] after a success. *)
Lemma should_retry_executed (st : AgentState cell) (safe : text) (ch : chart cell)
    (log : list event) :
  error st = None ->
  should_retry (apply_update (executed safe ch) st) log = (Ret GenerateAnswer, log).
Proof. intros H. unfold should_retry, error_set. simpl. now rewrite H. Qed.

(** The edge out of [execute_sql] after a failure with a message. *)
Lemma should_retry_failed (st : AgentState cell) (e : text) (n : Z)
    (log : list event) :
  e <> [] ->
  should_retry (apply_update (failed cell e n) st) log =
  (Ret (if (n <? 3)%Z then GenerateSQL else GenerateAnswer), log).
Proof.
  intros H. unfold should_retry, error_set. simpl.
  destruct e; [congruence|]. simpl. unfold bind, subscript, ret.
  destruct (n <? 3)%Z; reflexivity.
Qed.

Lemma generate_answer_node_error (st : AgentState cell) (log : list event) (e : text) :
  error st = Some e -> e <> [] ->
  generate_answer_node w st log =
  (Ret (set_final_answer cell (str "Error: " ++ e)), log).
Proof.
  intros He Hne. unfold generate_answer_node, error_set. rewrite He.
  destruct e; [congruence|]. reflexivity.
Qed.

Lemma generate_answer_node_model (st : AgentState cell) (log : list event)
    (sanitized sql result : text) :
  error_set st = false ->
  sanitized_question st = Some sanitized ->
  sql_query st = Some sql ->
  query_result st = Some result ->
  let msgs := [ (Human, answer_prompt sanitized sql result) ] in
  generate_answer_node w st log =
  match llm_invoke w (llm_calls log) msgs with
  | inl content =>
      (Ret (set_final_answer cell (scrub_placeholders content (get_pii_map st))),
       log ++ [LLMCall msgs])
  | inr e => (Raise e, log ++ [LLMCall msgs])
  end.
Proof.
  intros He Hs Hq Hr. unfold generate_answer_node. rewrite He, Hs, Hq, Hr.
  unfold bind, subscript. unfold ret at 1 2 3. simpl. unfold call_llm.
  destruct (llm_invoke w (llm_calls log) _); reflexivity.
Qed.

Lemma generate_answer_node_frame (st : AgentState cell) (log log' : list event)
    (u : Update cell) :
  generate_answer_node w st log = (Ret u, log') ->
  exists a, u = set_final_answer cell a.
Proof.
  unfold generate_answer_node, bind, subscript.
  destruct (error_set st).
  - destruct (error st); unfold ret, raise; intros [= <- _]; eauto.
  - destruct (sanitized_question st); [|discriminate].
    destruct (sql_query st); [|discriminate].
    destruct (query_result st); [|discriminate].
    unfold ret at 1 2 3. unfold call_llm.
    destruct (llm_invoke w (llm_calls log) _); [|discriminate].
    unfold ret. intros [= <- _]; eauto.
Qed.

Lemma execute_sql_node_frame (st : AgentState cell) (log log' : list event)
    (u : Update cell) :
  execute_sql_node w st log = (Ret u, log') ->
  (exists safe ch, u = executed safe ch) \/
  (exists e n, retry_count st = Some n /\ u = failed cell e (n + 1)).
Proof.
  unfold execute_sql_node, try_except, bind, subscript.
  destruct (sql_query st) as [sql|].
  - unfold ret at 1. unfold call_db.
    destruct (read_sql_query w (db_calls log) _).
    + unfold ret. intros [= <- _]. left; eauto.
    + destruct (retry_count st); [|discriminate].
      unfold ret. intros [= <- _]. right; eauto.
  - unfold raise at 1. destruct (retry_count st); [|discriminate].
    unfold ret. intros [= <- _]. right; eauto.
Qed.

Lemma run_node_execute_inv (st st' : AgentState cell) (log log' : list event)
    (next : node) :
  run_node w ExecuteSQL st log = (Ret (next, st'), log') ->
  (next = GenerateSQL \/ next = GenerateAnswer) /\
  exists u, st' = apply_update u st /\
    ((exists safe ch, u = executed safe ch) \/
     (exists e n, retry_count st = Some n /\ u = failed cell e (n + 1))).
Proof.
  unfold run_node, bind.
  destruct (execute_sql_node w st log) as [[u|e] log1] eqn:E; [|discriminate].
  apply execute_sql_node_frame in E.
  unfold should_retry, bind, subscript.
  destruct (error_set (apply_update u st)).
  - destruct (retry_count (apply_update u st)) as [k|]; [|discriminate].
    unfold ret at 1. destruct (k <? 3)%Z; unfold ret; intros [= <- <- _]; eauto.
  - unfold ret. intros [= <- <- _]; eauto.
Qed.

(** The invariant is kept by every node. *)
Lemma invariant_step (q : text) (n next : node) (st st' : AgentState cell)
    (log log' : list event) :
  invariant q n st -> n <> END ->
  run_node w n st log = (Ret (next, st'), log') ->
  invariant q next st'.
Proof.
  intros (Hq & [k Hk] & Hn) Hend Hrun. destruct n; try congruence.
  - (* generate_sql *)
    rewrite run_node_generate_sql in Hrun.
    destruct (llm_invoke w (llm_calls log) _); [|discriminate].
    injection Hrun as <- <- _. rewrite Hq, Hk.
    repeat split; simpl; eauto. discriminate.
  - (* check_sql *)
    destruct Hn as [[Hs Hp] Hsql].
    destruct (sql_query st) as [sql|] eqn:E; [|congruence].
    rewrite (run_node_check_sql st log E) in Hrun.
    destruct (unsafe_query sql).
    + injection Hrun as <- <- _. repeat split; simpl; eauto.
    + destruct (llm_invoke w (llm_calls log) _) as [r|]; [|discriminate].
      injection Hrun as <- <- _.
      destruct (apply_verdict r st) as (H1 & H2 & H3 & H4 & _ & H6 & H7).
      split; [congruence|]. split; [exists k; congruence|].
      split; [split; congruence|].
      destruct (sql_query (apply_update (verdict cell r) st)) as [sql'|] eqn:E'.
      * exists sql'. auto.
      * exfalso. apply H7; congruence.
  - (* execute_sql *)
    destruct Hn as [[Hs Hp] _].
    apply run_node_execute_inv in Hrun as (Hnext & u & -> & Hu).
    assert (Hinv : question (apply_update u st) = q /\
                   (exists k', retry_count (apply_update u st) = Some k') /\
                   tokenized q (apply_update u st)).
    { destruct Hu as [(safe & ch & ->) | (e & m & _ & ->)];
        repeat split; simpl; eauto. }
    destruct Hinv as (H1 & H2 & H3).
    destruct Hnext as [-> | ->]; repeat split; auto; apply H3.
  - (* generate_answer *)
    unfold run_node, bind in Hrun.
    destruct (generate_answer_node w st log) as [[u|e] log1] eqn:E; [|discriminate].
    apply generate_answer_node_frame in E as [a ->].
    injection Hrun as <- <- _. destruct Hn as [Hs Hp].
    repeat split; simpl; eauto.
Qed.

Lemma reachable_invariant (q : text) (n : node) (st : AgentState cell)
    (log : list event) :
  reachable w q n st log -> invariant q n st.
Proof.
  induction 1 as [|n st log next st' log' _ IH Hend Hrun].
  - repeat split; simpl; eauto.
  - eapply invariant_step; eauto.
Qed.

Lemma run_node_execute_ok (st : AgentState cell) (log : list event)
    (sql : text) (conn : DataFrame cell) :
  sql_query st = Some sql -> error st = None ->
  read_sql_query w (db_calls log) (rehydrate sql (get_pii_map st)) = inl conn ->
  run_node w ExecuteSQL st log =
  (Ret (GenerateAnswer,
        apply_update
          (executed (redact_result_data (df_to_str w conn) (get_pii_map st))
             (chart_of conn)) st),
   log ++ [DBCall (rehydrate sql (get_pii_map st))]).
Proof.
  intros Hq He Hr. unfold run_node, bind.
  rewrite (execute_sql_node_eq w st log Hq). simpl. rewrite Hr.
  now rewrite should_retry_executed.
Qed.

Lemma run_node_execute_fail (st : AgentState cell) (log : list event)
    (sql e : text) (n : Z) :
  sql_query st = Some sql -> retry_count st = Some n -> e <> [] ->
  read_sql_query w (db_calls log) (rehydrate sql (get_pii_map st)) = inr e ->
  run_node w ExecuteSQL st log =
  (Ret (if (n + 1 <? 3)%Z then GenerateSQL else GenerateAnswer,
        apply_update (failed cell e (n + 1)) st),
   log ++ [DBCall (rehydrate sql (get_pii_map st))]).
Proof.
  intros Hq Hn He Hr. unfold run_node, bind.
  rewrite (execute_sql_node_eq w st log Hq). simpl. rewrite Hr, Hn.
  now rewrite should_retry_failed.
Qed.

(** [retry_count] moves only when an execution fails, and then by one. *)
Lemma retry_count_step (n next : node) (st st' : AgentState cell)
    (log log' : list event) (k : Z) :
  run_node w n st log = (Ret (next, st'), log') ->
  retry_count st = Some k ->
  retry_count st' = Some k \/
  (n = ExecuteSQL /\ exists e, st' = apply_update (failed cell e (k + 1)) st).
Proof.
  intros Hrun Hk. destruct n.
  - rewrite run_node_generate_sql in Hrun.
    destruct (llm_invoke w (llm_calls log) _); [|discriminate].
    injection Hrun as <- <- _. left. simpl. now rewrite Hk.
  - unfold run_node, bind, check_sql_node, bind, subscript in Hrun.
    destruct (sql_query st) as [sql|]; [|discriminate].
    unfold ret at 1 in Hrun. destruct (unsafe_query sql).
    + injection Hrun as <- <- _. left. exact Hk.
    + unfold call_llm in Hrun.
      destruct (llm_invoke w (llm_calls log) _) as [r|]; [|discriminate].
      injection Hrun as <- <- _. left.
      destruct (apply_verdict r st) as (_ & _ & _ & H4 & _). congruence.
  - apply run_node_execute_inv in Hrun
      as (_ & u & -> & [(safe & ch & ->) | (e & m & Hm & ->)]).
    + left. exact Hk.
    + right. split; [reflexivity|]. exists e. congruence.
  - unfold run_node, bind in Hrun.
    destruct (generate_answer_node w st log) as [[u|e] log1] eqn:E; [|discriminate].
    apply generate_answer_node_frame in E as [a ->].
    injection Hrun as <- <- _. left. exact Hk.
  - injection Hrun as <- <- _. left. exact Hk.
Qed.

Lemma run_answer_error (limit : nat) (st : AgentState cell) (log : list event)
    (e : text) :
  error st = Some e -> e <> [] ->
  run w (S limit) GenerateAnswer st log =
  (Ret (apply_update (set_final_answer cell (str "Error: " ++ e)) st), log).
Proof.
  intros He Hne. rewrite run_S by discriminate. unfold run_node, bind.
  rewrite (generate_answer_node_error st log He Hne). unfold ret. apply run_END.
Qed.

Section Attempts.

Hypothesis Hllm : llm_returns w.
Variable q : text.

Lemma run_answer_model (limit : nat) (st : AgentState cell) (log : list event) :
  error st = None -> tokenized q st ->
  sql_query st <> None -> query_result st <> None ->
  exists content log',
    run w (S limit) GenerateAnswer st log =
    (Ret (apply_update
            (set_final_answer cell (scrub_placeholders content (pii_map_of q))) st),
     log') /\
    db_calls log' = db_calls log.
Proof.
  intros He [Hs Hp] Hq Hr.
  destruct (sql_query st) as [sql|] eqn:Eq; [|congruence].
  destruct (query_result st) as [res|] eqn:Er; [|congruence].
  assert (Hes : error_set st = false) by (unfold error_set; now rewrite He).
  destruct (Hllm (llm_calls log) [ (Human, answer_prompt (sanitized_of q) sql res) ])
    as [content Hc].
  exists content, (log ++ [LLMCall [ (Human, answer_prompt (sanitized_of q) sql res) ]]).
  split; [|apply db_calls_llm].
  rewrite run_S by discriminate. unfold run_node, bind.
  rewrite (generate_answer_node_model st log Hes Hs Eq Er). simpl. rewrite Hc.
  unfold ret, get_pii_map. rewrite Hp. apply run_END.
Qed.

(** A run from [generate_sql] reaches [execute_sql] in two nodes. *)
Lemma run_to_execute (limit : nat) (st : AgentState cell) (log : list event) (n : Z) :
  question st = q -> retry_count st = Some n ->
  exists st2 log2,
    run w (S (S limit)) GenerateSQL st log = run w limit ExecuteSQL st2 log2 /\
    checked q st2 /\ question st2 = q /\ retry_count st2 = Some n /\
    db_calls log2 = db_calls log.
Proof.
  intros Hq Hn.
  rewrite run_S by discriminate. rewrite run_node_generate_sql.
  destruct (Hllm (llm_calls log)
              (generate_sql_messages (get_table_info w) (sanitized_of (question st))))
    as [r Hr].
  simpl. rewrite Hr. rewrite Hq, Hn.
  set (st1 := apply_update _ st). set (log1 := log ++ _).
  assert (Hl1 : db_calls log1 = db_calls log) by apply db_calls_llm.
  rewrite (@run_node_check_sql st1 log1 (strip_fences r) eq_refl).
  destruct (unsafe_query (strip_fences r)).
  - exists (apply_update (blocked cell) st1), log1.
    split; [reflexivity|]. repeat split; simpl; auto.
    exists []. auto.
  - simpl.
    destruct (Hllm (llm_calls log1)
                [ (System, check_sql_prompt (get_table_info w) (strip_fences r)) ])
      as [r2 Hr2].
    rewrite Hr2.
    exists (apply_update (verdict cell r2) st1), (log1 ++ [LLMCall [ (System, check_sql_prompt (get_table_info w) (strip_fences r)) ]]).
    split; [reflexivity|].
    destruct (apply_verdict r2 st1) as (H1 & H2 & H3 & H4 & _ & H6 & H7).
    assert (Hsql : sql_query (apply_update (verdict cell r2) st1) <> None)
      by (apply H7; discriminate).
    destruct (sql_query (apply_update (verdict cell r2) st1)) as [sql'|] eqn:E';
      [|congruence].
    repeat split.
    + rewrite H2. reflexivity.
    + rewrite H3. reflexivity.
    + exists sql'. auto.
    + rewrite H1. exact Hq.
    + rewrite H4. reflexivity.
    + rewrite db_calls_llm. exact Hl1.
Qed.

Hypothesis Htext : errors_have_text w.
Hypothesis Hempty : rejects_empty w.

(** One pass through [generate_sql], [check_sql] and [execute_sql]. *)
Lemma one_attempt (limit : nat) (st : AgentState cell) (log : list event) (n : Z) :
  question st = q -> retry_count st = Some n ->
  exists st3 log3,
    db_calls log3 = S (db_calls log) /\
    ((run w (S (S (S limit))) GenerateSQL st log = run w limit GenerateAnswer st3 log3 /\
      error st3 = None /\ tokenized q st3 /\
      sql_query st3 <> None /\ query_result st3 <> None /\
      exists k sql conn, read_sql_query w k sql = inl conn)
     \/
     (exists e sql,
        e <> [] /\ read_sql_query w (db_calls log) sql = inr e /\
        run w (S (S (S limit))) GenerateSQL st log =
        run w limit (if (n + 1 <? 3)%Z then GenerateSQL else GenerateAnswer) st3 log3 /\
        error st3 = Some e /\ retry_count st3 = Some (n + 1)%Z /\ question st3 = q)).
Proof.
  intros Hq Hn.
  destruct (run_to_execute (S limit) st log Hq Hn)
    as (st2 & log2 & Hrun & ([Hs Hp] & sql & Hsql & Herr) & Hq2 & Hn2 & Hdb).
  rewrite Hrun. rewrite run_S by discriminate.
  assert (Hpii : get_pii_map st2 = pii_map_of q) by (unfold get_pii_map; now rewrite Hp).
  destruct (read_sql_query w (db_calls log2) (rehydrate sql (get_pii_map st2)))
    as [conn|e] eqn:Hread.
  - assert (He : error st2 = None).
    { destruct Herr as [He | [-> He]]; [exact He|].
      rewrite Hpii, rehydrate_nil_pii_map in Hread.
      destruct (Hempty (db_calls log2)) as [e He']. congruence. }
    rewrite (run_node_execute_ok st2 log2 Hsql He Hread).
    eexists _, _. split; [|left; split; [reflexivity|]].
    + rewrite db_calls_db. now rewrite Hdb.
    + repeat split; simpl; auto; try congruence; try discriminate; eauto.
  - assert (Hne : e <> []) by (eapply Htext; eauto).
    rewrite (run_node_execute_fail st2 log2 Hsql Hn2 Hne Hread).
    eexists _, _. split; [|right; exists e, (rehydrate sql (get_pii_map st2))].
    + rewrite db_calls_db. now rewrite Hdb.
    + rewrite <- Hdb. repeat split; auto.
Qed.

(** A run from [generate_sql] with [n] failures so far ends after at most
    [3 - n] executions. *)
Lemma run_attempts (b : nat) :
  forall (n : Z) (st : AgentState cell) (log : list event) (limit : nat),
    question st = q -> retry_count st = Some n ->
    (n <= 2)%Z -> b = Z.to_nat (2 - n) -> 3 * b + 4 <= limit ->
    exists st' log',
      run w limit GenerateSQL st log = (Ret st', log') /\
      (ended_in_error w log (b + 1) st' log' \/
       ended_with_answer w q log (b + 1) st' log').
Proof.
  induction b as [|b IH]; intros n st log limit Hq Hn Hle Hb Hlim.
  - destruct limit as [|[|[|[|limit]]]]; try lia.
    destruct (one_attempt (S limit) st log Hq Hn) as (st3 & log3 & Hdb & [Hok | Hfail]).
    + destruct Hok as (Hrun & He & Htok & Hsql & Hres & Hconn).
      destruct (run_answer_model limit log3 He Htok Hsql Hres) as (content & log' & Hans & Hdb').
      rewrite Hrun, Hans. eexists _, _. split; [reflexivity|]. right.
      repeat split; simpl; eauto. lia.
    + destruct Hfail as (e & sql & Hne & Hread & Hrun & He & Hrc & Hq3).
      replace (n + 1 <? 3)%Z with false in Hrun by (symmetry; apply Z.ltb_ge; lia).
      rewrite Hrun, (run_answer_error limit st3 log3 He Hne).
      eexists _, _. split; [reflexivity|]. left.
      exists e. repeat split; simpl; auto.
      * rewrite Hrc. f_equal. lia.
      * lia.
      * exists sql.
        match goal with
        | |- read_sql_query w ?k _ = _ => replace k with (db_calls log) by lia
        end.
        exact Hread.
  - destruct limit as [|[|[|limit]]]; try lia.
    destruct (one_attempt limit st log Hq Hn) as (st3 & log3 & Hdb & [Hok | Hfail]).
    + destruct Hok as (Hrun & He & Htok & Hsql & Hres & Hconn).
      destruct limit as [|limit]; [lia|].
      destruct (run_answer_model limit log3 He Htok Hsql Hres) as (content & log' & Hans & Hdb').
      rewrite Hrun, Hans. eexists _, _. split; [reflexivity|]. right.
      repeat split; simpl; eauto. lia.
    + destruct Hfail as (e & sql & Hne & Hread & Hrun & He & Hrc & Hq3).
      replace (n + 1 <? 3)%Z with true in Hrun by (symmetry; apply Z.ltb_lt; lia).
      destruct (IH (n + 1)%Z st3 log3 limit Hq3 Hrc) as (st' & log' & Hrun' & Hend);
        try lia.
      rewrite Hrun, Hrun'. exists st', log'. split; [reflexivity|].
      destruct Hend as [(e' & H1 & H2 & H3 & H4 & H5 & sql' & H6) | (H1 & H2 & H3 & H4)].
      * left. exists e'. repeat split; auto; try lia.
        exists sql'.
        match goal with
        | |- read_sql_query w ?k _ = _ =>
            replace k with (db_calls log3 + (b + 1) - 1) by lia
        end.
        exact H6.
      * right. repeat split; auto. lia.
Qed.

End Attempts.

End Runs.

(** ** The scenarios *)

Section Scenarios.

Lemma llm_fixed_returns (sql : text) (k : nat) (m : list message) :
  exists r, Scenario.llm_fixed sql k m = inl r.
Proof.
  unfold Scenario.llm_fixed.
  repeat match goal with
         | |- context [match ?x with _ => _ end] => destruct x
         end; eauto.
Qed.

Lemma world_no_table_llm : llm_returns Scenario.world_no_table.
Proof. intros k m. apply llm_fixed_returns. Qed.

Lemma world_no_table_fails : always_fails Scenario.world_no_table.
Proof. intros k sql. simpl. eauto. Qed.

Lemma world_no_table_text : errors_have_text Scenario.world_no_table.
Proof. intros k sql e. simpl. intros [= <-]. discriminate. Qed.

Lemma world_ok_llm : llm_returns Scenario.world_ok.
Proof. intros k m. apply llm_fixed_returns. Qed.

Lemma world_ok_text : errors_have_text Scenario.world_ok.
Proof.
  intros k sql e. simpl. destruct sql; [|discriminate]. intros [= <-]. discriminate.
Qed.

Lemma world_ok_empty : rejects_empty Scenario.world_ok.
Proof. intros k. simpl. eauto. Qed.

Lemma state_at_execute_reachable :
  reachable Scenario.world_ok Scenario.who_is ExecuteSQL
    Scenario.state_at_execute Scenario.log_at_execute.
Proof.
  eapply reach_step with (n := CheckSQL); [|discriminate|].
  - eapply reach_step with (n := GenerateSQL); [apply reach_start|discriminate|].
    vm_compute. reflexivity.
  - vm_compute. reflexivity.
Qed.

End Scenarios.

(* ================================================================= *)
(** * The pipeline *)

Section PipelineClaims.

Variable cell : Type.
Variable w : World cell.

(** C2 (as the code has it).  When every execution fails, with a message,
    and the model answers every call, a run executes exactly three
    statements (the first attempt and two retries) and then stops in answer
    composition: the state holds the error of the third execution, the
    final answer is that error after "Error: ", and [retry_count] is 3.
    A node changes [retry_count] only when an execution fails, by one. *)
Theorem C2_three_attempts (q : text) :
  llm_returns w -> always_fails w -> errors_have_text w ->
  (exists st' log' e,
     invoke w q = (Ret st', log') /\
     db_calls log' = 3 /\
     (exists sql, read_sql_query w 2 sql = inr e) /\
     error st' = Some e /\
     final_answer st' = Some (str "Error: " ++ e) /\
     retry_count st' = Some 3%Z) /\
  (forall n next st st1 log log1 k,
     run_node w n st log = (Ret (next, st1), log1) ->
     retry_count st = Some k ->
     retry_count st1 = Some k \/
     (n = ExecuteSQL /\ exists e, st1 = apply_update (failed cell e (k + 1)) st)).
Proof.
  intros Hllm Hfail Htext. split.
  - assert (Hempty : rejects_empty w) by (intros k; apply Hfail).
    destruct (@run_attempts cell w Hllm q Htext Hempty 2 0%Z (inputs cell q) []
                recursion_limit)
      as (st' & log' & Hrun & Hend); try reflexivity; try lia.
    { unfold recursion_limit. lia. }
    destruct Hend as [(e & H1 & H2 & H3 & H4 & H5 & H6) | (_ & (k & sql & conn & Hc) & _)].
    + exists st', log', e. repeat split; auto.
    + destruct (Hfail k sql) as [e He]. congruence.
  - intros n next st st1 log log1 k. apply retry_count_step.
Qed.

(** C7 (as the code has it).  When the model answers every call, the
    store's errors carry a message and the store rejects the empty
    statement, every run returns a state with a final answer: "Error: "
    and the error when the last execution failed, and otherwise the
    model's answer with the placeholders scrubbed. *)
Theorem C7_final_answer (q : text) :
  llm_returns w -> errors_have_text w -> rejects_empty w ->
  exists st' log' a,
    invoke w q = (Ret st', log') /\
    final_answer st' = Some a /\
    ((exists e, e <> [] /\ error st' = Some e /\ a = str "Error: " ++ e) \/
     (error st' = None /\
      exists content, a = scrub_placeholders content (pii_map_of q))).
Proof.
  intros Hllm Htext Hempty.
  destruct (@run_attempts cell w Hllm q Htext Hempty 2 0%Z (inputs cell q) []
              recursion_limit)
    as (st' & log' & Hrun & Hend); try reflexivity; try lia.
  { unfold recursion_limit. lia. }
  destruct Hend as [(e & H1 & H2 & H3 & _) | (H1 & _ & (content & H3) & _)].
  - exists st', log', (str "Error: " ++ e). repeat split; auto.
    left. exists e. auto.
  - exists st', log', (scrub_placeholders content (pii_map_of q)).
    repeat split; auto. right. eauto.
Qed.

(** A failure of the model in a node is not caught: the run ends with it. *)
Lemma llm_failure_propagates (q e : text) :
  llm_invoke w 0 (generate_sql_messages (get_table_info w) (sanitized_of q)) = inr e ->
  invoke w q =
  (Raise e, [LLMCall (generate_sql_messages (get_table_info w) (sanitized_of q))]).
Proof.
  intros H. unfold invoke, recursion_limit. rewrite run_S by discriminate.
  rewrite run_node_generate_sql. cbv zeta. change (question (inputs cell q)) with q.
  change (llm_calls []) with 0. now rewrite H.
Qed.

(** C8.  In every configuration of a run the question is the user's text;
    once [generate_sql] has run, the sanitized question and the
    placeholder map are those of [pii_filter_input] on that text, in every
    later configuration and in every retry; [execute_sql] and
    [generate_answer] return no question, sanitized question or
    placeholder map. *)
Theorem C8_frame (q : text) (n : node) (st : AgentState cell) (log : list event) :
  reachable w q n st log ->
  question st = q /\
  (st = inputs cell q \/
   (sanitized_question st = Some (sanitized_of q) /\
    pii_map st = Some (pii_map_of q))) /\
  (forall u log',
     execute_sql_node w st log = (Ret u, log') ->
     u_question u = None /\ u_sanitized_question u = None /\ u_pii_map u = None) /\
  (forall u log',
     generate_answer_node w st log = (Ret u, log') ->
     u_question u = None /\ u_sanitized_question u = None /\ u_pii_map u = None).
Proof.
  intros Hreach. apply reachable_invariant in Hreach as (Hq & _ & Hn).
  split; [exact Hq|]. split; [|split].
  - unfold checked, tokenized in Hn. destruct n; tauto.
  - intros u log' H.
    apply execute_sql_node_frame in H as [(safe & ch & ->) | (e & m & _ & ->)];
      repeat split.
  - intros u log' H. apply generate_answer_node_frame in H as [a ->]. repeat split.
Qed.

(** C9.  When the store rejects the empty statement: in every
    configuration of a run in which [execute_sql] is about to run and the
    store runs the statement, the error field is None; the run goes on to
    [generate_answer] with the error still None, and there the answer is
    the model's, not the "Error: ..." text. *)
Theorem C9_success_has_no_error (q : text) (st : AgentState cell)
    (log : list event) (sql : text) (conn : DataFrame cell) :
  rejects_empty w ->
  reachable w q ExecuteSQL st log ->
  sql_query st = Some sql ->
  read_sql_query w (db_calls log) (rehydrate sql (get_pii_map st)) = inl conn ->
  let safe := redact_result_data (df_to_str w conn) (get_pii_map st) in
  let st' := apply_update (executed safe (chart_of conn)) st in
  let log' := log ++ [DBCall (rehydrate sql (get_pii_map st))] in
  let msgs := [ (Human, answer_prompt (sanitized_of q) sql safe) ] in
  error st = None /\
  run_node w ExecuteSQL st log = (Ret (GenerateAnswer, st'), log') /\
  error st' = None /\
  generate_answer_node w st' log' =
  match llm_invoke w (llm_calls log') msgs with
  | inl content =>
      (Ret (set_final_answer cell (scrub_placeholders content (pii_map_of q))),
       log' ++ [LLMCall msgs])
  | inr e => (Raise e, log' ++ [LLMCall msgs])
  end.
Proof.
  intros Hempty Hreach Hsql Hread.
  apply reachable_invariant in Hreach as (Hq & _ & [Hs Hp] & sql' & Hsql' & Herr).
  assert (sql' = sql) by congruence. subst sql'.
  assert (Hpii : get_pii_map st = pii_map_of q) by (unfold get_pii_map; now rewrite Hp).
  assert (He : error st = None).
  { destruct Herr as [He | [-> He]]; [exact He|].
    rewrite Hpii, rehydrate_nil_pii_map in Hread.
    destruct (Hempty (db_calls log)) as [e He']. congruence. }
  cbv zeta.
  set (safe := redact_result_data (df_to_str w conn) (get_pii_map st)).
  set (st' := apply_update (executed safe (chart_of conn)) st).
  set (log' := log ++ [DBCall (rehydrate sql (get_pii_map st))]).
  split; [exact He|]. split; [|split; [exact He|]].
  - exact (run_node_execute_ok w st log Hsql He Hread).
  - assert (Hes : error_set st' = false) by (unfold error_set; simpl; now rewrite He).
    assert (Hp' : get_pii_map st' = pii_map_of q) by exact Hpii.
    rewrite (@generate_answer_node_model cell w st' log' (sanitized_of q) sql safe
               Hes Hs Hsql eq_refl).
    cbv zeta. rewrite Hp'. reflexivity.
Qed.

End PipelineClaims.

(** C2 at a store that lacks the table. *)
Lemma C2_three_attempts_witness :
  exists st' log' e,
    invoke Scenario.world_no_table Scenario.who_is = (Ret st', log') /\
    db_calls log' = 3 /\
    (exists sql, read_sql_query Scenario.world_no_table 2 sql = inr e) /\
    error st' = Some e /\
    final_answer st' = Some (str "Error: " ++ e) /\
    retry_count st' = Some 3%Z.
Proof.
  apply (proj1 (@C2_three_attempts Z Scenario.world_no_table Scenario.who_is
                  world_no_table_llm world_no_table_fails world_no_table_text)).
Defined.

(** C2 as stated fails: a store that fails every time is asked three
    times, not four. *)
Lemma C2_counterexample :
  always_fails Scenario.world_no_table /\
  db_calls (snd (invoke Scenario.world_no_table Scenario.who_is)) = 3 /\
  db_calls (snd (invoke Scenario.world_no_table Scenario.who_is)) <> 4.
Proof.
  split; [apply world_no_table_fails|].
  split; [vm_compute; reflexivity | vm_compute; discriminate].
Qed.

(** C7 at a store that runs the statement. *)
Lemma C7_final_answer_witness :
  exists st' log' a,
    invoke Scenario.world_ok Scenario.who_is = (Ret st', log') /\
    final_answer st' = Some a /\
    ((exists e, e <> [] /\ error st' = Some e /\ a = str "Error: " ++ e) \/
     (error st' = None /\
      exists content, a = scrub_placeholders content (pii_map_of Scenario.who_is))).
Proof.
  apply (@C7_final_answer Z Scenario.world_ok Scenario.who_is
           world_ok_llm world_ok_text world_ok_empty).
Defined.

(** C7 as stated fails: when the model cannot be reached the run ends
    with the exception, and there is no final state and no answer. *)
Lemma C7_counterexample :
  fst (invoke Scenario.world_llm_down Scenario.who_is) = Raise (str "Connection error.") /\
  ~ exists st log, invoke Scenario.world_llm_down Scenario.who_is = (Ret st, log).
Proof.
  split; [vm_compute; reflexivity|].
  intros (st & log & H). vm_compute in H. discriminate H.
Qed.

(** C8 at the configuration in which [execute_sql] first runs. *)
Lemma C8_frame_witness :
  question Scenario.state_at_execute = Scenario.who_is /\
  (Scenario.state_at_execute = inputs Z Scenario.who_is \/
   (sanitized_question Scenario.state_at_execute = Some (sanitized_of Scenario.who_is) /\
    pii_map Scenario.state_at_execute = Some (pii_map_of Scenario.who_is))) /\
  (forall u log',
     execute_sql_node Scenario.world_ok Scenario.state_at_execute
       Scenario.log_at_execute = (Ret u, log') ->
     u_question u = None /\ u_sanitized_question u = None /\ u_pii_map u = None) /\
  (forall u log',
     generate_answer_node Scenario.world_ok Scenario.state_at_execute
       Scenario.log_at_execute = (Ret u, log') ->
     u_question u = None /\ u_sanitized_question u = None /\ u_pii_map u = None).
Proof.
  apply (@C8_frame Z Scenario.world_ok Scenario.who_is ExecuteSQL
           Scenario.state_at_execute Scenario.log_at_execute
           state_at_execute_reachable).
Defined.

(** C9 at the configuration in which [execute_sql] first runs. *)
Lemma C9_success_has_no_error_witness :
  error Scenario.state_at_execute = None /\
  exists st' log',
    run_node Scenario.world_ok ExecuteSQL Scenario.state_at_execute
      Scenario.log_at_execute = (Ret (GenerateAnswer, st'), log') /\
    error st' = None.
Proof.
  destruct (@C9_success_has_no_error Z Scenario.world_ok Scenario.who_is
              Scenario.state_at_execute Scenario.log_at_execute
              Scenario.select_by_email Scenario.three_columns
              world_ok_empty state_at_execute_reachable eq_refl eq_refl)
    as (H1 & H2 & H3 & _).
  split; [exact H1|]. eexists _, _. split; [exact H2 | exact H3].
Defined.

(** C1 fails on the code: the answer built from the error of the last
    execution holds the address the placeholder map keeps secret. *)
Theorem C1_error_answer_leaks :
  exists st log a d,
    invoke Scenario.world_no_table Scenario.who_is = (Ret st, log) /\
    final_answer st = Some a /\
    pii_map st = Some d /\
    In (str "a@b.co") (dict_values d) /\
    contains (str "a@b.co") a = true.
Proof.
  eexists _, _, _, _. split; [vm_compute; reflexivity|].
  split; [reflexivity|]. split; [reflexivity|].
  split; [left; reflexivity | vm_compute; reflexivity].
Qed.

(* ================================================================= *)
(** * The validator and the executor *)

Section ValidatorClaims.

Variable cell : Type.
Variable w : World cell.

(** C10. The keyword test is a plain substring test on the uppercased
    text: a query that holds the letters of DROP or DELETE anywhere, in any
    case and in any position (an identifier, a column name, a string
    literal), is answered with the empty query and the error
    "Unsafe query detected.", and the model is not called. *)
Theorem C10_substring_block (st : AgentState cell) (log : list event)
    (before word after : text) :
  sql_query st = Some (before ++ word ++ after) ->
  upper word = str "DROP" \/ upper word = str "DELETE" ->
  check_sql_node w st log = (Ret (blocked cell), log) /\
  u_sql_query (blocked cell) = Some [] /\
  u_error (blocked cell) = Some (Some (str "Unsafe query detected.")).
Proof.
  intros Hq Hw. split; [|split; reflexivity].
  apply check_sql_node_unsafe with (sql := before ++ word ++ after); auto.
  unfold unsafe_query. rewrite !upper_app.
  destruct Hw as [-> | ->]; rewrite contains_app; auto using orb_true_r.
Qed.

End ValidatorClaims.

(** C10 at [SELECT * FROM deleted_orders]. *)
Lemma C10_substring_block_witness :
  check_sql_node Scenario.world_ok
    (Scenario.state_with_query (str "List the deleted orders.")
       (str "SELECT * FROM deleted_orders")) [] =
    (Ret (blocked Z), []) /\
  u_sql_query (blocked Z) = Some [] /\
  u_error (blocked Z) = Some (Some (str "Unsafe query detected.")).
Proof.
  apply (@C10_substring_block Z Scenario.world_ok
           (Scenario.state_with_query (str "List the deleted orders.")
              (str "SELECT * FROM deleted_orders")) []
           (str "SELECT * FROM ") (str "delete") (str "d_orders")).
  - reflexivity.
  - right; reflexivity.
Defined.

Section NodeClaims.

Variable cell : Type.
Variable w : World cell.

(** C3 (as the code has it).  When the uppercased query holds DROP or
    DELETE, [check_sql] returns at once: no call is logged, the query
    becomes empty and the error is "Unsafe query detected.".  A query that
    [check_sql] leaves as it is holds neither word. *)
Theorem C3_block_before_model (st : AgentState cell) (log : list event) (sql : text) :
  sql_query st = Some sql ->
  (contains (str "DROP") (upper sql) = true \/
   contains (str "DELETE") (upper sql) = true ->
   check_sql_node w st log = (Ret (blocked cell), log) /\
   sql_query (apply_update (blocked cell) st) = Some [] /\
   error (apply_update (blocked cell) st) = Some unsafe_message) /\
  (forall u log',
     check_sql_node w st log = (Ret u, log') ->
     u_sql_query u = None ->
     sql_query (apply_update u st) = Some sql /\
     contains (str "DROP") (upper sql) = false /\
     contains (str "DELETE") (upper sql) = false).
Proof.
  intros Hq. split.
  - intros H. split; [|split; reflexivity].
    apply check_sql_node_unsafe with (sql := sql); auto.
    unfold unsafe_query. apply orb_true_iff. exact H.
  - intros u log' Hrun Hu. rewrite (check_sql_node_eq w st log Hq) in Hrun.
    destruct (unsafe_query sql) eqn:E.
    + injection Hrun as <- _. discriminate Hu.
    + split.
      * simpl. rewrite Hu. exact Hq.
      * apply orb_false_iff. exact E.
Qed.

(** C6 (as the code has it).  After a successful execution the chart is
    there exactly when the result has a row and two columns; it is empty
    when there is no row or at most one column; its labels and values are
    the values of columns 0 and 1 in row order, and its column names are
    all the column names of the result, those of columns 0 and 1 first. *)
Theorem C6_chart_projection (st : AgentState cell) (log : list event)
    (sql : text) (conn : DataFrame cell) :
  sql_query st = Some sql ->
  read_sql_query w (db_calls log) (rehydrate sql (get_pii_map st)) = inl conn ->
  exists safe ch,
    execute_sql_node w st log =
      (Ret (executed safe ch), log ++ [DBCall (rehydrate sql (get_pii_map st))]) /\
    ((exists l v c, ch = Chart l v c) <->
     1 <= df_len conn /\ 2 <= length (df_columns conn)) /\
    (df_len conn = 0 \/ length (df_columns conn) <= 1 -> ch = NoChart cell) /\
    (forall l v c,
       ch = Chart l v c ->
       exists c0 c1 more,
         df_series conn = (c0, l) :: (c1, v) :: more /\
         c = c0 :: c1 :: map fst more).
Proof.
  intros Hq Hread. rewrite (execute_sql_node_eq w st log Hq). cbv zeta. rewrite Hread.
  eexists _, _. split; [reflexivity|].
  unfold chart_of, df_empty, df_len, df_columns, iloc_col.
  destruct (df_series conn) as [|[c0 l] [|[c1 v] more]]; cbn [map length fst snd nth].
  - cbn. split; [split|split].
    + intros (l & v & c & Hc). discriminate Hc.
    + lia.
    + reflexivity.
    + intros l v c Hc. discriminate Hc.
  - rewrite andb_false_r. split; [split|split].
    + intros (l' & v & c & Hc). discriminate Hc.
    + lia.
    + reflexivity.
    + intros l' v c Hc. discriminate Hc.
  - destruct (length l =? 0) eqn:E; cbn.
    + apply Nat.eqb_eq in E. split; [split|split].
      * intros (l' & v' & c & Hc). discriminate Hc.
      * lia.
      * reflexivity.
      * intros l' v' c Hc. discriminate Hc.
    + apply Nat.eqb_neq in E. split; [split|split].
      * intros _. lia.
      * intros _. eauto.
      * lia.
      * intros l' v' c [= <- <- <-]. eauto.
Qed.

End NodeClaims.

(** C3 at a query that asks for a table to be dropped. *)
Lemma C3_block_before_model_witness :
  check_sql_node Scenario.world_ok
    (Scenario.state_with_query Scenario.who_is (str "drop table customers")) [] =
    (Ret (blocked Z), []) /\
  sql_query (apply_update (blocked Z)
               (Scenario.state_with_query Scenario.who_is (str "drop table customers")))
    = Some [] /\
  error (apply_update (blocked Z)
           (Scenario.state_with_query Scenario.who_is (str "drop table customers")))
    = Some unsafe_message.
Proof.
  apply (proj1 (@C3_block_before_model Z Scenario.world_ok
                  (Scenario.state_with_query Scenario.who_is (str "drop table customers"))
                  [] (str "drop table customers") eq_refl)).
  left; reflexivity.
Defined.

(** C3 as stated fails: the statement that reaches the store can hold
    DROP.  Here it comes in with the address that replaces the
    placeholder, after the test. *)
Lemma C3_counterexample :
  exists sql,
    In (DBCall sql)
       (snd (invoke Scenario.world_ok (str "Is drop@x.com a customer?"))) /\
    contains (str "DROP") (upper sql) = true.
Proof.
  exists (str "SELECT * FROM customers WHERE email = 'drop@x.com'").
  split; [vm_compute; auto 10 | vm_compute; reflexivity].
Qed.

(** The statement the model gives back when asked to verify is not
    tested again. *)
Lemma validator_repair_unchecked :
  In (DBCall (str "DROP TABLE customers"))
     (snd (invoke Scenario.world_repairing (str "List the customers."))).
Proof. vm_compute. auto 10. Qed.

(** C6 at a result of two rows and three columns. *)
Lemma C6_chart_projection_witness :
  exists safe ch,
    execute_sql_node Scenario.world_three_columns
      (Scenario.state_with_query Scenario.who_is (str "SELECT 1")) [] =
      (Ret (executed safe ch), [DBCall (str "SELECT 1")]) /\
    ch = Chart [1; 2]%Z [10; 20]%Z [str "region"; str "total"; str "orders"].
Proof.
  destruct (@C6_chart_projection Z Scenario.world_three_columns
              (Scenario.state_with_query Scenario.who_is (str "SELECT 1")) []
              (str "SELECT 1") Scenario.three_columns eq_refl eq_refl)
    as (safe & ch & Hrun & _ & _ & _).
  exists safe, ch. split; [exact Hrun|].
  vm_compute in Hrun. injection Hrun as _ Hch. symmetry. exact Hch.
Defined.

(** C6 as stated fails: with three columns the chart names all three, not
    the pair of the first two. *)
Lemma C6_counterexample :
  exists safe l v c,
    execute_sql_node Scenario.world_three_columns
      (Scenario.state_with_query Scenario.who_is (str "SELECT 1")) [] =
      (Ret (executed safe (Chart l v c)), [DBCall (str "SELECT 1")]) /\
    c <> [str "region"; str "total"].
Proof.
  eexists _, _, _, _. split; [vm_compute; reflexivity|]. discriminate.
Qed.

(* ================================================================= *)
(** * The tokenizer *)

(** ** [replace] next to a placeholder *)

Section Skips.

Lemma placeholder_no_at (i : nat) : ~ In at_sign (placeholder_of i).
Proof.
  rewrite placeholder_of_eq.
  intros [H | [H | H]]; try discriminate H.
  cbv [str list_ascii_of_string app] in H.
  repeat (destruct H as [H | H]; [discriminate H|]).
  apply in_app_or in H as [H | H].
  - now apply (digits_no_at (dec_digits (i + 1))).
  - repeat (destruct H as [H | H]; [discriminate H|]). exact H.
Qed.

Variable e : text.
Hypothesis e_at : In at_sign e.
Hypothesis e_plain : plain e.

Lemma email_nonempty : e <> [].
Proof. intros ->. exact e_at. Qed.

(** An e-mail does not start inside a text without at sign that an
    underscore ends. *)
Lemma no_hit (v x : text) :
  ~ In at_sign v -> starts_with e (v ++ underscore :: x) = false.
Proof.
  intros Hv. destruct (starts_with e (v ++ underscore :: x)) eqn:E; [|reflexivity].
  exfalso. apply starts_with_iff in E as [r Hr].
  apply app_eq_app in Hr as [l [[-> Hl] | [He Hl]]].
  - apply Hv. apply in_or_app. now left.
  - destruct l as [|c l].
    + rewrite app_nil_r in He. subst v. exact (Hv e_at).
    + injection Hl as <- _. apply e_plain. rewrite He.
      apply in_or_app. right. now left.
Qed.

Lemma replace_skip (new v x : text) :
  ~ In at_sign v ->
  replace (v ++ underscore :: x) e new = v ++ underscore :: replace x e new.
Proof.
  induction v as [|c v IH]; intros Hv.
  - simpl. apply replace_miss; [apply email_nonempty|].
    apply (no_hit [] x). tauto.
  - change ((c :: v) ++ underscore :: x) with (c :: (v ++ underscore :: x)).
    rewrite replace_miss; [|apply email_nonempty|apply (no_hit (c :: v) x Hv)].
    rewrite IH; [reflexivity|]. intros H. apply Hv. now right.
Qed.

Lemma replace_skip_placeholder (new x : text) (i : nat) :
  replace (placeholder_of i ++ x) e new = placeholder_of i ++ replace x e new.
Proof.
  assert (H : exists v, placeholder_of i = v ++ [underscore]).
  { rewrite placeholder_of_eq.
    exists (underscore :: underscore :: str "EMAIL" ++ underscore :: dec (i + 1) ++ [underscore]).
    cbv [str list_ascii_of_string]. simpl. rewrite <- app_assoc. reflexivity. }
  destruct H as [v Hv]. pose proof (@placeholder_no_at i) as Hat.
  rewrite Hv in *. rewrite <- !app_assoc. simpl.
  apply replace_skip. intros H. apply Hat. apply in_or_app. now left.
Qed.

End Skips.

(** ** From the question to the sanitized text *)

Section Forward.

Variable es : list text.

Lemma render_lits (lo : nat) (u : text) (ps : list piece) :
  render lo es (map Lit u ++ ps) = u ++ render lo es ps.
Proof. induction u as [|c u IH]; simpl; [reflexivity | now rewrite IH]. Qed.

Lemma render_tok_placeholder (i : nat) (ps : list piece) :
  render 0 es (Tok i :: ps) = placeholder_of i ++ render 0 es ps.
Proof. reflexivity. Qed.

Lemma well_formed_lits (bound : nat) (u : text) :
  plain u -> well_formed bound (map Lit u).
Proof.
  unfold plain, well_formed. induction u as [|c u IH]; simpl; intros H; constructor.
  - intros ->. apply H. now left.
  - apply IH. tauto.
Qed.

(** An occurrence of a plain text at the head of a rendering covers
    characters of the question only. *)
Lemma prefix_lits (bound : nat) (u : text) :
  plain u ->
  forall ps, well_formed bound ps ->
    starts_with u (render 0 es ps) = true ->
    exists ps2, ps = map Lit u ++ ps2.
Proof.
  unfold plain. induction u as [|a u IH]; intros Hu ps Hwf H.
  - now exists ps.
  - destruct ps as [|[c|i] ps].
    + discriminate H.
    + simpl in H. apply andb_true_iff in H as [Ha H].
      apply Ascii.eqb_eq in Ha; subst c.
      inversion Hwf; subst.
      destruct (IH (fun Hin => Hu (or_intror Hin)) ps) as [ps2 ->]; auto.
      now exists ps2.
    + rewrite render_tok_placeholder, placeholder_of_eq in H. simpl in H.
      apply andb_true_iff in H as [Ha _]. apply Ascii.eqb_eq in Ha.
      exfalso. apply Hu. left. exact Ha.
Qed.

Lemma forward_step (k : nat) (e : text) :
  nth k es [] = e -> plain e -> In at_sign e ->
  forall m ps,
    length ps <= m -> well_formed k ps ->
    exists ps',
      well_formed (S k) ps' /\
      render 0 es ps' = replace (render 0 es ps) e (placeholder_of k) /\
      forall lo, k < lo -> render lo es ps' = render lo es ps.
Proof.
  intros Hk Hplain Hat.
  assert (Hne : e <> []) by (intros ->; exact Hat).
  induction m as [|m IH]; intros ps Hlen Hwf.
  - destruct ps; [|simpl in Hlen; lia].
    exists []. repeat split; [constructor | now rewrite replace_nil].
  - destruct ps as [|[c|i] ps].
    + exists []. repeat split; [constructor | now rewrite replace_nil].
    + destruct (starts_with e (render 0 es (Lit c :: ps))) eqn:E.
      * destruct (prefix_lits Hplain Hwf E) as [ps2 Hps]. rewrite Hps.
        assert (Hwf2 : well_formed k ps2).
        { rewrite Hps in Hwf. apply Forall_app in Hwf. tauto. }
        assert (Hlen2 : length ps2 <= m).
        { apply (f_equal (@length piece)) in Hps.
          rewrite length_app, length_map in Hps. simpl in Hps, Hlen.
          destruct e; [congruence | simpl in Hps; lia]. }
        destruct (IH ps2 Hlen2 Hwf2) as (ps' & Hwf' & H0 & Hlo).
        exists (Tok k :: ps'). repeat split.
        -- constructor; [lia | exact Hwf'].
        -- rewrite render_tok_placeholder, render_lits, replace_hit by exact Hne.
           now rewrite H0.
        -- intros lo Hlt. rewrite render_lits. simpl.
           apply Nat.ltb_lt in Hlt. rewrite Hlt, Hk. f_equal.
           apply Hlo. now apply Nat.ltb_lt.
      * inversion Hwf; subst.
        destruct (IH ps) as (ps' & Hwf' & H0 & Hlo); auto.
        { simpl in Hlen; lia. }
        exists (Lit c :: ps'). repeat split.
        -- constructor; auto.
        -- simpl. simpl in E. rewrite replace_miss by auto. now rewrite H0.
        -- intros lo Hlt. simpl. f_equal. now apply Hlo.
    + inversion Hwf; subst.
      destruct (IH ps) as (ps' & Hwf' & H0 & Hlo); auto.
      { simpl in Hlen; lia. }
      exists (Tok i :: ps'). repeat split.
      * constructor; [lia | exact Hwf'].
      * rewrite !render_tok_placeholder.
        rewrite (replace_skip_placeholder Hat Hplain). now rewrite H0.
      * intros lo Hlt. simpl. f_equal. now apply Hlo.
Qed.

End Forward.

Lemma forward_all (es : list text) :
  Forall (fun e => plain e /\ In at_sign e) es ->
  forall rest done ps,
    es = done ++ rest -> well_formed (length done) ps ->
    exists ps',
      well_formed (length es) ps' /\
      render 0 es ps' =
        fold_left (fun s kv => replace s (snd kv) (fst kv))
          (entries (length done) rest) (render 0 es ps) /\
      forall lo, length es <= lo -> render lo es ps' = render lo es ps.
Proof.
  intros Hes. induction rest as [|e rest IH]; intros done ps Hsplit Hwf.
  - exists ps. rewrite Hsplit, app_nil_r. repeat split; auto.
  - assert (Hk : nth (length done) es [] = e).
    { rewrite Hsplit, app_nth2, Nat.sub_diag by lia. reflexivity. }
    assert (He : plain e /\ In at_sign e).
    { rewrite Forall_forall in Hes. apply Hes. rewrite Hsplit.
      apply in_or_app. right. now left. }
    destruct (@forward_step es (length done) e Hk (proj1 He) (proj2 He)
                (length ps) ps (le_n _) Hwf) as (ps1 & Hwf1 & H0 & Hlo).
    destruct (IH (done ++ [e]) ps1) as (ps' & Hwf' & H0' & Hlo').
    + rewrite <- app_assoc. exact Hsplit.
    + rewrite length_app. simpl. rewrite Nat.add_1_r. exact Hwf1.
    + exists ps'. repeat split; auto.
      * rewrite H0'. rewrite length_app. cbn [length]. rewrite Nat.add_1_r.
        rewrite entries_cons. cbn [fold_left fst snd]. now rewrite H0.
      * intros lo Hle. rewrite Hlo' by exact Hle. apply Hlo.
        rewrite Hsplit, length_app in Hle. simpl in Hle. lia.
Qed.

(** ** From the sanitized text back to the question *)

Section Backward.

Variable es : list text.
Hypothesis es_plain : Forall plain es.

Lemma nth_plain (i : nat) : plain (nth i es []).
Proof.
  destruct (Nat.lt_ge_cases i (length es)) as [H | H].
  - rewrite Forall_forall in es_plain. apply es_plain. now apply nth_In.
  - rewrite nth_overflow by exact H. intros [].
Qed.

Lemma placeholder_head (j : nat) (c : ascii) (x : text) :
  c <> underscore -> starts_with (placeholder_of j) (c :: x) = false.
Proof.
  intros Hc. rewrite placeholder_of_eq. cbn [starts_with].
  destruct (Ascii.eqb_spec underscore c); [congruence | reflexivity].
Qed.

Lemma replace_skip_plain (j : nat) (new v x : text) :
  plain v ->
  replace (v ++ x) (placeholder_of j) new = v ++ replace x (placeholder_of j) new.
Proof.
  unfold plain. induction v as [|c v IH]; intros Hv; [reflexivity|].
  change ((c :: v) ++ x) with (c :: (v ++ x)). rewrite replace_miss.
  - rewrite IH; [reflexivity | simpl in Hv; tauto].
  - apply placeholder_nonempty.
  - apply placeholder_head. intros ->. apply Hv. now left.
Qed.

(** In a rendering, the first underscore is followed by another. *)
Lemma first_underscore (lo bound : nat) (ps : list piece) :
  well_formed bound ps ->
  forall u y,
    plain u -> render lo es ps = u ++ underscore :: y ->
    exists y', y = underscore :: y'.
Proof.
  unfold plain. induction 1 as [|[c|i] ps Hp Hwf IH]; intros u y Hu H.
  - destruct u; discriminate H.
  - simpl in H. destruct u as [|a u]; simpl in H.
    + injection H as -> _. congruence.
    + injection H as -> H.
      apply (IH u y); [intros Hin; apply Hu; now right | exact H].
  - simpl in H. destruct (i <? lo).
    + apply app_eq_app in H as [l [[Hn Hl] | [Hn Hl]]].
      * destruct l as [|a l].
        -- simpl in Hl. apply (IH [] y); [intros [] | symmetry; exact Hl].
        -- injection Hl as <- _. exfalso. apply (@nth_plain i). rewrite Hn.
           apply in_or_app. right. now left.
      * apply (IH l y); [|exact Hl].
        intros Hin. apply Hu. rewrite Hn. apply in_or_app. now right.
    + rewrite placeholder_of_eq in H. destruct u as [|a u]; simpl in H.
      * injection H as <-. eauto.
      * injection H as <- _. exfalso. apply Hu. now left.
Qed.

Lemma placeholder_prefix_inj (i j : nat) (x : text) :
  starts_with (placeholder_of j) (placeholder_of i ++ x) = true -> i = j.
Proof.
  intros H. apply starts_with_iff in H as [r Hr].
  rewrite !placeholder_of_eq in Hr.
  cbv [str list_ascii_of_string] in Hr. simpl in Hr.
  injection Hr as Hr. rewrite <- !app_assoc in Hr. simpl in Hr.
  apply delimited_inj in Hr; auto using digits_no_underscore, dec_digits.
  apply dec_inj in Hr. lia.
Qed.

(** After a placeholder and before a rendering, no placeholder starts in
    the two closing underscores. *)
Lemma not_in_closing (lo bound j : nat) (ps : list piece) :
  well_formed bound ps ->
  starts_with (placeholder_of j) (underscore :: underscore :: render lo es ps) = false /\
  starts_with (placeholder_of j) (underscore :: render lo es ps) = false.
Proof.
  intros Hwf. destruct (dec_nonempty (j + 1)) as (d & ds & Hd & Hdig).
  split.
  - destruct (starts_with _ _) eqn:E; [exfalso | reflexivity].
    apply starts_with_iff in E as [r Hr]. rewrite placeholder_of_eq in Hr.
    injection Hr as Hr.
    destruct (@first_underscore lo bound ps Hwf (str "EMAIL")
                ((dec (j + 1) ++ [underscore; underscore]) ++ r)) as [y' Hy].
    + cbv [str list_ascii_of_string plain In]. intuition discriminate.
    + rewrite Hr. rewrite <- !app_assoc. reflexivity.
    + rewrite Hd in Hy. injection Hy as Hy _.
      now apply (digit_not_underscore Hdig).
  - destruct (starts_with _ _) eqn:E; [exfalso | reflexivity].
    apply starts_with_iff in E as [r Hr]. rewrite placeholder_of_eq in Hr.
    injection Hr as Hr.
    destruct (@first_underscore lo bound ps Hwf []
                ((str "EMAIL" ++ underscore :: dec (j + 1) ++ [underscore; underscore]) ++ r))
      as [y' Hy].
    + intros [].
    + exact Hr.
    + discriminate Hy.
Qed.

Lemma replace_skip_other (lo bound i j : nat) (new : text) (ps : list piece) :
  i <> j -> well_formed bound ps ->
  replace (placeholder_of i ++ render lo es ps) (placeholder_of j) new =
  placeholder_of i ++ replace (render lo es ps) (placeholder_of j) new.
Proof.
  intros Hij Hwf.
  assert (H0 : starts_with (placeholder_of j) (placeholder_of i ++ render lo es ps) = false).
  { destruct (starts_with _ _) eqn:E; [|reflexivity].
    apply placeholder_prefix_inj in E. congruence. }
  destruct (not_in_closing lo j Hwf) as [H9 H10].
  destruct (dec_nonempty (i + 1)) as (d & ds & Hd & Hdig).
  pose proof (@placeholder_nonempty j) as Hne.
  pose proof (digits_no_underscore (dec_digits (i + 1))) as Hplain.
  revert H0. rewrite (placeholder_of_eq i).
  cbv [str list_ascii_of_string]. cbn [app]. rewrite <- !app_assoc. cbn [app].
  intros H0.
  rewrite (@replace_miss _ new _ _ Hne H0).
  rewrite replace_miss; [|exact Hne|rewrite placeholder_of_eq; reflexivity].
  do 5 (rewrite replace_miss; [|exact Hne|apply placeholder_head; discriminate]).
  rewrite replace_miss; [|exact Hne|].
  - rewrite (replace_skip_plain j new _ Hplain).
    rewrite (@replace_miss _ new _ _ Hne H9), (@replace_miss _ new _ _ Hne H10).
    reflexivity.
  - rewrite Hd, placeholder_of_eq. cbn [app starts_with].
    destruct (Ascii.eqb_spec underscore d) as [<-|]; [discriminate Hdig|].
    now rewrite andb_false_r.
Qed.

Lemma backward_step (j : nat) (ps : list piece) :
  well_formed (length es) ps ->
  replace (render j es ps) (placeholder_of j) (nth j es []) = render (S j) es ps.
Proof.
  pose proof (@placeholder_nonempty j) as Hne.
  induction 1 as [|[c|i] ps Hp Hwf IH].
  - now apply replace_nil.
  - cbn [render]. rewrite replace_miss; [now rewrite IH | exact Hne |].
    now apply placeholder_head.
  - cbn [render].
    destruct (Nat.lt_trichotomy i j) as [Hlt | [-> | Hgt]].
    + replace (i <? j) with true by (symmetry; apply Nat.ltb_lt; lia).
      replace (i <? S j) with true by (symmetry; apply Nat.ltb_lt; lia).
      rewrite replace_skip_plain by apply nth_plain. now rewrite IH.
    + rewrite Nat.ltb_irrefl.
      replace (j <? S j) with true by (symmetry; apply Nat.ltb_lt; lia).
      rewrite replace_hit by exact Hne. now rewrite IH.
    + replace (i <? j) with false by (symmetry; apply Nat.ltb_ge; lia).
      replace (i <? S j) with false by (symmetry; apply Nat.ltb_ge; lia).
      rewrite (@replace_skip_other j (length es) i j) by (auto; lia).
      now rewrite IH.
Qed.

Lemma backward_all (ps : list piece) :
  well_formed (length es) ps ->
  forall m j,
    j + m = length es ->
    fold_left (fun s kv => replace s (fst kv) (snd kv))
      (entries j (skipn j es)) (render j es ps) =
    render (length es) es ps.
Proof.
  intros Hwf. induction m as [|m IH]; intros j Hj.
  - rewrite skipn_all2 by lia. simpl. f_equal. lia.
  - assert (Hs : skipn j es = nth j es [] :: skipn (S j) es).
    { clear -Hj. revert j Hj. induction es as [|e l IHl]; intros j Hj.
      - simpl in Hj. lia.
      - destruct j; [reflexivity|]. simpl. apply IHl. simpl in Hj. lia. }
    rewrite Hs, entries_cons. cbn [fold_left fst snd].
    rewrite backward_step by exact Hwf. apply IH. lia.
Qed.

End Backward.

(** ** The map and the round trip *)

Section TokenizerClaims.

Lemma entries_length (i : nat) (emails : list text) :
  length (entries i emails) = length emails.
Proof.
  unfold entries. rewrite length_combine, length_map, length_seq.
  apply Nat.min_id.
Qed.

Lemma entries_nth_error (emails : list text) :
  forall i k e,
    nth_error emails k = Some e ->
    nth_error (entries i emails) k = Some (placeholder_of (i + k), e).
Proof.
  induction emails as [|a rest IH]; intros i k e H.
  - destruct k; discriminate H.
  - rewrite entries_cons. destruct k as [|k]; simpl in *.
    + injection H as ->. now rewrite Nat.add_0_r.
    + rewrite (IH (S i) k e H).
      replace (S i + k) with (i + S k) by lia. reflexivity.
Qed.

Lemma entries_get (emails : list text) :
  forall i k e,
    nth_error emails k = Some e ->
    dict_get (entries i emails) (placeholder_of (i + k)) = Some e.
Proof.
  induction emails as [|a rest IH]; intros i k e H.
  - destruct k; discriminate H.
  - rewrite entries_cons. cbn [dict_get]. destruct k as [|k]; simpl in H.
    + injection H as ->. now rewrite Nat.add_0_r, text_eqb_refl.
    + destruct (text_eqb (placeholder_of i) (placeholder_of (i + S k))) eqn:E.
      * apply text_eqb_eq, placeholder_inj in E. lia.
      * replace (i + S k) with (S i + k) by lia. now apply IH.
Qed.

Lemma entries_keys_NoDup (emails : list text) :
  forall i, NoDup (dict_keys (entries i emails)).
Proof.
  induction emails as [|a rest IH]; intros i.
  - constructor.
  - rewrite entries_cons. simpl. constructor; [|apply IH].
    intros Hin. apply entries_keys in Hin as (j & Hj & E).
    apply placeholder_inj in E. lia.
Qed.

Lemma nodup_length_le (l : list text) : length (nodup text_dec l) <= length l.
Proof.
  induction l as [|a l IH]; simpl; [lia|].
  destruct (in_dec text_dec a l); simpl; lia.
Qed.

(** C4 (as the code has it).  Let m_1 .. m_n be the matches of the
    pattern in the text, left to right, a value counted each time it is
    found.  The map has exactly n entries, in that order, with pairwise
    different keys: entry i is __EMAIL_i__ with value m_i.  (So there are
    at least as many entries as different values, and as many when no
    value repeats.)  The sanitized text is the text after replacing, for
    i = 1 .. n in turn, every occurrence of m_i by __EMAIL_i__.  Without a
    match the text comes back as it is, with an empty map. *)
Theorem C4_tokenize (txt : text) :
  let emails := findall email_pattern txt in
  let sanitized := fst (pii_filter_input txt) in
  let pii_map := snd (pii_filter_input txt) in
  length pii_map = length emails /\
  NoDup (dict_keys pii_map) /\
  (forall i e,
     nth_error emails i = Some e ->
     nth_error pii_map i = Some (str "__EMAIL_" ++ dec (i + 1) ++ str "__", e) /\
     dict_get pii_map (str "__EMAIL_" ++ dec (i + 1) ++ str "__") = Some e) /\
  sanitized = fold_left (fun s kv => replace s (snd kv) (fst kv)) pii_map txt /\
  (emails = [] -> sanitized = txt /\ pii_map = []) /\
  length (nodup text_dec emails) <= length pii_map /\
  (NoDup emails -> length pii_map = length (nodup text_dec emails)).
Proof.
  cbv zeta.
  change (snd (pii_filter_input txt)) with (pii_map_of txt).
  change (fst (pii_filter_input txt)) with (sanitized_of txt).
  rewrite pii_map_of_eq, sanitized_of_eq.
  set (emails := findall email_pattern txt).
  rewrite entries_length.
  split; [reflexivity|]. split; [apply entries_keys_NoDup|].
  split; [|split; [reflexivity|split; [|split]]].
  - intros i e H. split.
    + apply (entries_nth_error emails 0 i H).
    + apply (entries_get emails 0 i H).
  - intros ->. split; reflexivity.
  - apply nodup_length_le.
  - intros H. now rewrite nodup_fixed_point.
Qed.

(** C4 as stated fails: an address found twice gives two entries for one
    value, and the sanitized text of two addresses run together still
    matches the pattern. *)
Lemma C4_counterexample :
  (length (nodup text_dec (findall email_pattern Scenario.twice)) = 1 /\
   length (snd (pii_filter_input Scenario.twice)) = 2) /\
  findall email_pattern (fst (pii_filter_input Scenario.run_on)) =
    [str "__EMAIL_1__@a.b"].
Proof. repeat split; vm_compute; reflexivity. Qed.

(** Every occurrence of a repeated address is replaced, by the first of
    its placeholders. *)
Lemma tokenize_twice :
  pii_filter_input Scenario.twice =
  (str "__EMAIL_1__ __EMAIL_1__",
   [ (str "__EMAIL_1__", str "a@b.co"); (str "__EMAIL_2__", str "a@b.co") ]).
Proof. vm_compute. reflexivity. Qed.

(** C5 (as the code has it).  For a text without underscore, putting the
    values of the map back for the placeholders, as [execute_sql_node]
    does, turns the sanitized text into the text again. *)
Theorem C5_round_trip (txt : text) :
  ~ In underscore txt ->
  rehydrate (fst (pii_filter_input txt)) (snd (pii_filter_input txt)) = txt.
Proof.
  intros Hplain.
  change (snd (pii_filter_input txt)) with (pii_map_of txt).
  change (fst (pii_filter_input txt)) with (sanitized_of txt).
  rewrite pii_map_of_eq, sanitized_of_eq.
  set (es := findall email_pattern txt).
  assert (Hes : Forall (fun e => plain e /\ In at_sign e) es).
  { apply Forall_forall. intros e He.
    apply findall_email in He as (Hat & a & b & Hsub). split; [|exact Hat].
    intros Hin. apply Hplain. rewrite Hsub.
    apply in_or_app. right. apply in_or_app. now left. }
  assert (Hes' : Forall plain es).
  { eapply Forall_impl; [|exact Hes]. intros e He. apply He. }
  destruct (@forward_all es Hes es [] (map Lit txt) eq_refl
              (@well_formed_lits 0 txt Hplain))
    as (ps & Hwf & H0 & Hlo).
  assert (Hlit : forall lo, render lo es (map Lit txt) = txt).
  { intros lo. rewrite <- (app_nil_r (map Lit txt)), render_lits.
    apply app_nil_r. }
  rewrite Hlit in H0. cbn [length] in H0. rewrite <- H0.
  unfold rehydrate.
  pose proof (@backward_all es Hes' ps Hwf (length es) 0 eq_refl) as Hback.
  cbn [skipn] in Hback. rewrite Hback, Hlo by lia. apply Hlit.
Qed.

(** C5 at the question of the scenarios. *)
Lemma C5_round_trip_witness :
  rehydrate (fst (pii_filter_input Scenario.who_is))
    (snd (pii_filter_input Scenario.who_is)) = Scenario.who_is.
Proof.
  apply (@C5_round_trip Scenario.who_is).
  vm_compute. intuition discriminate.
Defined.

(** C5 as stated fails: a placeholder written in the question comes back
    as the address. *)
Lemma C5_counterexample :
  rehydrate (fst (pii_filter_input Scenario.with_placeholder))
    (snd (pii_filter_input Scenario.with_placeholder)) = str "a@b.co a@b.co" /\
  str "a@b.co a@b.co" <> Scenario.with_placeholder.
Proof. split; [vm_compute; reflexivity | discriminate]. Qed.

(** One underscore is enough to lose the text, without any placeholder in
    the question. *)
Lemma round_trip_needs_plain :
  rehydrate (fst (pii_filter_input Scenario.with_underscore))
    (snd (pii_filter_input Scenario.with_underscore)) <> Scenario.with_underscore.
Proof. vm_compute. discriminate. Qed.

End TokenizerClaims.

(* ================================================================= *)
(** * Redaction of the result *)

Section Redaction.

Lemma plus_greedy_chars (cls : ascii -> bool) (k : text -> option text)
    (P : ascii -> Prop) :
  (forall c, cls c = true -> P c) ->
  (forall s m, k s = Some m -> Forall P m) ->
  forall s m, plus_greedy cls k s = Some m -> Forall P m.
Proof.
  intros Hcls Hk. induction s as [|c s IH]; intros m; simpl; [discriminate|].
  destruct (cls c) eqn:Ec; [|discriminate].
  destruct (plus_greedy cls k s) as [m1|].
  - intros [= <-]. constructor; auto.
  - destruct (k s) as [m'|] eqn:Ek; simpl; [|discriminate].
    intros [= <-]. constructor; eauto.
Qed.

Lemma match_here_chars (p : list item) :
  forall q s m,
    (forall it, In it p -> In it q) ->
    match_here p s = Some m -> Forall (fun c => in_pattern q c = true) m.
Proof.
  induction p as [|[cls|cls] p IH]; intros q s m Hq; simpl.
  - intros [= <-]. constructor.
  - destruct s as [|c s]; [discriminate|]. destruct (cls c) eqn:Ec; [|discriminate].
    destruct (match_here p s) as [m'|] eqn:E; simpl; [|discriminate].
    intros [= <-]. constructor.
    + apply existsb_exists. exists (One cls). split; [apply Hq; now left | exact Ec].
    + apply (IH q s m'); auto. intros it Hit. apply Hq. now right.
  - apply plus_greedy_chars.
    + intros c Ec. apply existsb_exists. exists (Many1 cls).
      split; [apply Hq; now left | exact Ec].
    + intros s' m' H. apply (IH q s' m'); auto. intros it Hit. apply Hq. now right.
Qed.

(** What [re.findall] returns for the e-mail pattern is address-like. *)
Lemma findall_address_like (s m : text) :
  In m (findall email_pattern s) -> address_like m.
Proof.
  intros H. pose proof (findall_email _ _ H) as [Hat _].
  apply findall_from_inv in H as (a & b & _ & Hb).
  apply (@match_here_chars email_pattern email_pattern b m (fun it Hit => Hit)) in Hb.
  rewrite Forall_forall in Hb.
  split; [exact Hat|]. split; intros Hin; apply Hb in Hin; discriminate Hin.
Qed.

Variable v : text.
Hypothesis v_like : address_like v.

Lemma tag_no_at : ~ In at_sign EMAIL_REDACTED.
Proof. cbv [EMAIL_REDACTED str list_ascii_of_string In]. intuition discriminate. Qed.

Lemma suffix_has_last (z : ascii) (l : text) :
  l <> [] -> forall a u, a ++ l = u ++ [z] -> In z l.
Proof.
  intros Hl. induction a as [|c a IH]; intros u H; simpl in H.
  - rewrite H. apply in_or_app. right. now left.
  - destruct u as [|c' u]; simpl in H.
    + injection H as _ H. apply app_eq_nil in H as [_ H]. congruence.
    + injection H as _ H. now apply (IH u).
Qed.

Lemma contains_tail (u a r : text) : contains u r = true -> contains u (a ++ r) = true.
Proof.
  intros H. apply contains_iff in H as (x & y & ->). apply contains_iff.
  exists (a ++ x), y. now rewrite app_assoc.
Qed.

(** An address-like text that occurs in the tag followed by [x] occurs
    in [x]. *)
Lemma contains_after_tag (x : text) :
  contains v (EMAIL_REDACTED ++ x) = true -> contains v x = true.
Proof.
  destruct v_like as (Hat & Hopen & Hclose).
  intros H. apply contains_iff in H as (a & b & H).
  apply app_eq_app in H as [l [[Htag Hx] | [Ha Hx]]].
  - destruct l as [|c l].
    + apply contains_iff. exists [], b. symmetry. exact Hx.
    + exfalso. symmetry in Hx. apply app_eq_app in Hx as [l2 [[Hl Hb] | [Hv Hb]]].
      * apply tag_no_at. rewrite Htag, Hl.
        apply in_or_app. right. apply in_or_app. now left.
      * apply Hclose. rewrite Hv. apply in_or_app. left.
        apply (@suffix_has_last close_bracket (c :: l)) with
          (a := a) (u := str "[EMAIL_REDACTED"); [discriminate|].
        rewrite <- Htag. reflexivity.
  - apply contains_iff. exists l, b. exact Hx.
Qed.

(** A text without opening bracket at the head of a redacted text is at
    the head of the text. *)
Lemma starts_with_replace (old : text) :
  old <> [] ->
  forall u s,
    ~ In open_bracket u ->
    starts_with u (replace s old EMAIL_REDACTED) = true -> starts_with u s = true.
Proof.
  intros Hold. induction u as [|a u IH]; intros s Hu H; [reflexivity|].
  destruct s as [|c s].
  - rewrite replace_nil in H by exact Hold. discriminate H.
  - destruct (starts_with old (c :: s)) eqn:E.
    + apply starts_with_iff in E as [r Hr]. rewrite Hr, replace_hit in H by exact Hold.
      cbv [EMAIL_REDACTED str list_ascii_of_string] in H. cbn [app starts_with] in H.
      apply andb_true_iff in H as [Ha _]. apply Ascii.eqb_eq in Ha.
      exfalso. apply Hu. left. exact Ha.
    + rewrite replace_miss in H by auto. cbn [starts_with] in *.
      apply andb_true_iff in H as [Ha H]. rewrite Ha. simpl.
      apply IH; [|exact H]. intros Hin. apply Hu. now right.
Qed.

(** Redacting [old] brings no occurrence of an address-like text. *)
Lemma replace_brings_none (old : text) :
  old <> [] ->
  forall n s, length s <= n ->
    contains v (replace s old EMAIL_REDACTED) = true -> contains v s = true.
Proof.
  intros Hold. destruct v_like as (Hat & Hopen & Hclose).
  induction n as [|n IH]; intros s Hlen H.
  - destruct s; [|simpl in Hlen; lia]. now rewrite replace_nil in H.
  - destruct s as [|c s]; [now rewrite replace_nil in H|].
    destruct (starts_with old (c :: s)) eqn:E.
    + apply starts_with_iff in E as [r Hr]. rewrite Hr in *.
      rewrite replace_hit in H by exact Hold.
      apply contains_tail, IH; [|now apply contains_after_tag].
      rewrite length_app in Hlen. destruct old; [congruence | simpl in Hlen; lia].
    + rewrite replace_miss in H by auto. cbn [contains] in *.
      apply orb_true_iff in H as [H | H]; apply orb_true_iff.
      * left. apply (@starts_with_replace old Hold v (c :: s) Hopen).
        now rewrite replace_miss by auto.
      * right. apply IH; [simpl in Hlen; lia | exact H].
Qed.

(** Redacting an address-like text leaves no occurrence of it. *)
Lemma replace_leaves_none :
  forall n s, length s <= n -> contains v (replace s v EMAIL_REDACTED) = false.
Proof.
  destruct v_like as (Hat & Hopen & Hclose).
  assert (Hne : v <> []) by (intros E; rewrite E in Hat; exact Hat).
  induction n as [|n IH]; intros s Hlen.
  - destruct s; [|simpl in Hlen; lia]. rewrite replace_nil by exact Hne.
    destruct v; [congruence | reflexivity].
  - destruct s as [|c s].
    + rewrite replace_nil by exact Hne. destruct v; [congruence | reflexivity].
    + destruct (starts_with v (c :: s)) eqn:E.
      * apply starts_with_iff in E as [r Hr]. rewrite Hr in *.
        rewrite replace_hit by exact Hne.
        destruct (contains v (EMAIL_REDACTED ++ replace r v EMAIL_REDACTED)) eqn:C;
          [|reflexivity].
        apply contains_after_tag in C. rewrite IH in C; [discriminate|].
        rewrite length_app in Hlen. destruct v; [congruence | simpl in Hlen; lia].
      * rewrite replace_miss by auto. cbn [contains].
        rewrite IH by (simpl in Hlen; lia). rewrite orb_false_r.
        destruct (starts_with v (c :: replace s v EMAIL_REDACTED)) eqn:S; [|reflexivity].
        rewrite <- replace_miss in S by auto.
        apply (@starts_with_replace v Hne v (c :: s) Hopen) in S. congruence.
Qed.

End Redaction.

Lemma redact_keeps_free (d : dict) :
  (forall kv, In kv d -> snd kv <> []) ->
  forall v s,
    address_like v -> contains v s = false ->
    contains v (fold_left (fun s kv => replace s (snd kv) EMAIL_REDACTED) d s) = false.
Proof.
  induction d as [|kv d IH]; intros Hd v s Hv H; simpl; [exact H|].
  apply IH; auto.
  - intros kv' Hin. apply Hd. now right.
  - destruct (contains v (replace s (snd kv) EMAIL_REDACTED)) eqn:C; [|reflexivity].
    apply (@replace_brings_none v Hv (snd kv)) with (n := length s) in C; auto.
    + congruence.
    + apply Hd. now left.
Qed.

Lemma redact_free (d : dict) :
  (forall kv, In kv d -> address_like (snd kv)) ->
  forall v s, In v (dict_values d) -> contains v (redact_result_data s d) = false.
Proof.
  intros Hd v s Hin.
  assert (Hne : forall kv, In kv d -> snd kv <> []).
  { intros kv Hkv E. destruct (Hd kv Hkv) as [Hat _]. rewrite E in Hat. exact Hat. }
  assert (Hfold : redact_result_data s d =
                  fold_left (fun s kv => replace s (snd kv) EMAIL_REDACTED) d s)
    by (destruct d; reflexivity).
  rewrite Hfold. clear Hfold. revert s.
  induction d as [|kv d IH]; intros s; [destruct Hin|]. simpl.
  destruct (text_dec v (snd kv)) as [-> | Hneq].
  - apply redact_keeps_free.
    + intros kv' Hkv'. apply Hne. now right.
    + apply Hd. now left.
    + apply replace_leaves_none with (n := length s); [apply Hd; now left | lia].
  - apply IH.
    + intros kv' Hkv'. apply Hd. now right.
    + destruct Hin as [E | Hin]; [congruence | exact Hin].
    + intros kv' Hkv'. apply Hne. now right.
Qed.

(** On the success path of [execute_sql_node] the result kept in the state
    holds no value of the placeholder map. *)
Lemma redacted_result_free (q data v : text) :
  In v (dict_values (pii_map_of q)) ->
  contains v (redact_result_data data (pii_map_of q)) = false.
Proof.
  apply redact_free. intros [k e] Hin. simpl. rewrite pii_map_of_eq in Hin.
  unfold entries in Hin. apply in_combine_r in Hin.
  now apply findall_address_like in Hin.
Qed.

(** The sanitized question itself can hold the value of its placeholder:
    the placeholder ends in the characters the address begins with. *)
Lemma sanitized_question_leaks :
  pii_filter_input Scenario.trailing_domain =
    (str "__EMAIL_1__@a.b", [ (str "__EMAIL_1__", str "_@a.b") ]) /\
  contains (str "_@a.b") (str "__EMAIL_1__@a.b") = true.
Proof. split; vm_compute; reflexivity. Qed.

(* ================================================================= *)
(** * What a replacement leaves behind *)

Section Insertion.

Variables v new : text.
Hypothesis v_apart : apart v new.

Lemma apart_after (x : text) :
  contains v (new ++ x) = true -> contains v x = true.
Proof.
  destruct v_apart as (Hne & Hin & first & rest & front & last & Hf & Hl & Hfirst & Hlast).
  intros H. apply contains_iff in H as (a & b & H).
  apply app_eq_app in H as [l [[Hnew Hx] | [Ha Hx]]].
  - destruct l as [|c l].
    + apply contains_iff. exists [], b. symmetry. exact Hx.
    + exfalso. symmetry in Hx. apply app_eq_app in Hx as [l2 [[Hcl Hb] | [Hv Hb]]].
      * assert (C : contains v new = true); [|congruence].
        apply contains_iff. exists a, l2. now rewrite Hnew, Hcl.
      * apply Hlast. rewrite Hv. apply in_or_app. left.
        apply (@suffix_has_last last (c :: l)) with (a := a) (u := front);
          [discriminate|]. now rewrite <- Hnew.
  - apply contains_iff. exists l, b. exact Hx.
Qed.

Lemma apart_starts_with (old : text) :
  old <> [] ->
  forall u s,
    (forall c, In c u -> In c v) ->
    starts_with u (replace s old new) = true -> starts_with u s = true.
Proof.
  destruct v_apart as (Hne & Hin & first & rest & front & last & Hf & Hl & Hfirst & Hlast).
  intros Hold. induction u as [|a u IH]; intros s Hu H; [reflexivity|].
  destruct s as [|c s].
  - rewrite replace_nil in H by exact Hold. discriminate H.
  - destruct (starts_with old (c :: s)) eqn:E.
    + apply starts_with_iff in E as [r Hr]. rewrite Hr, replace_hit in H by exact Hold.
      rewrite Hf in H. cbn [app starts_with] in H.
      apply andb_true_iff in H as [Ha _]. apply Ascii.eqb_eq in Ha.
      exfalso. apply Hfirst. apply Hu. left. exact Ha.
    + rewrite replace_miss in H by auto. cbn [starts_with] in *.
      apply andb_true_iff in H as [Ha H]. rewrite Ha. simpl.
      apply IH; [|exact H]. intros x Hx. apply Hu. now right.
Qed.

(** Replacing [old] by [new] brings no occurrence of [v]. *)
Lemma apart_brings_none (old : text) :
  old <> [] ->
  forall n s, length s <= n ->
    contains v (replace s old new) = true -> contains v s = true.
Proof.
  intros Hold.
  induction n as [|n IH]; intros s Hlen H.
  - destruct s; [|simpl in Hlen; lia]. now rewrite replace_nil in H.
  - destruct s as [|c s]; [now rewrite replace_nil in H|].
    destruct (starts_with old (c :: s)) eqn:E.
    + apply starts_with_iff in E as [r Hr]. rewrite Hr in *.
      rewrite replace_hit in H by exact Hold.
      apply contains_tail, IH; [|now apply apart_after].
      rewrite length_app in Hlen. destruct old; [congruence | simpl in Hlen; lia].
    + rewrite replace_miss in H by auto. cbn [contains] in *.
      apply orb_true_iff in H as [H | H]; apply orb_true_iff.
      * left. apply (@apart_starts_with old Hold v (c :: s)); [auto|].
        now rewrite replace_miss by auto.
      * right. apply IH; [simpl in Hlen; lia | exact H].
Qed.

(** Replacing [v] by [new] leaves no occurrence of [v]. *)
Lemma apart_leaves_none :
  forall n s, length s <= n -> contains v (replace s v new) = false.
Proof.
  assert (Hne : v <> []) by apply v_apart.
  induction n as [|n IH]; intros s Hlen.
  - destruct s; [|simpl in Hlen; lia]. rewrite replace_nil by exact Hne.
    destruct v; [congruence | reflexivity].
  - destruct s as [|c s].
    + rewrite replace_nil by exact Hne. destruct v; [congruence | reflexivity].
    + destruct (starts_with v (c :: s)) eqn:E.
      * apply starts_with_iff in E as [r Hr]. rewrite Hr in *.
        rewrite replace_hit by exact Hne.
        destruct (contains v (new ++ replace r v new)) eqn:C; [|reflexivity].
        apply apart_after in C. rewrite IH in C; [discriminate|].
        rewrite length_app in Hlen. destruct v; [congruence | simpl in Hlen; lia].
      * rewrite replace_miss by auto. cbn [contains].
        rewrite IH by (simpl in Hlen; lia). rewrite orb_false_r.
        destruct (starts_with v (c :: replace s v new)) eqn:S; [|reflexivity].
        rewrite <- replace_miss in S by auto.
        apply (@apart_starts_with v Hne v (c :: s)) in S; [congruence | auto].
Qed.

End Insertion.

Section ReplaceAll.

Variable v : text.

Lemma replace_all_keeps_free (l : list (text * text)) :
  (forall on, In on l -> fst on <> [] /\ apart v (snd on)) ->
  forall s, contains v s = false -> contains v (replace_all l s) = false.
Proof.
  unfold replace_all. induction l as [|on l IH]; intros Hl s H; simpl; [exact H|].
  apply IH.
  - intros on' Hin. apply Hl. now right.
  - destruct (Hl on (or_introl eq_refl)) as [Hne Hap].
    destruct (contains v (replace s (fst on) (snd on))) eqn:C; [|reflexivity].
    apply (@apart_brings_none v (snd on) Hap (fst on) Hne (length s)) in C; auto.
    congruence.
Qed.

(** After the replacements [l], nothing that was replaced is left, when
    what is replaced stays apart from what is inserted. *)
Lemma replace_all_free (l : list (text * text)) :
  (forall on, In on l -> fst on <> [] /\ apart v (snd on)) ->
  In v (map fst l) ->
  forall s, contains v (replace_all l s) = false.
Proof.
  induction l as [|on l IH]; intros Hl Hin s; [destruct Hin|].
  change (replace_all (on :: l) s) with (replace_all l (replace s (fst on) (snd on))).
  destruct (text_dec (fst on) v) as [E | Hneq].
  - apply replace_all_keeps_free.
    + intros on' Hin'. apply Hl. now right.
    + destruct (Hl on (or_introl eq_refl)) as [_ Hap]. rewrite E.
      now apply (@apart_leaves_none v (snd on) Hap (length s)).
  - apply IH.
    + intros on' Hin'. apply Hl. now right.
    + destruct Hin as [E | Hin]; [congruence | exact Hin].
Qed.

End ReplaceAll.

Lemma fold_replace_all {A : Type} (old new : A -> text) (d : list A) (s : text) :
  fold_left (fun s kv => replace s (old kv) (new kv)) d s =
  replace_all (map (fun kv => (old kv, new kv)) d) s.
Proof.
  unfold replace_all. revert s. induction d as [|kv d IH]; intros s; simpl; auto.
Qed.

(** A text in which [old] does not occur is left as it is. *)
Lemma replace_absent (old new : text) :
  old <> [] -> forall s, contains old s = false -> replace s old new = s.
Proof.
  intros Hold. induction s as [|c s IH]; intros H.
  - now apply replace_nil.
  - cbn [contains] in H. apply orb_false_iff in H as [H1 H2].
    rewrite replace_miss by auto. now rewrite IH.
Qed.

(* ================================================================= *)
(** * The tokenizer and the redaction, further *)

Section Occurrences.

Lemma contains_sub (u a b s : text) :
  contains (a ++ u ++ b) s = true -> contains u s = true.
Proof.
  intros H. apply contains_iff in H as (x & y & ->). apply contains_iff.
  exists (x ++ a), (b ++ y). now rewrite <- !app_assoc.
Qed.

Lemma contains_has (c : ascii) (u s : text) :
  In c u -> contains u s = true -> In c s.
Proof.
  intros Hc H. apply contains_iff in H as (x & y & ->).
  apply in_or_app. right. apply in_or_app. now left.
Qed.

Lemma entries_values (i : nat) (emails : list text) :
  dict_values (entries i emails) = emails.
Proof.
  unfold dict_values, entries. revert i.
  induction emails as [|e rest IH]; intros i; simpl; [reflexivity|].
  now rewrite IH.
Qed.

Lemma pii_map_values (q : text) :
  dict_values (pii_map_of q) = findall email_pattern q.
Proof. rewrite pii_map_of_eq. apply entries_values. Qed.

Lemma pii_map_keys (q k : text) :
  In k (dict_keys (pii_map_of q)) -> exists j, k = placeholder_of j.
Proof.
  rewrite pii_map_of_eq. intros H.
  apply entries_keys in H as (j & _ & ->). now exists j.
Qed.

Lemma placeholder_front (i : nat) :
  exists front, placeholder_of i = front ++ [underscore].
Proof.
  rewrite placeholder_of_eq.
  exists (underscore :: underscore :: str "EMAIL" ++ underscore :: dec (i + 1) ++ [underscore]).
  cbv [str list_ascii_of_string]. simpl. rewrite <- app_assoc. reflexivity.
Qed.

(** The characters of a placeholder. *)
Lemma placeholder_chars (i : nat) (c : ascii) :
  In c (placeholder_of i) ->
  c = underscore \/ In c (str "EMAIL") \/ digit c = true.
Proof.
  rewrite placeholder_of_eq. intros [H | [H | H]]; auto.
  apply in_app_or in H as [H | [H | H]]; auto.
  apply in_app_or in H as [H | H].
  - right. right. pose proof (dec_digits (i + 1)) as Hd.
    rewrite Forall_forall in Hd. now apply Hd.
  - left. destruct H as [H | [H | []]]; auto.
Qed.

(** An address without underscore stays apart from every placeholder. *)
Lemma email_apart_placeholder (v : text) (i : nat) :
  In at_sign v -> plain v -> apart v (placeholder_of i).
Proof.
  intros Hat Hplain. split; [intros ->; exact Hat|]. split.
  - destruct (contains v (placeholder_of i)) eqn:C; [|reflexivity].
    exfalso. apply (@placeholder_no_at i). exact (@contains_has _ _ _ Hat C).
  - destruct (placeholder_front i) as [front Hfront].
    exists underscore, (tl (placeholder_of i)), front, underscore.
    repeat split; auto.
Qed.

(** A placeholder stays apart from the redaction tag. *)
Lemma placeholder_apart_tag (i : nat) : apart (placeholder_of i) EMAIL_REDACTED.
Proof.
  split; [apply placeholder_nonempty|]. split.
  - destruct (contains (placeholder_of i) EMAIL_REDACTED) eqn:C; [|reflexivity].
    exfalso. assert (H : In underscore EMAIL_REDACTED).
    { apply (@contains_has underscore (placeholder_of i) _); [|exact C].
      rewrite placeholder_of_eq. now left. }
    cbv [EMAIL_REDACTED str list_ascii_of_string In] in H. intuition discriminate.
  - exists open_bracket, (str "EMAIL_REDACTED]"), (str "[EMAIL_REDACTED"), close_bracket.
    repeat split.
    + intros H. apply placeholder_chars in H as [H | [H | H]]; try discriminate H.
      cbv [str list_ascii_of_string In] in H. intuition discriminate.
    + intros H. apply placeholder_chars in H as [H | [H | H]]; try discriminate H.
      cbv [str list_ascii_of_string In] in H. intuition discriminate.
Qed.

Lemma redact_fold (s : text) (d : dict) :
  redact_result_data s d =
  fold_left (fun s kv => replace s (snd kv) EMAIL_REDACTED) d s.
Proof. destruct d; reflexivity. Qed.

Lemma redact_absent (d : dict) :
  forall s,
    (forall v, In v (dict_values d) -> v <> [] /\ contains v s = false) ->
    redact_result_data s d = s.
Proof.
  intros s. rewrite redact_fold.
  induction d as [|[k v] d IH]; intros H; simpl; [reflexivity|].
  destruct (H v (or_introl eq_refl)) as [Hne Hv].
  rewrite (replace_absent EMAIL_REDACTED Hne s Hv).
  apply IH. intros v' Hin. apply H. now right.
Qed.

Lemma scrub_free (d : dict) (k s : text) :
  (forall k', In k' (dict_keys d) -> exists j, k' = placeholder_of j) ->
  In k (dict_keys d) ->
  contains k (scrub_placeholders s d) = false.
Proof.
  intros Hd Hk. unfold scrub_placeholders.
  rewrite (fold_replace_all fst (fun _ => EMAIL_REDACTED)).
  apply replace_all_free.
  - intros on Hin. apply in_map_iff in Hin as (kv & <- & Hkv). simpl.
    destruct (Hd (fst kv)) as [j Hj]; [now apply in_map|].
    destruct (Hd k Hk) as [j' ->]. rewrite Hj.
    split; [apply placeholder_nonempty | apply placeholder_apart_tag].
  - rewrite map_map. exact Hk.
Qed.

End Occurrences.

(** X1.  A question without at sign passes [pii_filter_input] as it is, and the
    placeholder map stays empty. *)
Theorem question_without_at_sign (q : text) :
  ~ In at_sign q -> pii_filter_input q = (q, []).
Proof.
  intros H. unfold pii_filter_input.
  destruct (findall email_pattern q) as [|m ms] eqn:E; [reflexivity|].
  exfalso. apply H.
  destruct (@findall_email q m) as (Hat & a & b & ->); [rewrite E; now left|].
  apply in_or_app. right. apply in_or_app. now left.
Qed.

Lemma question_without_at_sign_witness :
  pii_filter_input (str "List all customers") = (str "List all customers", []).
Proof.
  apply question_without_at_sign.
  cbv [str list_ascii_of_string In at_sign]. intuition discriminate.
Defined.

(** X2.  Every value of the placeholder map is a piece of the question, holds
    an at sign, and is made of the characters of the e-mail pattern (so it
    is not empty and holds no blank, quote or bracket). *)
Theorem pii_map_values_from_question (q v : text) :
  In v (dict_values (pii_map_of q)) ->
  contains v q = true /\ In at_sign v /\
  Forall (fun c => in_pattern email_pattern c = true) v.
Proof.
  rewrite pii_map_values. intros H.
  destruct (findall_email _ _ H) as (Hat & a & b & Hq).
  split; [apply contains_iff; eauto|]. split; [exact Hat|].
  apply findall_from_inv in H as (x & y & _ & Hy).
  exact (@match_here_chars email_pattern email_pattern y v (fun it Hit => Hit) Hy).
Qed.

Lemma pii_map_values_from_question_witness :
  contains (str "a@b.co") Scenario.who_is = true /\ In at_sign (str "a@b.co") /\
  Forall (fun c => in_pattern email_pattern c = true) (str "a@b.co").
Proof.
  apply pii_map_values_from_question. vm_compute. now left.
Defined.

(** X4.  A result in which no value of the map occurs passes
    [redact_result_data] as it is (no value being the empty text). *)
Theorem redact_unchanged (data : text) (pii_map : dict) :
  (forall v, In v (dict_values pii_map) -> v <> [] /\ contains v data = false) ->
  redact_result_data data pii_map = data.
Proof. apply redact_absent. Qed.

Lemma redact_unchanged_witness :
  redact_result_data (str "   count  0    3") (pii_map_of Scenario.who_is) =
  str "   count  0    3".
Proof.
  apply redact_unchanged. intros v Hv.
  assert (E : v = str "a@b.co") by (vm_compute in Hv; destruct Hv as [<- | []]; reflexivity).
  subst v. split; [discriminate | reflexivity].
Defined.

(** X5.  Redacting a result a second time with the map of the same question
    changes nothing. *)
Theorem redact_idempotent (q data : text) :
  redact_result_data (redact_result_data data (pii_map_of q)) (pii_map_of q) =
  redact_result_data data (pii_map_of q).
Proof.
  apply redact_absent. intros v Hv. split.
  - rewrite pii_map_values in Hv. destruct (findall_email _ _ Hv) as [Hat _].
    intros ->. exact Hat.
  - now apply redacted_result_free.
Qed.

(* ================================================================= *)
(** * Runs, further *)

Section Steps.

Variable cell : Type.
Variable w : World cell.

(** What [execute_sql_node] returns, and from what. *)
Lemma execute_sql_node_result (st : AgentState cell) (log log' : list event)
    (u : Update cell) :
  execute_sql_node w st log = (Ret u, log') ->
  (exists sql conn,
     sql_query st = Some sql /\
     read_sql_query w (db_calls log) (rehydrate sql (get_pii_map st)) = inl conn /\
     u = executed (redact_result_data (df_to_str w conn) (get_pii_map st)) (chart_of conn) /\
     log' = log ++ [DBCall (rehydrate sql (get_pii_map st))]) \/
  (exists e n,
     retry_count st = Some n /\ u = failed cell e (n + 1) /\
     ((sql_query st = None /\ log' = log) \/
      (exists sql,
         sql_query st = Some sql /\
         read_sql_query w (db_calls log) (rehydrate sql (get_pii_map st)) = inr e /\
         log' = log ++ [DBCall (rehydrate sql (get_pii_map st))]))).
Proof.
  destruct (sql_query st) as [sql|] eqn:Hq.
  - rewrite (execute_sql_node_eq w st log Hq). cbv zeta.
    destruct (read_sql_query w (db_calls log) _) as [conn|e] eqn:Hr.
    + intros [= <- <-]. left. exists sql, conn. auto.
    + destruct (retry_count st) as [n|]; [|discriminate].
      intros [= <- <-]. right. exists e, n. repeat split. right. exists sql. auto.
  - unfold execute_sql_node, try_except, bind, subscript. rewrite Hq.
    unfold raise at 1. destruct (retry_count st) as [n|]; [|discriminate].
    unfold ret. intros [= <- <-]. right. eexists _, n. repeat split. now left.
Qed.

(** The edge out of [execute_sql] leaves state and log as they are. *)
Lemma run_node_execute_result (st st' : AgentState cell) (log log' : list event)
    (next : node) :
  run_node w ExecuteSQL st log = (Ret (next, st'), log') ->
  exists u,
    execute_sql_node w st log = (Ret u, log') /\ st' = apply_update u st /\
    should_retry st' log' = (Ret next, log').
Proof.
  unfold run_node, bind.
  destruct (execute_sql_node w st log) as [[u|e] log1] eqn:E; [|discriminate].
  destruct (should_retry (apply_update u st) log1) as [[nx|e] log2] eqn:S; [|discriminate].
  assert (Hlog : log2 = log1).
  { revert S. unfold should_retry, bind, subscript.
    destruct (error_set _); [|unfold ret; now intros [= _ <-]].
    destruct (retry_count _) as [k|]; [|discriminate].
    unfold ret at 1. destruct (k <? 3)%Z; unfold ret; now intros [= _ <-]. }
  subst log2. unfold ret. intros [= <- <- <-]. exists u. auto.
Qed.

(** [query_result] is written by a successful execution only, and then
    it is the redacted text of the frame. *)
Lemma query_result_step (n next : node) (st st' : AgentState cell)
    (log log' : list event) :
  run_node w n st log = (Ret (next, st'), log') ->
  query_result st' = query_result st \/
  (n = ExecuteSQL /\
   exists conn,
     query_result st' =
     Some (redact_result_data (df_to_str w conn) (get_pii_map st))).
Proof.
  intros Hrun. destruct n.
  - rewrite run_node_generate_sql in Hrun.
    destruct (llm_invoke w (llm_calls log) _); [|discriminate].
    injection Hrun as <- <- _. now left.
  - unfold run_node, bind, check_sql_node, bind, subscript in Hrun.
    destruct (sql_query st) as [sql|]; [|discriminate].
    unfold ret at 1 in Hrun. destruct (unsafe_query sql).
    + injection Hrun as <- <- _. now left.
    + unfold call_llm in Hrun.
      destruct (llm_invoke w (llm_calls log) _) as [r|]; [|discriminate].
      injection Hrun as <- <- _. left.
      now destruct (apply_verdict r st) as (_ & _ & _ & _ & H5 & _).
  - apply run_node_execute_result in Hrun as (u & Hu & -> & _).
    apply execute_sql_node_result in Hu
      as [(sql & conn & _ & _ & -> & _) | (e & k & _ & -> & _)].
    + right. split; [reflexivity|]. now exists conn.
    + now left.
  - unfold run_node, bind in Hrun.
    destruct (generate_answer_node w st log) as [[u|e] log1] eqn:E; [|discriminate].
    apply generate_answer_node_frame in E as [a ->].
    injection Hrun as <- <- _. now left.
  - injection Hrun as <- <- _. now left.
Qed.

(** A node makes at most one call: [execute_sql] to the store, the others
    to the model; this holds also when the node raises. *)
Lemma step_events (n : node) (st : AgentState cell) (log log' : list event)
    (o : outcome (node * AgentState cell)) :
  run_node w n st log = (o, log') ->
  log' = log \/
  (n <> ExecuteSQL /\ exists m, log' = log ++ [LLMCall m]) \/
  (n = ExecuteSQL /\ exists sql, log' = log ++ [DBCall sql]).
Proof.
  intros Hrun. destruct n.
  - rewrite run_node_generate_sql in Hrun. right. left. split; [discriminate|].
    destruct (llm_invoke w (llm_calls log) _); injection Hrun as _ <-; eauto.
  - unfold run_node, bind, check_sql_node, bind, subscript in Hrun.
    destruct (sql_query st) as [sql|]; [|injection Hrun as _ <-; now left].
    unfold ret at 1 in Hrun. destruct (unsafe_query sql).
    + injection Hrun as _ <-. now left.
    + unfold call_llm in Hrun. right. left. split; [discriminate|].
      destruct (llm_invoke w (llm_calls log) _); injection Hrun as _ <-; eauto.
  - unfold run_node, bind in Hrun.
    destruct (execute_sql_node w st log) as [[u|e] log1] eqn:E.
    + assert (Hlog : log' = log1).
      { revert Hrun. unfold should_retry, bind, subscript.
        destruct (error_set _); [|unfold ret; now intros [= _ <-]].
        destruct (retry_count _) as [k|]; [|unfold raise; now intros [= _ <-]].
        unfold ret at 1. destruct (k <? 3)%Z; unfold ret; now intros [= _ <-]. }
      subst log1. apply execute_sql_node_result in E
        as [(sql & conn & _ & _ & _ & ->) | (e & k & _ & _ & [[_ ->] | (sql & _ & _ & ->)])];
        eauto.
    + injection Hrun as _ <-. revert E.
      unfold execute_sql_node, try_except, bind, subscript.
      destruct (sql_query st) as [sql|].
      * unfold ret at 1. unfold call_db.
        destruct (read_sql_query w (db_calls log) _); [discriminate|].
        destruct (retry_count st); [discriminate|].
        unfold raise. intros [= _ <-]. eauto.
      * unfold raise at 1. destruct (retry_count st); [discriminate|].
        unfold raise. intros [= _ <-]. now left.
  - unfold run_node, bind, generate_answer_node, bind, subscript in Hrun.
    destruct (error_set st).
    + destruct (error st); injection Hrun as _ <-; now left.
    + destruct (sanitized_question st); [|injection Hrun as _ <-; now left].
      destruct (sql_query st); [|injection Hrun as _ <-; now left].
      destruct (query_result st); [|injection Hrun as _ <-; now left].
      unfold ret at 1 2 3 in Hrun. unfold call_llm in Hrun.
      right. left. split; [discriminate|].
      destruct (llm_invoke w (llm_calls log) _); injection Hrun as _ <-; eauto.
  - injection Hrun as _ <-. now left.
Qed.

End Steps.

Lemma node_eq_END (n : node) : n = END \/ n <> END.
Proof. destruct n; auto; right; discriminate. Qed.

Section Bounds.

Variable cell : Type.
Variable w : World cell.
Variable q : text.

Hypothesis Htext : errors_have_text w.
Hypothesis Hempty : rejects_empty w.

(** A node keeps the account, and brings the run nearer to its end. *)
Lemma accounted_step (k : nat) (n next : node) (st st' : AgentState cell)
    (log log' : list event) :
  invariant q n st -> accounted k n st log -> n <> END ->
  run_node w n st log = (Ret (next, st'), log') ->
  exists k', accounted k' next st' log' /\ steps_left next k' < steps_left n k.
Proof.
  intros (Hq & _ & Hn) [Hk Hacc] Hend Hrun. destruct n; try congruence.
  - (* generate_sql *)
    rewrite run_node_generate_sql in Hrun.
    destruct (llm_invoke w (llm_calls log) _); [|discriminate].
    injection Hrun as <- <- <-. exists k. rewrite Hk.
    destruct Hacc as (H1 & H2 & H3).
    split; [|unfold steps_left; lia]. split; [reflexivity|].
    rewrite db_calls_llm, llm_calls_llm. lia.
  - (* check_sql *)
    destruct Hn as [_ Hsql]. destruct Hacc as (H1 & H2 & H3).
    destruct (sql_query st) as [sql|] eqn:E; [|congruence].
    rewrite (run_node_check_sql w st log E) in Hrun.
    destruct (unsafe_query sql).
    + injection Hrun as <- <- <-. exists k. split; [|unfold steps_left; lia].
      split; [exact Hk|]. lia.
    + destruct (llm_invoke w (llm_calls log) _) as [r|]; [|discriminate].
      injection Hrun as <- <- <-. exists k. split; [|unfold steps_left; lia].
      destruct (apply_verdict r st) as (_ & _ & _ & H4 & _).
      split; [congruence|]. rewrite db_calls_llm, llm_calls_llm. lia.
  - (* execute_sql *)
    destruct Hn as ([_ Hp] & sql & Hsql & Herr). destruct Hacc as (H1 & H2 & H3).
    assert (Hpii : get_pii_map st = pii_map_of q) by (unfold get_pii_map; now rewrite Hp).
    destruct (read_sql_query w (db_calls log) (rehydrate sql (get_pii_map st)))
      as [conn|e] eqn:Hread.
    + assert (He : error st = None).
      { destruct Herr as [He | [-> He]]; [exact He|].
        rewrite Hpii, rehydrate_nil_pii_map in Hread.
        destruct (Hempty (db_calls log)) as [e He']. congruence. }
      rewrite (run_node_execute_ok w st log Hsql He Hread) in Hrun.
      injection Hrun as <- <- <-. exists k. split; [|unfold steps_left; lia].
      split; [exact Hk|]. rewrite db_calls_db, llm_calls_db. lia.
    + assert (Hne : e <> []) by (eapply Htext; eauto).
      rewrite (run_node_execute_fail w st log Hsql Hk Hne Hread) in Hrun.
      injection Hrun as <- <- <-. exists (S k).
      assert (Hk' : retry_count (apply_update (failed cell e (Z.of_nat k + 1)) st) =
                    Some (Z.of_nat (S k))) by (simpl; f_equal; lia).
      destruct (Z.ltb_spec (Z.of_nat k + 1) 3).
      * split; [|unfold steps_left; lia]. split; [exact Hk'|].
        rewrite db_calls_db, llm_calls_db. lia.
      * split; [|unfold steps_left; lia]. split; [exact Hk'|].
        rewrite db_calls_db, llm_calls_db. lia.
  - (* generate_answer *)
    destruct Hacc as (H1 & H2).
    pose proof (step_events w GenerateAnswer st log Hrun) as Hlog.
    unfold run_node, bind in Hrun.
    destruct (generate_answer_node w st log) as [[u|e] log1] eqn:E; [|discriminate].
    apply generate_answer_node_frame in E as [a ->].
    injection Hrun as <- <- <-. exists k. split; [|unfold steps_left; lia].
    split; [exact Hk|].
    destruct Hlog as [-> | [(_ & m & ->) | (Hx & _)]]; [lia | | discriminate Hx].
    rewrite db_calls_llm, llm_calls_llm. lia.
Qed.

Lemma reachable_accounted (n : node) (st : AgentState cell) (log : list event) :
  reachable w q n st log -> exists k, accounted k n st log.
Proof.
  induction 1 as [|n st log next st' log' Hreach [k IH] Hend Hrun].
  - exists 0. split; [reflexivity|]. simpl. unfold db_calls, llm_calls. simpl. lia.
  - destruct (@accounted_step k n next st st' log log') as (k' & Hk' & _); eauto.
    now apply reachable_invariant with (w := w) (log := log).
Qed.

(** The calls of a run that is cut short by an exception. *)
Lemma accounted_raise (k : nat) (n : node) (st : AgentState cell)
    (log log' : list event) (e : text) :
  accounted k n st log -> n <> END ->
  run_node w n st log = (Raise e, log') ->
  db_calls log' <= 3 /\ llm_calls log' <= 7.
Proof.
  intros [_ Hacc] Hend Hrun.
  destruct (step_events w n st log Hrun) as [-> | [(Hx & m & ->) | (-> & sql & ->)]].
  - destruct n; try congruence; lia.
  - rewrite db_calls_llm, llm_calls_llm. destruct n; try congruence; lia.
  - rewrite db_calls_db, llm_calls_db. lia.
Qed.

Lemma run_bounds (limit : nat) :
  forall (n : node) (st : AgentState cell) (log : list event) (k : nat)
         (o : outcome (AgentState cell)) (log' : list event),
    reachable w q n st log -> accounted k n st log ->
    run w limit n st log = (o, log') ->
    db_calls log' <= 3 /\ llm_calls log' <= 7.
Proof.
  induction limit as [|limit IH]; intros n st log k o log' Hreach Hacc Hrun.
  - destruct n; injection Hrun as _ <-; destruct Hacc as [_ Hacc]; lia.
  - destruct (node_eq_END n) as [-> | Hend].
    + rewrite run_END in Hrun. injection Hrun as _ <-. destruct Hacc as [_ Hacc]. lia.
    + rewrite run_S in Hrun by exact Hend.
      destruct (run_node w n st log) as [[[next st']|e] log1] eqn:Hstep.
      * destruct (@accounted_step k n next st st' log log1) as (k' & Hk' & _); auto.
        { now apply reachable_invariant with (w := w) (log := log). }
        apply (IH next st' log1 k' o log'); auto.
        eapply reach_step; eauto.
      * injection Hrun as _ <-. eapply accounted_raise; eauto.
Qed.


End Bounds.

Section Raises.

Variable cell : Type.
Variable w : World cell.
Variable q : text.

Hypothesis Htext : errors_have_text w.

Lemma reachable_answerable (n : node) (st : AgentState cell) (log : list event) :
  reachable w q n st log -> answerable n st.
Proof.
  destruct 1 as [|n st log next st' log' Hreach Hend Hrun]; [exact I|].
  destruct next; try exact I.
  apply reachable_invariant in Hreach. destruct n; try congruence.
  - rewrite run_node_generate_sql in Hrun.
    destruct (llm_invoke w (llm_calls log) _); discriminate.
  - destruct Hreach as (_ & _ & _ & Hsql).
    destruct (sql_query st) as [sql|] eqn:E; [|congruence].
    rewrite (run_node_check_sql w st log E) in Hrun.
    destruct (unsafe_query sql); [discriminate|].
    destruct (llm_invoke w (llm_calls log) _); discriminate.
  - destruct Hreach as (_ & _ & _ & sql & Hsql & _).
    apply run_node_execute_result in Hrun as (u & Hu & -> & _).
    apply execute_sql_node_result in Hu
      as [(sql' & conn & _ & _ & -> & _) |
          (e & k & _ & -> & [[Hnone _] | (sql' & _ & Hread & _)])].
    + split; simpl; [congruence | right; discriminate].
    + congruence.
    + split; simpl; [congruence|]. left.
      apply Htext in Hread. unfold error_set. simpl. now destruct e.
  - unfold run_node, bind in Hrun.
    destruct (generate_answer_node w st log) as [[u|e] log1]; discriminate.
Qed.

(** In a run, a node raises only when its call to the model does. *)
Lemma step_raise (n : node) (st : AgentState cell) (log log' : list event) (e : text) :
  reachable w q n st log ->
  run_node w n st log = (Raise e, log') ->
  exists m, llm_invoke w (llm_calls log) m = inr e /\ log' = log ++ [LLMCall m].
Proof.
  intros Hreach Hrun.
  pose proof (reachable_answerable Hreach) as Hans.
  apply reachable_invariant in Hreach. destruct Hreach as (_ & [k Hk] & Hn).
  destruct n.
  - rewrite run_node_generate_sql in Hrun.
    destruct (llm_invoke w (llm_calls log) _) eqn:E; [discriminate|].
    injection Hrun as <- <-. eauto.
  - destruct Hn as [_ Hsql].
    destruct (sql_query st) as [sql|] eqn:E; [|congruence].
    rewrite (run_node_check_sql w st log E) in Hrun.
    destruct (unsafe_query sql); [discriminate|].
    destruct (llm_invoke w (llm_calls log) _) eqn:El; [discriminate|].
    injection Hrun as <- <-. eauto.
  - exfalso. destruct Hn as (_ & sql & Hsql & _).
    unfold run_node, bind in Hrun.
    destruct (execute_sql_node w st log) as [[u|e0] log1] eqn:E.
    + assert (Hrc : exists k', retry_count (apply_update u st) = Some k').
      { apply execute_sql_node_frame in E as [(safe & ch & ->) | (e1 & n & _ & ->)];
          simpl; eauto. }
      destruct Hrc as [k' Hk']. revert Hrun.
      unfold should_retry, bind, subscript. rewrite Hk'.
      destruct (error_set _); [|discriminate].
      unfold ret at 1. destruct (k' <? 3)%Z; discriminate.
    + rewrite (execute_sql_node_eq w st log Hsql) in E. cbv zeta in E.
      destruct (read_sql_query w (db_calls log) _); [discriminate|].
      rewrite Hk in E. discriminate.
  - destruct Hn as [Hs _]. destruct Hans as [Hsql Hres].
    unfold run_node, bind, generate_answer_node in Hrun.
    destruct (error_set st) eqn:Ee.
    + unfold error_set in Ee. destruct (error st); discriminate.
    + destruct Hres as [Hres | Hres]; [discriminate|].
      rewrite Hs in Hrun.
      destruct (sql_query st) as [sql|]; [|congruence].
      destruct (query_result st) as [res|]; [|congruence].
      unfold bind, subscript in Hrun. unfold ret at 1 2 3 in Hrun.
      unfold call_llm in Hrun.
      destruct (llm_invoke w (llm_calls log) _) eqn:El; [discriminate|].
      injection Hrun as <- <-. eauto.
  - discriminate.
Qed.

Hypothesis Hempty : rejects_empty w.

Lemma run_raise (limit : nat) :
  forall (n : node) (st : AgentState cell) (log log' : list event) (k : nat) (e : text),
    reachable w q n st log -> accounted k n st log ->
    steps_left n k <= limit ->
    run w limit n st log = (Raise e, log') ->
    exists log0 m,
      llm_invoke w (llm_calls log0) m = inr e /\ log' = log0 ++ [LLMCall m].
Proof.
  induction limit as [|limit IH]; intros n st log log' k e Hreach Hacc Hlim Hrun.
  - destruct n; destruct Hacc as [_ Hacc]; unfold steps_left in Hlim; try lia.
    discriminate.
  - destruct (node_eq_END n) as [-> | Hend]; [rewrite run_END in Hrun; discriminate|].
    rewrite run_S in Hrun by exact Hend.
    destruct (run_node w n st log) as [[[next st']|e0] log1] eqn:Hstep.
    + destruct (@accounted_step cell w q Htext Hempty k n next st st' log log1)
        as (k' & Hk' & Hlt); auto.
      { now apply reachable_invariant with (w := w) (log := log). }
      apply (IH next st' log1 log' k' e); auto; try lia.
      eapply reach_step; eauto.
    + injection Hrun as <- <-. exists log. eapply step_raise; eauto.
Qed.

End Raises.

Section RunClaims.

Variable cell : Type.
Variable w : World cell.

Lemma accounted_start (q : text) : accounted 0 GenerateSQL (inputs cell q) [].
Proof. split; [reflexivity|]. unfold db_calls, llm_calls. simpl. lia. Qed.

(** X6.  Whatever the model and the store answer, and also when a call to the
    model raises, a run asks the store at most three times and the model
    at most seven times (the store's errors carry a message, and the
    store rejects the empty statement). *)
Theorem run_call_bounds (q : text) (o : outcome (AgentState cell)) (log : list event) :
  errors_have_text w -> rejects_empty w ->
  invoke w q = (o, log) ->
  db_calls log <= 3 /\ llm_calls log <= 7.
Proof.
  intros Htext Hempty. unfold invoke. intros Hrun.
  apply (@run_bounds cell w q Htext Hempty recursion_limit GenerateSQL
           (inputs cell q) [] 0 o log); [apply reach_start | apply accounted_start | exact Hrun].
Qed.


(** X8.  A run raises only when a call to the model raises: the exception is
    the model's, and that call is the last entry of the log (under the
    same conditions on the store). *)
Theorem run_raises_with_model (q e : text) (log : list event) :
  errors_have_text w -> rejects_empty w ->
  invoke w q = (Raise e, log) ->
  exists log0 m,
    llm_invoke w (llm_calls log0) m = inr e /\ log = log0 ++ [LLMCall m].
Proof.
  intros Htext Hempty. unfold invoke. intros Hrun.
  apply (@run_raise cell w q Htext Hempty recursion_limit GenerateSQL
           (inputs cell q) [] log 0 e); [apply reach_start | apply accounted_start | | exact Hrun].
  unfold steps_left, recursion_limit. clear. lia.
Qed.

End RunClaims.

Lemma world_llm_lost_text : errors_have_text Scenario.world_llm_lost.
Proof. exact world_ok_text. Qed.

Lemma world_llm_lost_empty : rejects_empty Scenario.world_llm_lost.
Proof. exact world_ok_empty. Qed.

Lemma run_call_bounds_witness :
  db_calls (snd (invoke Scenario.world_llm_lost Scenario.who_is)) <= 3 /\
  llm_calls (snd (invoke Scenario.world_llm_lost Scenario.who_is)) <= 7.
Proof.
  apply (@run_call_bounds Z Scenario.world_llm_lost Scenario.who_is
           (fst (invoke Scenario.world_llm_lost Scenario.who_is))
           (snd (invoke Scenario.world_llm_lost Scenario.who_is))
           world_llm_lost_text world_llm_lost_empty).
  apply surjective_pairing.
Defined.


Lemma run_raises_with_model_witness :
  exists log0 m,
    llm_invoke Scenario.world_llm_lost (llm_calls log0) m = inr (str "Connection error.") /\
    snd (invoke Scenario.world_llm_lost Scenario.who_is) = log0 ++ [LLMCall m].
Proof.
  apply (@run_raises_with_model Z Scenario.world_llm_lost Scenario.who_is
           (str "Connection error.")
           (snd (invoke Scenario.world_llm_lost Scenario.who_is))
           world_llm_lost_text world_llm_lost_empty).
  vm_compute. reflexivity.
Defined.

Section Customers.

Lemma state_at_answer_reachable :
  reachable Scenario.world_customers Scenario.who_is GenerateAnswer
    Scenario.state_at_answer Scenario.log_at_answer.
Proof.
  eapply reach_step with (n := ExecuteSQL); [|discriminate|].
  - eapply reach_step with (n := CheckSQL); [|discriminate|].
    + eapply reach_step with (n := GenerateSQL); [apply reach_start|discriminate|].
      vm_compute. reflexivity.
    + vm_compute. reflexivity.
  - vm_compute. reflexivity.
Qed.

Lemma state_at_end_reachable :
  exists log,
    reachable Scenario.world_customers Scenario.who_is END Scenario.state_at_end log.
Proof.
  eexists. eapply reach_step with (n := GenerateAnswer);
    [apply state_at_answer_reachable|discriminate|].
  vm_compute. reflexivity.
Qed.

End Customers.

(* ================================================================= *)
(** * What the state and the messages hold *)

Section Messages.

Lemma findall_chars (s m : text) :
  In m (findall email_pattern s) ->
  Forall (fun c => in_pattern email_pattern c = true) m.
Proof.
  intros H. apply findall_from_inv in H as (x & y & _ & Hy).
  exact (@match_here_chars email_pattern email_pattern y m (fun it Hit => Hit) Hy).
Qed.

(** A text that occurs in [p ++ x], but neither in [p] nor across its
    last character, occurs in [x]. *)
Lemma occurs_after (v p front x : text) (last : ascii) :
  p = front ++ [last] -> ~ In last v -> contains v p = false ->
  contains v (p ++ x) = true -> contains v x = true.
Proof.
  intros Hp Hlast Hin H. apply contains_iff in H as (a & b & H).
  apply app_eq_app in H as [l [[Hnew Hx] | [Ha Hx]]].
  - destruct l as [|c l].
    + apply contains_iff. exists [], b. symmetry. exact Hx.
    + exfalso. symmetry in Hx. apply app_eq_app in Hx as [l2 [[Hcl Hb] | [Hv Hb]]].
      * assert (C : contains v p = true); [|congruence].
        apply contains_iff. exists a, l2. now rewrite Hnew, Hcl.
      * apply Hlast. rewrite Hv. apply in_or_app. left.
        apply (@suffix_has_last last (c :: l)) with (a := a) (u := front);
          [discriminate|]. now rewrite <- Hnew.
  - apply contains_iff. exists l, b. exact Hx.
Qed.

Lemma sanitized_of_free (q v : text) :
  In v (findall email_pattern q) -> plain v ->
  contains v (sanitized_of q) = false.
Proof.
  intros Hin Hplain.
  rewrite sanitized_of_eq, (fold_replace_all snd fst).
  destruct (findall_email _ _ Hin) as [Hat _].
  apply replace_all_free.
  - intros on Hon. apply in_map_iff in Hon as ([k e] & <- & Hkv). simpl. split.
    + unfold entries in Hkv. apply in_combine_r in Hkv.
      destruct (findall_email _ _ Hkv) as [He _]. intros ->. exact He.
    + assert (Hk : In k (dict_keys (entries 0 (findall email_pattern q))))
        by (apply (in_map fst) in Hkv; exact Hkv).
      apply entries_keys in Hk as (j & _ & ->).
      now apply email_apart_placeholder.
  - rewrite map_map. simpl.
    change (map (fun kv : text * text => snd kv) (entries 0 (findall email_pattern q)))
      with (dict_values (entries 0 (findall email_pattern q))).
    now rewrite entries_values.
Qed.

Lemma user_question_free (q v : text) :
  In v (findall email_pattern q) -> plain v ->
  contains v (str "User Question: " ++ sanitized_of q) = false.
Proof.
  intros Hin Hplain.
  destruct (contains v (str "User Question: " ++ sanitized_of q)) eqn:C; [|reflexivity].
  destruct (findall_email _ _ Hin) as [Hat _].
  pose proof (findall_chars _ _ Hin) as Hchars. rewrite Forall_forall in Hchars.
  apply (@occurs_after v (str "User Question: ") (str "User Question:") _ " "%char) in C.
  - now rewrite sanitized_of_free in C.
  - reflexivity.
  - intros Hsp. apply Hchars in Hsp. discriminate Hsp.
  - destruct (contains v (str "User Question: ")) eqn:D; [|reflexivity].
    exfalso. pose proof (@contains_has _ _ _ Hat D) as Hx.
    cbv [str list_ascii_of_string In at_sign] in Hx. intuition discriminate.
Qed.

End Messages.

(** X3.  An address without underscore that [pii_filter_input] found does not
    occur in the sanitized text any more. *)
Theorem sanitized_text_free (q v : text) :
  In v (dict_values (pii_map_of q)) -> plain v ->
  contains v (sanitized_of q) = false.
Proof.
  intros Hin Hplain. rewrite pii_map_values in Hin. now apply sanitized_of_free.
Qed.

Lemma sanitized_text_free_witness :
  contains (str "a@b.co") (sanitized_of Scenario.twice) = false.
Proof.
  apply sanitized_text_free.
  - vm_compute. now left.
  - cbv [plain str list_ascii_of_string In underscore]. intuition discriminate.
Defined.

Section StateClaims.

Variable cell : Type.
Variable w : World cell.

(** X9.  Whatever the store returns, the result kept in the state of a run
    holds no value of the placeholder map of the question, at any node. *)
Theorem query_result_redacted (q : text) (n : node) (st : AgentState cell)
    (log : list event) (r v : text) :
  reachable w q n st log ->
  query_result st = Some r ->
  In v (dict_values (pii_map_of q)) ->
  contains v r = false.
Proof.
  intros Hreach. revert r.
  induction Hreach as [|n st log next st' log' Hreach IH Hend Hrun]; intros r Hr Hv.
  - discriminate.
  - destruct (query_result_step w _ _ _ Hrun) as [E | (-> & conn & E)].
    + rewrite E in Hr. eauto.
    + apply reachable_invariant in Hreach. destruct Hreach as (_ & _ & [_ Hp] & _).
      rewrite E in Hr. injection Hr as <-. unfold get_pii_map. rewrite Hp.
      now apply redacted_result_free.
Qed.

(** X10.  When a run ends without error, the final answer holds no placeholder
    of the map, whatever the model wrote. *)
Theorem final_answer_scrubbed (q : text) (st : AgentState cell) (log : list event)
    (a k : text) :
  reachable w q END st log ->
  error_set st = false ->
  final_answer st = Some a ->
  In k (dict_keys (pii_map_of q)) ->
  contains k a = false.
Proof.
  intros Hreach. remember END as n eqn:En.
  destruct Hreach as [|n st log next st' log' Hreach Hend Hrun]; [discriminate|].
  subst next. intros Herr Ha Hk.
  apply reachable_invariant in Hreach. destruct Hreach as (_ & _ & Hn).
  destruct n; try congruence.
  - rewrite run_node_generate_sql in Hrun.
    destruct (llm_invoke w (llm_calls log) _); discriminate.
  - destruct Hn as [_ Hsql].
    destruct (sql_query st) as [sql|] eqn:E; [|congruence].
    rewrite (run_node_check_sql w st log E) in Hrun.
    destruct (unsafe_query sql); [discriminate|].
    destruct (llm_invoke w (llm_calls log) _); discriminate.
  - apply run_node_execute_inv in Hrun as ([Hx | Hx] & _); discriminate.
  - destruct Hn as [_ Hp].
    unfold run_node, bind, generate_answer_node in Hrun.
    destruct (error_set st) eqn:Ee.
    + exfalso. unfold bind, subscript in Hrun.
      destruct (error st) as [e|] eqn:He; [|discriminate].
      injection Hrun as <- _. unfold error_set in *. simpl in Herr.
      rewrite He in *. congruence.
    + unfold bind, subscript in Hrun.
      destruct (sanitized_question st); [|discriminate].
      destruct (sql_query st); [|discriminate].
      destruct (query_result st); [|discriminate].
      unfold ret at 1 2 3 in Hrun. unfold call_llm in Hrun.
      destruct (llm_invoke w (llm_calls log) _) as [content|]; [|discriminate].
      injection Hrun as <- _. simpl in Ha. injection Ha as <-.
      unfold get_pii_map. rewrite Hp.
      apply scrub_free; [apply pii_map_keys | exact Hk].
Qed.

(** X11.  What [generate_sql_node] sends to the model about the question: a
    human message in which no address of the question without underscore
    occurs.  The call is made, and logged, also when it raises. *)
Theorem generate_sql_message_free (st : AgentState cell) (log log' : list event)
    (o : outcome (Update cell)) (v : text) :
  generate_sql_node w st log = (o, log') ->
  In v (dict_values (pii_map_of (question st))) -> plain v ->
  exists system human,
    log' = log ++ [LLMCall [ (System, system); (Human, human) ]] /\
    contains v human = false.
Proof.
  intros Hrun Hv Hplain. rewrite pii_map_values in Hv.
  rewrite generate_sql_node_eq in Hrun. cbv zeta in Hrun.
  exists (generate_sql_prompt (get_table_info w)),
         (str "User Question: " ++ sanitized_of (question st)).
  split; [|now apply user_question_free].
  unfold generate_sql_messages in Hrun.
  destruct (llm_invoke w (llm_calls log) _); now injection Hrun as _ <-.
Qed.

(** X12.  [execute_sql_node] turns every failure of its body into an update of
    the state; it raises only when [retry_count] is missing, and then a
    [KeyError] takes the place of the failure. *)
Theorem execute_sql_node_outcome (st : AgentState cell) (log log' : list event)
    (o : outcome (Update cell)) :
  execute_sql_node w st log = (o, log') ->
  match o with
  | Ret u =>
      (exists safe ch, u = executed safe ch /\ error (apply_update u st) = error st) \/
      (exists e n, retry_count st = Some n /\ u = failed cell e (n + 1))
  | Raise e => retry_count st = None /\ e = str "'retry_count'"
  end.
Proof.
  intros Hrun. destruct o as [u|e].
  - apply execute_sql_node_frame in Hrun as [(safe & ch & ->) | H]; [left|right]; eauto.
  - revert Hrun. unfold execute_sql_node, try_except, bind, subscript.
    destruct (sql_query st) as [sql|].
    + unfold ret at 1. unfold call_db.
      destruct (read_sql_query w (db_calls log) _); [discriminate|].
      destruct (retry_count st); [discriminate|].
      unfold raise. now intros [= <- _].
    + unfold raise at 1. destruct (retry_count st); [discriminate|].
      unfold raise. now intros [= <- _].
Qed.

End StateClaims.

Lemma query_result_redacted_witness :
  contains (str "a@b.co")
    (str "   customer_id   email" ++ nl :: str "0            7  [EMAIL_REDACTED]") = false.
Proof.
  apply (@query_result_redacted Z Scenario.world_customers Scenario.who_is
           GenerateAnswer Scenario.state_at_answer Scenario.log_at_answer
           _ (str "a@b.co") state_at_answer_reachable eq_refl).
  vm_compute. now left.
Defined.

Lemma final_answer_scrubbed_witness :
  contains (str "__EMAIL_1__") (str "Yes, [EMAIL_REDACTED] is a customer.") = false.
Proof.
  destruct state_at_end_reachable as [log Hreach].
  apply (@final_answer_scrubbed Z Scenario.world_customers Scenario.who_is
           Scenario.state_at_end log _ (str "__EMAIL_1__") Hreach eq_refl eq_refl).
  vm_compute. now left.
Defined.

Lemma generate_sql_message_free_witness :
  exists system human,
    snd (generate_sql_node Scenario.world_ok (inputs Z Scenario.who_is) []) =
      [] ++ [LLMCall [ (System, system); (Human, human) ]] /\
    contains (str "a@b.co") human = false.
Proof.
  apply (@generate_sql_message_free Z Scenario.world_ok (inputs Z Scenario.who_is) []
           (snd (generate_sql_node Scenario.world_ok (inputs Z Scenario.who_is) []))
           (fst (generate_sql_node Scenario.world_ok (inputs Z Scenario.who_is) []))
           (str "a@b.co")).
  - apply surjective_pairing.
  - vm_compute. now left.
  - cbv [plain str list_ascii_of_string In underscore]. intuition discriminate.
Defined.

Lemma execute_sql_node_outcome_witness :
  retry_count (Scenario.state_without_count Scenario.select_by_email) = None /\
  str "'retry_count'" = str "'retry_count'".
Proof.
  apply (@execute_sql_node_outcome Z Scenario.world_no_table
           (Scenario.state_without_count Scenario.select_by_email) []
           [DBCall Scenario.select_by_email] (Raise (str "'retry_count'"))).
  vm_compute. reflexivity.
Defined.

Section Silent.

Variable cell : Type.
Variable w : World cell.

Hypothesis Hsilent : forall sql, read_sql_query w 0 sql = inr [].

(** After a first execution that fails without a message, the run goes
    on to [generate_answer], which looks for a result. *)
Lemma run_execute_silent (limit : nat) (st : AgentState cell) (log : list event)
    (sql s : text) (n : Z) :
  sql_query st = Some sql -> retry_count st = Some n ->
  query_result st = None -> sanitized_question st = Some s ->
  db_calls log = 0 ->
  run w (S (S limit)) ExecuteSQL st log =
  (Raise (str "'query_result'"), log ++ [DBCall (rehydrate sql (get_pii_map st))]).
Proof.
  intros Hq Hn Hr Hs Hdb.
  rewrite run_S by discriminate. unfold run_node at 1, bind at 1.
  rewrite (execute_sql_node_eq w st log Hq). cbv zeta.
  rewrite Hdb, Hsilent, Hn.
  unfold bind, should_retry, error_set. cbn [apply_update failed u_error error truthy].
  unfold ret. rewrite run_S by discriminate.
  unfold run_node, bind, generate_answer_node, error_set.
  cbn [apply_update failed u_error error truthy u_sanitized_question u_sql_query
       u_query_result sanitized_question sql_query query_result set_or_keep].
  rewrite Hs, Hq, Hr. reflexivity.
Qed.

End Silent.

(** X13.  When the first execution raises an exception whose text is empty, the
    error left in the state counts as none: the run does not retry, and
    [generate_answer_node] raises [KeyError('query_result')] after that
    one execution. *)
Theorem silent_failure_raises (cell : Type) (w : World cell) (q : text) :
  llm_returns w ->
  (forall sql, read_sql_query w 0 sql = inr []) ->
  exists log,
    invoke w q = (Raise (str "'query_result'"), log) /\ db_calls log = 1.
Proof.
  intros Hllm Hsilent. unfold invoke, recursion_limit.
  rewrite run_S by discriminate. rewrite run_node_generate_sql. cbv zeta.
  destruct (Hllm (llm_calls [])
              (generate_sql_messages (get_table_info w)
                 (sanitized_of (question (inputs cell q))))) as [r Hr].
  rewrite Hr.
  set (st1 := apply_update _ (inputs cell q)). set (log1 := [] ++ _).
  assert (Hl1 : db_calls log1 = 0) by reflexivity.
  rewrite run_S by discriminate.
  rewrite (@run_node_check_sql cell w st1 log1 (strip_fences r) eq_refl).
  destruct (unsafe_query (strip_fences r)).
  - eexists. split.
    + apply (@run_execute_silent cell w Hsilent 21 (apply_update (blocked cell) st1)
               log1 [] (sanitized_of q) 0%Z); reflexivity.
    + now rewrite db_calls_db, Hl1.
  - cbv zeta.
    destruct (Hllm (llm_calls log1)
                [ (System, check_sql_prompt (get_table_info w) (strip_fences r)) ])
      as [r2 Hr2].
    rewrite Hr2.
    destruct (apply_verdict r2 st1) as (_ & H2 & _ & H4 & H5 & _ & H7).
    destruct (sql_query (apply_update (verdict cell r2) st1)) as [sql'|] eqn:E';
      [|exfalso; apply H7; [discriminate | reflexivity]].
    eexists. split.
    + apply (@run_execute_silent cell w Hsilent 21 (apply_update (verdict cell r2) st1)
               _ sql' (sanitized_of q) 0%Z); auto; try now rewrite db_calls_llm.
    + now rewrite db_calls_db, db_calls_llm, Hl1.
Qed.

Lemma silent_failure_raises_witness :
  exists log,
    invoke Scenario.world_silent Scenario.who_is = (Raise (str "'query_result'"), log) /\
    db_calls log = 1.
Proof.
  apply (@silent_failure_raises Z Scenario.world_silent Scenario.who_is).
  - intros k m. apply llm_fixed_returns.
  - reflexivity.
Defined.

(* ================================================================= *)
(** * Code fences *)

Section Fences.

Lemma fence_eq : fence = [tick; tick; tick].
Proof. reflexivity. Qed.

Lemma fence_nonempty : fence <> [].
Proof. discriminate. Qed.

Lemma unfenced_head1 (s : text) :
  starts_with [tick] (replace s fence []) = true -> starts_with [tick] s = true.
Proof.
  destruct s as [|c s]; [now rewrite replace_nil by exact fence_nonempty|].
  destruct (starts_with fence (c :: s)) eqn:E.
  - intros _. apply starts_with_iff in E as [r Hr]. now rewrite Hr.
  - rewrite replace_miss by (auto using fence_nonempty). cbn [starts_with]. auto.
Qed.

Lemma unfenced_head2 (s : text) :
  starts_with [tick; tick] (replace s fence []) = true ->
  starts_with [tick; tick] s = true.
Proof.
  destruct s as [|c s]; [now rewrite replace_nil by exact fence_nonempty|].
  destruct (starts_with fence (c :: s)) eqn:E.
  - intros _. apply starts_with_iff in E as [r Hr]. now rewrite Hr.
  - rewrite replace_miss by (auto using fence_nonempty).
    change (starts_with [tick; tick] (c :: replace s fence []))
      with (Ascii.eqb tick c && starts_with [tick] (replace s fence [])).
    change (starts_with [tick; tick] (c :: s))
      with (Ascii.eqb tick c && starts_with [tick] s).
    intros H. apply andb_true_iff in H as [H1 H2].
    now rewrite H1, (unfenced_head1 s H2).
Qed.

(** Taking the fences out of a text leaves none: a fence is three times
    one character, so what is left of a row of them is too short. *)
Lemma replace_fence_free (n : nat) :
  forall s, length s <= n -> contains fence (replace s fence []) = false.
Proof.
  induction n as [|n IH]; intros s Hlen.
  - destruct s; [|simpl in Hlen; lia]. now rewrite replace_nil by exact fence_nonempty.
  - destruct s as [|c s]; [now rewrite replace_nil by exact fence_nonempty|].
    destruct (starts_with fence (c :: s)) eqn:E.
    + apply starts_with_iff in E as [r Hr]. rewrite Hr in *.
      rewrite replace_hit by exact fence_nonempty. apply IH.
      rewrite length_app in Hlen. simpl in Hlen. lia.
    + rewrite replace_miss by (auto using fence_nonempty).
      cbn [contains]. rewrite IH by (simpl in Hlen; lia). rewrite orb_false_r.
      destruct (starts_with fence (c :: replace s fence [])) eqn:S; [|reflexivity].
      exfalso. revert S E.
      change (starts_with fence (c :: replace s fence []))
        with (Ascii.eqb tick c && starts_with [tick; tick] (replace s fence [])).
      change (starts_with fence (c :: s))
        with (Ascii.eqb tick c && starts_with [tick; tick] s).
      intros S E. apply andb_true_iff in S as [S1 S2].
      rewrite S1, (unfenced_head2 s S2) in E. discriminate E.
Qed.

Lemma lstrip_suffix (s : text) : exists a, s = a ++ lstrip s.
Proof.
  induction s as [|c s [a IH]]; [now exists []|]. simpl.
  destruct (isspace c); [|now exists []].
  exists (c :: a). simpl. now rewrite <- IH.
Qed.

Lemma rstrip_prefix (s : text) : exists b, s = rstrip s ++ b.
Proof.
  unfold rstrip. destruct (lstrip_suffix (rev s)) as [a Ha].
  exists (rev a). rewrite <- rev_app_distr, <- Ha. now rewrite rev_involutive.
Qed.

(** [strip] returns a piece of its argument. *)
Lemma strip_piece (s : text) : exists a b, s = a ++ strip s ++ b.
Proof.
  unfold strip. destruct (lstrip_suffix s) as [a Ha].
  destruct (rstrip_prefix (lstrip s)) as [b Hb].
  exists a, b. now rewrite <- Hb.
Qed.

Lemma contains_strip (u s : text) :
  contains u (strip s) = true -> contains u s = true.
Proof.
  intros H. apply contains_iff in H as (x & y & H).
  destruct (strip_piece s) as (a & b & Hs).
  apply contains_iff. exists (a ++ x), (y ++ b).
  rewrite Hs at 1. rewrite H. now rewrite <- !app_assoc.
Qed.

Lemma strip_fences_free (s : text) : contains fence (strip_fences s) = false.
Proof.
  unfold strip_fences.
  destruct (contains fence (strip _)) eqn:C; [|reflexivity].
  apply contains_strip in C.
  now rewrite (@replace_fence_free (length (replace s fence_sql [])) _ (le_n _)) in C.
Qed.

(** [split_at_first] stops at the first place where [sep] begins. *)
Lemma split_at_first_spec (sep : text) :
  forall s before after,
    split_at_first sep s = Some (before, after) ->
    exists r,
      s = before ++ r /\
      forall x y, before = x ++ y -> y <> [] -> starts_with sep (y ++ r) = false.
Proof.
  induction s as [|c s IH]; intros before after.
  - cbn [split_at_first]. destruct (starts_with sep []); [|discriminate].
    intros [= <- _]. exists []. split; [reflexivity|].
    intros x y H. apply eq_sym, app_eq_nil in H as [_ ->]. congruence.
  - cbn [split_at_first]. destruct (starts_with sep (c :: s)) eqn:E.
    + intros [= <- _]. exists (c :: s). split; [reflexivity|].
      intros x y H. apply eq_sym, app_eq_nil in H as [_ ->]. congruence.
    + destruct (split_at_first sep s) as [[b a]|] eqn:Es; [|discriminate].
      intros [= <- <-]. destruct (IH b a eq_refl) as (r & Hs & Hr).
      exists r. split; [simpl; now rewrite Hs|].
      intros [|c' x] y H Hy; simpl in H.
      * subst y. simpl. now rewrite <- Hs.
      * injection H as _ H. now apply (Hr x y).
Qed.

(** The text before the first occurrence of [sep] holds none. *)
Lemma split_at_first_before (sep s before after : text) :
  sep <> [] ->
  split_at_first sep s = Some (before, after) -> contains sep before = false.
Proof.
  intros Hsep H. apply split_at_first_spec in H as (r & _ & Hr).
  destruct (contains sep before) eqn:C; [|reflexivity].
  apply contains_iff in C as (x & y & Hb).
  assert (F : starts_with sep ((sep ++ y) ++ r) = false).
  { apply (Hr x (sep ++ y) Hb). destruct sep; [congruence | discriminate]. }
  assert (T : starts_with sep ((sep ++ y) ++ r) = true).
  { apply starts_with_iff. exists (y ++ r). now rewrite app_assoc. }
  congruence.
Qed.

(** The statement [check_sql_node] takes from the model's answer holds no
    fence. *)
Lemma verdict_query_free (cell : Type) (r sql : text) :
  u_sql_query (verdict cell r) = Some sql -> contains fence sql = false.
Proof.
  unfold verdict. destruct (contains _ (upper _)); [discriminate|].
  destruct (contains fence_sql (strip r)).
  - unfold search_fenced.
    destruct (split_at_first fence_sql (strip r)) as [[b rest]|].
    + destruct (split_at_first fence rest) as [[body a]|] eqn:E.
      * intros [= <-]. destruct (contains fence (strip body)) eqn:C; [|reflexivity].
        apply contains_strip in C.
        now rewrite (@split_at_first_before _ _ _ _ fence_nonempty E) in C.
      * intros [= <-]. apply strip_fences_free.
    + intros [= <-]. apply strip_fences_free.
  - intros [= <-]. apply strip_fences_free.
Qed.

End Fences.

(** X14.  What [generate_sql_node] and [check_sql_node] make of the model's
    text, [.replace("```sql", "").replace("```", "").strip()], holds no
    fence. *)
Theorem strip_fences_no_fence (s : text) : contains fence (strip_fences s) = false.
Proof. apply strip_fences_free. Qed.

Section Queries.

Variable cell : Type.
Variable w : World cell.

(** A node leaves [sql_query] as it is or writes a statement without
    fence. *)
Lemma sql_query_step (n next : node) (st st' : AgentState cell)
    (log log' : list event) :
  run_node w n st log = (Ret (next, st'), log') ->
  sql_query st' = sql_query st \/
  exists sql, sql_query st' = Some sql /\ contains fence sql = false.
Proof.
  intros Hrun. destruct n.
  - rewrite run_node_generate_sql in Hrun.
    destruct (llm_invoke w (llm_calls log) _) as [r|]; [|discriminate].
    injection Hrun as <- <- _. right. exists (strip_fences r).
    split; [reflexivity | apply strip_fences_free].
  - unfold run_node, bind, check_sql_node, bind, subscript in Hrun.
    destruct (sql_query st) as [sql|] eqn:E; [|discriminate].
    unfold ret at 1 in Hrun. destruct (unsafe_query sql).
    + injection Hrun as <- <- _. right. exists []. split; reflexivity.
    + unfold call_llm in Hrun.
      destruct (llm_invoke w (llm_calls log) _) as [r|]; [|discriminate].
      injection Hrun as <- <- _.
      destruct (u_sql_query (verdict cell r)) as [sql'|] eqn:Ev.
      * right. exists sql'. split; [simpl; now rewrite Ev|].
        exact (verdict_query_free cell r Ev).
      * left. simpl. now rewrite Ev.
  - apply run_node_execute_inv in Hrun
      as (_ & u & -> & [(safe & ch & ->) | (e & m & _ & ->)]); now left.
  - unfold run_node, bind in Hrun.
    destruct (generate_answer_node w st log) as [[u|e] log1] eqn:E; [|discriminate].
    apply generate_answer_node_frame in E as [a ->].
    injection Hrun as <- <- _. now left.
  - injection Hrun as <- <- _. now left.
Qed.

Lemma reachable_query_free (q : text) (n : node) (st : AgentState cell)
    (log : list event) (sql : text) :
  reachable w q n st log ->
  sql_query st = Some sql ->
  contains fence sql = false.
Proof.
  intros Hreach. revert sql.
  induction Hreach as [|n st log next st' log' Hreach IH Hend Hrun]; intros sql Hsql.
  - discriminate.
  - destruct (sql_query_step _ _ _ Hrun) as [E | (sql' & E & Hfree)].
    + rewrite E in Hsql. eauto.
    + congruence.
Qed.

(** X15.  The statement kept in the state of a run holds no code fence,
    whatever the model wrote. *)
Theorem sql_query_no_fence (q : text) (n : node) (st : AgentState cell)
    (log : list event) (sql : text) :
  reachable w q n st log ->
  sql_query st = Some sql ->
  contains fence sql = false.
Proof. apply reachable_query_free. Qed.

End Queries.

Lemma sql_query_no_fence_witness :
  contains fence Scenario.select_by_email = false.
Proof.
  apply (@sql_query_no_fence Z Scenario.world_customers Scenario.who_is
           GenerateAnswer Scenario.state_at_answer Scenario.log_at_answer
           Scenario.select_by_email state_at_answer_reachable eq_refl).
Defined.

(* ================================================================= *)
(** * Results and charts *)

Section Charts.

Variable cell : Type.
Variable w : World cell.
Variable q : text.

Lemma fresh_step (n next : node) (st st' : AgentState cell) (log log' : list event) :
  rejects_empty w ->
  invariant q n st -> fresh n st -> n <> END ->
  run_node w n st log = (Ret (next, st'), log') ->
  fresh next st'.
Proof.
  intros Hempty (_ & _ & Hn) Hf Hend Hrun. destruct n; try congruence.
  - rewrite run_node_generate_sql in Hrun.
    destruct (llm_invoke w (llm_calls log) _); [|discriminate].
    injection Hrun as <- <- _. exact Hf.
  - destruct Hn as [_ Hsql].
    destruct (sql_query st) as [sql|] eqn:E; [|congruence].
    rewrite (run_node_check_sql w st log E) in Hrun.
    destruct (unsafe_query sql).
    + injection Hrun as <- <- _. exact Hf.
    + destruct (llm_invoke w (llm_calls log) _) as [r|]; [|discriminate].
      injection Hrun as <- <- _. destruct Hf as [Hf1 Hf2].
      destruct (verdict_frame cell r) as (_ & _ & _ & _ & H5 & _).
      assert (H6 : u_chart_data (verdict cell r) = None).
      { unfold verdict. destruct (contains _ (upper _)); [reflexivity|].
        destruct (if contains fence_sql (strip r) then _ else _); reflexivity. }
      split; simpl; [now rewrite H5 | now rewrite H6].
  - destruct Hn as ([_ Hp] & sql & Hsql & Herr).
    assert (Hpii : get_pii_map st = pii_map_of q) by (unfold get_pii_map; now rewrite Hp).
    destruct (read_sql_query w (db_calls log) (rehydrate sql (get_pii_map st)))
      as [conn|e] eqn:Hread.
    + assert (He : error st = None).
      { destruct Herr as [He | [-> He]]; [exact He|].
        rewrite Hpii, rehydrate_nil_pii_map in Hread.
        destruct (Hempty (db_calls log)) as [e He']. congruence. }
      rewrite (run_node_execute_ok w st log Hsql He Hread) in Hrun.
      injection Hrun as <- <- _. left. exact He.
    + pose proof (run_node_execute_inv w st log Hrun) as (Hnext & _).
      apply run_node_execute_result in Hrun as (u & Hu & -> & _).
      apply execute_sql_node_result in Hu
        as [(sql' & conn & Hsql' & Hread' & _) | (e' & k & _ & -> & _)].
      * rewrite Hsql in Hsql'. injection Hsql' as <-. congruence.
      * destruct Hnext as [-> | ->]; [exact Hf | right; exact Hf].
  - unfold run_node, bind in Hrun.
    destruct (generate_answer_node w st log) as [[u|e] log1] eqn:E; [|discriminate].
    apply generate_answer_node_frame in E as [a ->].
    injection Hrun as <- <- _. exact Hf.
Qed.

Lemma reachable_fresh (n : node) (st : AgentState cell) (log : list event) :
  rejects_empty w -> reachable w q n st log -> fresh n st.
Proof.
  intros Hempty.
  induction 1 as [|n st log next st' log' Hreach IH Hend Hrun].
  - split; reflexivity.
  - eapply fresh_step; eauto.
    now apply reachable_invariant with (w := w) (log := log).
Qed.

(** [chart_data] is written by a successful execution only, from the
    frame the store returned. *)
Lemma chart_data_step (n next : node) (st st' : AgentState cell)
    (log log' : list event) :
  run_node w n st log = (Ret (next, st'), log') ->
  chart_data st' = chart_data st \/
  exists sql conn,
    read_sql_query w (db_calls log) sql = inl conn /\
    chart_data st' = Some (chart_of conn).
Proof.
  intros Hrun. destruct n.
  - rewrite run_node_generate_sql in Hrun.
    destruct (llm_invoke w (llm_calls log) _); [|discriminate].
    injection Hrun as <- <- _. now left.
  - unfold run_node, bind, check_sql_node, bind, subscript in Hrun.
    destruct (sql_query st) as [sql|]; [|discriminate].
    unfold ret at 1 in Hrun. destruct (unsafe_query sql).
    + injection Hrun as <- <- _. now left.
    + unfold call_llm in Hrun.
      destruct (llm_invoke w (llm_calls log) _) as [r|]; [|discriminate].
      injection Hrun as <- <- _. left.
      assert (H6 : u_chart_data (verdict cell r) = None).
      { unfold verdict. destruct (contains _ (upper _)); [reflexivity|].
        destruct (if contains fence_sql (strip r) then _ else _); reflexivity. }
      simpl. now rewrite H6.
  - apply run_node_execute_result in Hrun as (u & Hu & -> & _).
    apply execute_sql_node_result in Hu
      as [(sql & conn & _ & Hread & -> & _) | (e & k & _ & -> & _)].
    + right. eauto.
    + now left.
  - unfold run_node, bind in Hrun.
    destruct (generate_answer_node w st log) as [[u|e] log1] eqn:E; [|discriminate].
    apply generate_answer_node_frame in E as [a ->].
    injection Hrun as <- <- _. now left.
  - injection Hrun as <- <- _. now left.
Qed.

Lemma reachable_chart (n : node) (st : AgentState cell) (log : list event)
    (ch : chart cell) :
  reachable w q n st log -> chart_data st = Some ch ->
  exists k sql conn, read_sql_query w k sql = inl conn /\ ch = chart_of conn.
Proof.
  intros Hreach. revert ch.
  induction Hreach as [|n st log next st' log' Hreach IH Hend Hrun]; intros ch Hch.
  - discriminate.
  - destruct (chart_data_step _ _ _ Hrun) as [E | (sql & conn & Hread & E)].
    + rewrite E in Hch. eauto.
    + rewrite E in Hch. injection Hch as <-. eauto.
Qed.

Lemma iloc_col_length (conn : DataFrame cell) (j : nat) :
  rectangular conn -> j < length (df_columns conn) ->
  length (iloc_col j conn) = df_len conn.
Proof.
  intros Hrect Hj. unfold iloc_col, df_columns in *. rewrite length_map in Hj.
  pose proof (nth_In (df_series conn) ([], []) Hj) as Hin.
  destruct (nth j (df_series conn) ([], [])) as [name values].
  simpl. now apply (Hrect name).
Qed.

Lemma chart_of_plottable (conn : DataFrame cell) :
  rectangular conn -> plottable (chart_of conn).
Proof.
  intros Hrect. unfold chart_of.
  destruct (negb (df_empty conn) && (2 <=? length (df_columns conn))) eqn:E;
    [|exact I].
  apply andb_true_iff in E as [E1 E2]. apply Nat.leb_le in E2.
  apply negb_true_iff in E1. unfold df_empty in E1.
  apply orb_false_iff in E1 as [_ E1]. apply Nat.eqb_neq in E1.
  split; [exact E2|].
  rewrite !iloc_col_length by (auto; lia). split; [reflexivity|].
  intros H. apply (f_equal (@length cell)) in H.
  rewrite iloc_col_length in H by (auto; lia). simpl in H. lia.
Qed.

End Charts.

(* ================================================================= *)
(** * The chat page *)

Import Main.

Section Returned.

Variable cell : Type.
Variable w : World cell.
Variable q : text.

(** A run that returns passed through the configurations of [reachable]. *)
Lemma run_reachable (limit : nat) :
  forall (n : node) (st st' : AgentState cell) (log log' : list event),
    reachable w q n st log ->
    run w limit n st log = (Ret st', log') ->
    reachable w q END st' log'.
Proof.
  induction limit as [|limit IH]; intros n st st' log log' Hreach Hrun.
  - destruct n; try discriminate. injection Hrun as <- <-. exact Hreach.
  - destruct (node_eq_END n) as [-> | Hend].
    + rewrite run_END in Hrun. injection Hrun as <- <-. exact Hreach.
    + rewrite run_S in Hrun by exact Hend.
      destruct (run_node w n st log) as [[[next st1]|e] log1] eqn:Hstep; [|discriminate].
      apply (IH next st1 st' log1 log'); [|exact Hrun].
      eapply reach_step; eauto.
Qed.

Lemma invoke_reachable (st : AgentState cell) (log : list event) :
  invoke w q = (Ret st, log) -> reachable w q END st log.
Proof. unfold invoke. apply run_reachable, reach_start. Qed.

(** From [check_sql] on the state holds a statement. *)
Lemma reachable_query (n : node) (st : AgentState cell) (log : list event) :
  reachable w q n st log -> n = GenerateSQL \/ sql_query st <> None.
Proof.
  induction 1 as [|n st log next st' log' Hreach IH Hend Hrun]; [now left|].
  right. destruct n; try congruence.
  - rewrite run_node_generate_sql in Hrun.
    destruct (llm_invoke w (llm_calls log) _); [|discriminate].
    injection Hrun as _ <- _. discriminate.
  - destruct IH as [IH | IH]; [discriminate|].
    destruct (sql_query_step w _ _ _ Hrun) as [E | (sql & E & _)]; congruence.
  - destruct IH as [IH | IH]; [discriminate|].
    destruct (sql_query_step w _ _ _ Hrun) as [E | (sql & E & _)]; congruence.
  - destruct IH as [IH | IH]; [discriminate|].
    destruct (sql_query_step w _ _ _ Hrun) as [E | (sql & E & _)]; congruence.
Qed.

(** A run ends in [generate_answer], which writes the answer. *)
Lemma reachable_end_answer (st : AgentState cell) (log : list event) :
  reachable w q END st log -> final_answer st <> None.
Proof.
  intros Hreach. remember END as n eqn:En.
  destruct Hreach as [|n st log next st' log' Hreach Hend Hrun]; [discriminate|].
  subst next. apply reachable_invariant in Hreach. destruct Hreach as (_ & _ & Hn).
  destruct n; try congruence.
  - rewrite run_node_generate_sql in Hrun.
    destruct (llm_invoke w (llm_calls log) _); discriminate.
  - destruct Hn as [_ Hsql].
    destruct (sql_query st) as [sql|] eqn:E; [|congruence].
    rewrite (run_node_check_sql w st log E) in Hrun.
    destruct (unsafe_query sql); [discriminate|].
    destruct (llm_invoke w (llm_calls log) _); discriminate.
  - apply run_node_execute_inv in Hrun as ([Hx | Hx] & _); discriminate.
  - unfold run_node, bind in Hrun.
    destruct (generate_answer_node w st log) as [[u|e] log1] eqn:E; [|discriminate].
    apply generate_answer_node_frame in E as [a ->].
    injection Hrun as <- _. discriminate.
Qed.

Lemma plottable_frame (labels values : list cell) (columns : list text) :
  plottable (Chart labels values columns) ->
  (0 <? length values) = true /\
  exists c0 c1,
    nth_error columns 0 = Some c0 /\ nth_error columns 1 = Some c1 /\
    chart_frame labels values columns =
    inr (if text_eqb c0 c1
         then {| plot_index := values; plot_columns := [] |}
         else {| plot_index := labels; plot_columns := [ (Name c1, values) ] |}) /\
    replay_frame labels values =
    inr {| plot_index := labels; plot_columns := [ (Position 0, values) ] |}.
Proof.
  intros (Hc & Hlen & Hne). split.
  - apply Nat.ltb_lt. destruct values; [congruence | simpl; lia].
  - destruct columns as [|c0 [|c1 columns]]; simpl in Hc; try lia.
    exists c0, c1. repeat split.
    + unfold chart_frame. simpl. destruct (text_eqb c0 c1); [reflexivity|].
      now rewrite Hlen, Nat.eqb_refl.
    + unfold replay_frame. destruct values; [congruence|].
      now rewrite Hlen, Nat.eqb_refl.
Qed.

Lemma invoke_plottable (st : AgentState cell) (log : list event) (ch : chart cell) :
  frames_rectangular w ->
  invoke w q = (Ret st, log) -> chart_data st = Some ch -> plottable ch.
Proof.
  intros Hrect Hrun Hch. apply invoke_reachable in Hrun.
  destruct (reachable_chart Hrun Hch) as (k & sql & conn & Hread & ->).
  apply chart_of_plottable. exact (Hrect _ _ _ Hread).
Qed.

End Returned.

Section PageLemmas.

Variable cell : Type.
Variable w : World cell.

Lemma chat_turn_ret (show_sql : bool) (prompt : text)
    (messages : list (chat_message cell)) (result : AgentState cell)
    (log : list event) :
  frames_rectangular w ->
  invoke w prompt = (Ret result, log) ->
  exists plot,
    chat_turn w show_sql prompt messages =
    ((messages ++ [ {| m_role := User; m_content := prompt; m_chart := None |} ]) ++
     [ {| m_role := Assistant; m_content := response_content show_sql result;
          m_chart := Some (chart_data result) |} ],
     [ Markdown cell User prompt ] ++
     [ Markdown cell Assistant (response_content show_sql result) ] ++ plot) /\
    match chart_data result with
    | Some (Chart labels values columns) =>
        exists df_chart,
          chart_frame labels values columns = inr df_chart /\
          plot = [ Subheader cell (str "Visual Analysis"); Tabs cell;
                   BarChart df_chart; DataFrameView df_chart ]
    | _ => plot = []
    end.
Proof.
  intros Hrect Hrun. unfold chat_turn. rewrite Hrun. cbn [fst].
  destruct (chart_data result) as [[|labels values columns]|] eqn:Hch.
  - exists []. split; [|reflexivity]. cbn [plot_chart]. now rewrite <- app_assoc.
  - pose proof (@invoke_plottable cell w prompt _ _ _ Hrect Hrun Hch) as Hp.
    apply plottable_frame in Hp as (Hv & c0 & c1 & _ & _ & Hf & _).
    eexists. split.
    + cbn [plot_chart]. rewrite Hv, Hf. rewrite <- app_assoc. reflexivity.
    + eexists. split; [exact Hf | reflexivity].
  - exists []. split; [|reflexivity]. cbn [plot_chart]. now rewrite <- app_assoc.
Qed.

Lemma replay_app (a b : list (chat_message cell)) :
  replay (a ++ b) =
  match replay a with
  | inl e => inl e
  | inr pa =>
      match replay b with
      | inr pb => inr (pa ++ pb)
      | inl e => inl e
      end
  end.
Proof.
  induction a as [|m a IH]; simpl.
  - destruct (replay b); reflexivity.
  - destruct (match m_chart m with Some (Some (Chart _ _ _)) => _ | _ => _ end)
      as [e|page]; [reflexivity|].
    rewrite IH. destruct (replay a) as [e|pa]; [reflexivity|].
    destruct (replay b) as [e|pb]; [reflexivity|]. now rewrite app_assoc.
Qed.

End PageLemmas.

Section PageClaims.

Variable cell : Type.
Variable w : World cell.

(** X17.  After a run that returned, the history has grown by the question and
    the answer, and the page shows them; a chart follows exactly when the
    state holds a non-empty chart, and building it does not fail (the
    store returning rectangular frames). *)
Theorem chat_turn_page (show_sql : bool) (prompt : text)
    (messages : list (chat_message cell)) (result : AgentState cell)
    (log : list event) :
  frames_rectangular w ->
  invoke w prompt = (Ret result, log) ->
  exists plot,
    chat_turn w show_sql prompt messages =
    ((messages ++ [ {| m_role := User; m_content := prompt; m_chart := None |} ]) ++
     [ {| m_role := Assistant; m_content := response_content show_sql result;
          m_chart := Some (chart_data result) |} ],
     [ Markdown cell User prompt ] ++
     [ Markdown cell Assistant (response_content show_sql result) ] ++ plot) /\
    match chart_data result with
    | Some (Chart labels values columns) =>
        exists df_chart,
          chart_frame labels values columns = inr df_chart /\
          plot = [ Subheader cell (str "Visual Analysis"); Tabs cell;
                   BarChart df_chart; DataFrameView df_chart ]
    | _ => plot = []
    end.
Proof. apply chat_turn_ret. Qed.

(** X18.  The error box is on the page exactly when the run raised. *)
Theorem error_box_iff_run_raises (show_sql : bool) (prompt : text)
    (messages : list (chat_message cell)) :
  frames_rectangular w ->
  (exists e, fst (invoke w prompt) = Raise e) <->
  (exists s, In (ErrorBox cell s) (snd (chat_turn w show_sql prompt messages))).
Proof.
  intros Hrect.
  destruct (invoke w prompt) as [[result|e] log] eqn:Hrun.
  - destruct (@chat_turn_ret cell w show_sql prompt messages result log Hrect Hrun) as (plot & -> & Hplot).
    cbn [fst snd]. split; [intros [e He]; discriminate He|].
    intros [s Hs]. exfalso.
    destruct Hs as [Hs | [Hs | Hs]]; try discriminate Hs.
    destruct (chart_data result) as [[|labels values columns]|].
    + now subst plot.
    + destruct Hplot as (df & _ & ->).
      repeat (destruct Hs as [Hs | Hs]; [discriminate Hs|]). exact Hs.
    + now subst plot.
  - unfold chat_turn. rewrite Hrun. cbn [fst snd]. split.
    + intros _. exists (str "An error occurred: " ++ e). right. now left.
    + intros _. now exists e.
Qed.

(** X19.  After a run that returned, the fallback texts are not used: the text
    shown is the final answer, followed, when the statement is to be
    shown, by the statement of the state between the fences; the statement
    holds no fence of its own. *)
Theorem response_content_of_run (prompt : text) (result : AgentState cell)
    (log : list event) :
  invoke w prompt = (Ret result, log) ->
  exists answer sql,
    final_answer result = Some answer /\
    sql_query result = Some sql /\
    contains fence sql = false /\
    response_content false result = answer /\
    response_content true result =
      answer ++ nl :: nl :: str "**SQL Executed:**" ++ nl ::
      str "```sql" ++ nl :: sql ++ nl :: str "```".
Proof.
  intros Hrun. apply invoke_reachable in Hrun.
  pose proof (reachable_end_answer Hrun) as Ha.
  destruct (reachable_query Hrun) as [Hq | Hq]; [discriminate|].
  destruct (final_answer result) as [answer|] eqn:Ea; [|congruence].
  destruct (sql_query result) as [sql|] eqn:Eq; [|congruence].
  exists answer, sql. repeat split.
  - exact (reachable_query_free Hrun Eq).
  - unfold response_content. now rewrite Ea.
  - unfold response_content. now rewrite Ea, Eq.
Qed.

(** X16.  In a state of a run that holds an error there is neither a result nor
    a chart (the store rejecting the empty statement). *)
Theorem error_has_no_result (q : text) (n : node) (st : AgentState cell)
    (log : list event) :
  rejects_empty w ->
  reachable w q n st log ->
  error st <> None ->
  query_result st = None /\ chart_data st = None.
Proof.
  intros Hempty Hreach Herr.
  pose proof (reachable_fresh Hempty Hreach) as Hf.
  destruct n; simpl in Hf; try exact Hf; destruct Hf as [Hf | Hf]; congruence.
Qed.

(** X20.  An answer that reports an error comes without a chart: the page shows
    the question and the answer only, and the history keeps no chart. *)
Theorem error_answer_without_chart (show_sql : bool) (prompt : text)
    (messages : list (chat_message cell)) (result : AgentState cell)
    (log : list event) :
  rejects_empty w ->
  invoke w prompt = (Ret result, log) ->
  error result <> None ->
  chat_turn w show_sql prompt messages =
  ((messages ++ [ {| m_role := User; m_content := prompt; m_chart := None |} ]) ++
   [ {| m_role := Assistant; m_content := response_content show_sql result;
        m_chart := Some None |} ],
   [ Markdown cell User prompt;
     Markdown cell Assistant (response_content show_sql result) ]).
Proof.
  intros Hempty Hrun Herr.
  pose proof (@reachable_fresh cell w prompt _ _ _ Hempty
                (@invoke_reachable cell w prompt _ _ Hrun)) as Hf.
  simpl in Hf. destruct Hf as [Hf | [_ Hch]]; [congruence|].
  unfold chat_turn. rewrite Hrun. cbn [fst]. rewrite Hch. reflexivity.
Qed.

(** X21.  A history that the page can show again can still be shown after a
    turn, with the question after what was there. *)
Theorem replay_after_turn (show_sql : bool) (prompt : text)
    (messages : list (chat_message cell)) (page : list (shown cell)) :
  frames_rectangular w ->
  replay messages = inr page ->
  exists rest,
    replay (fst (chat_turn w show_sql prompt messages)) =
    inr (page ++ Markdown cell User prompt :: rest).
Proof.
  intros Hrect Hpage.
  destruct (invoke w prompt) as [[result|e] log] eqn:Hrun.
  - destruct (@chat_turn_ret cell w show_sql prompt messages result log Hrect Hrun) as (plot & -> & _).
    cbn [fst]. rewrite <- app_assoc, replay_app, Hpage.
    cbn [app replay m_chart m_role m_content].
    destruct (chart_data result) as [[|labels values columns]|] eqn:Hch.
    + eexists. reflexivity.
    + pose proof (@invoke_plottable cell w prompt _ _ _ Hrect Hrun Hch) as Hp.
      apply plottable_frame in Hp as (_ & c0 & c1 & _ & _ & _ & Hf).
      rewrite Hf. eexists. reflexivity.
    + eexists. reflexivity.
  - unfold chat_turn. rewrite Hrun. cbn [fst]. rewrite replay_app, Hpage.
    cbn [replay m_chart m_role m_content]. eexists. reflexivity.
Qed.


End PageClaims.

Section PageScenarios.

Lemma world_customers_rectangular : frames_rectangular Scenario.world_customers.
Proof.
  intros k sql conn. simpl. destruct sql; [discriminate|]. intros [= <-].
  intros name values [[= <- <-] | [[= <- <-] | []]]; reflexivity.
Qed.

Lemma world_llm_lost_rectangular : frames_rectangular Scenario.world_llm_lost.
Proof.
  intros k sql conn. simpl. destruct sql; [discriminate|]. intros [= <-].
  intros name values [[= <- <-] | [[= <- <-] | [[= <- <-] | []]]]; reflexivity.
Qed.

Lemma world_customers_returns :
  invoke Scenario.world_customers Scenario.who_is =
  (Ret (Scenario.final_state Scenario.world_customers Scenario.who_is),
   Scenario.final_log Scenario.world_customers Scenario.who_is).
Proof. vm_compute. reflexivity. Qed.

Lemma world_no_table_returns :
  invoke Scenario.world_no_table Scenario.who_is =
  (Ret (Scenario.final_state Scenario.world_no_table Scenario.who_is),
   Scenario.final_log Scenario.world_no_table Scenario.who_is).
Proof. vm_compute. reflexivity. Qed.

End PageScenarios.

Lemma chat_turn_page_witness :
  exists plot,
    chat_turn Scenario.world_customers true Scenario.who_is [] =
    (([] ++ [ {| m_role := User; m_content := Scenario.who_is; m_chart := None |} ]) ++
     [ {| m_role := Assistant;
          m_content :=
            response_content true
              (Scenario.final_state Scenario.world_customers Scenario.who_is);
          m_chart :=
            Some (chart_data
                    (Scenario.final_state Scenario.world_customers Scenario.who_is)) |} ],
     [ Markdown Z User Scenario.who_is ] ++
     [ Markdown Z Assistant
         (response_content true
            (Scenario.final_state Scenario.world_customers Scenario.who_is)) ] ++ plot) /\
    match chart_data (Scenario.final_state Scenario.world_customers Scenario.who_is) with
    | Some (Chart labels values columns) =>
        exists df_chart,
          chart_frame labels values columns = inr df_chart /\
          plot = [ Subheader Z (str "Visual Analysis"); Tabs Z;
                   BarChart df_chart; DataFrameView df_chart ]
    | _ => plot = []
    end.
Proof.
  apply (@chat_turn_page Z Scenario.world_customers true Scenario.who_is []
           (Scenario.final_state Scenario.world_customers Scenario.who_is)
           (Scenario.final_log Scenario.world_customers Scenario.who_is)
           world_customers_rectangular world_customers_returns).
Defined.

Lemma error_box_iff_run_raises_witness :
  (exists e, fst (invoke Scenario.world_llm_lost Scenario.who_is) = Raise e) <->
  (exists s,
     In (ErrorBox Z s) (snd (chat_turn Scenario.world_llm_lost true Scenario.who_is []))).
Proof.
  apply (@error_box_iff_run_raises Z Scenario.world_llm_lost true Scenario.who_is []
           world_llm_lost_rectangular).
Defined.

Lemma response_content_of_run_witness :
  exists answer sql,
    final_answer (Scenario.final_state Scenario.world_customers Scenario.who_is) =
      Some answer /\
    sql_query (Scenario.final_state Scenario.world_customers Scenario.who_is) = Some sql /\
    contains fence sql = false /\
    response_content false
      (Scenario.final_state Scenario.world_customers Scenario.who_is) = answer /\
    response_content true
      (Scenario.final_state Scenario.world_customers Scenario.who_is) =
      answer ++ nl :: nl :: str "**SQL Executed:**" ++ nl ::
      str "```sql" ++ nl :: sql ++ nl :: str "```".
Proof.
  apply (@response_content_of_run Z Scenario.world_customers Scenario.who_is
           (Scenario.final_state Scenario.world_customers Scenario.who_is)
           (Scenario.final_log Scenario.world_customers Scenario.who_is)
           world_customers_returns).
Defined.

Lemma error_has_no_result_witness :
  query_result (Scenario.final_state Scenario.world_no_table Scenario.who_is) = None /\
  chart_data (Scenario.final_state Scenario.world_no_table Scenario.who_is) = None.
Proof.
  apply (@error_has_no_result Z Scenario.world_no_table Scenario.who_is END
           (Scenario.final_state Scenario.world_no_table Scenario.who_is)
           (Scenario.final_log Scenario.world_no_table Scenario.who_is)).
  - intros k. apply world_no_table_fails.
  - apply invoke_reachable, world_no_table_returns.
  - vm_compute. discriminate.
Defined.

Lemma error_answer_without_chart_witness :
  chat_turn Scenario.world_no_table false Scenario.who_is [] =
  (([] ++ [ {| m_role := User; m_content := Scenario.who_is; m_chart := None |} ]) ++
   [ {| m_role := Assistant;
        m_content :=
          response_content false
            (Scenario.final_state Scenario.world_no_table Scenario.who_is);
        m_chart := Some None |} ],
   [ Markdown Z User Scenario.who_is;
     Markdown Z Assistant
       (response_content false
          (Scenario.final_state Scenario.world_no_table Scenario.who_is)) ]).
Proof.
  apply (@error_answer_without_chart Z Scenario.world_no_table false Scenario.who_is []
           (Scenario.final_state Scenario.world_no_table Scenario.who_is)
           (Scenario.final_log Scenario.world_no_table Scenario.who_is)).
  - intros k. apply world_no_table_fails.
  - apply world_no_table_returns.
  - vm_compute. discriminate.
Defined.

Lemma replay_after_turn_witness :
  exists rest,
    replay (fst (chat_turn Scenario.world_customers true Scenario.who_is [])) =
    inr ([] ++ Markdown Z User Scenario.who_is :: rest).
Proof.
  apply (@replay_after_turn Z Scenario.world_customers true Scenario.who_is [] []
           world_customers_rectangular eq_refl).
Defined.


(* ================================================================= *)
(** * The evaluation script *)

Import Evaluation.

Section Tallies.

Variable cell : Type.
Variable number : Type.

Lemma fold_counting {A : Type} (c : A -> bool)
    (f : Tally number -> A -> Tally number) :
  counting c f ->
  forall l t,
    let t' := fold_left f l t in
    valid_sql_count t <= valid_sql_count t' <= valid_sql_count t + length l /\
    correct_count t' + valid_sql_count t <= valid_sql_count t' + correct_count t /\
    correct_count t <= correct_count t' /\
    correct_count t' + passed t = correct_count t + passed t' /\
    correct_count t' + length (results t) <= length (results t') + correct_count t /\
    length (results t') <= length (results t) + length l /\
    (forallb (fun x => negb (c x)) l = true ->
     valid_sql_count t' = valid_sql_count t /\
     length (results t') = length (results t) + length l).
Proof.
  intros Hf. induction l as [|x l IH]; intros t; cbv zeta.
  - simpl. lia.
  - cbn [fold_left length forallb].
    specialize (IH (f t x)). cbv zeta in IH.
    destruct (Hf t x) as (v & k & r & H1 & H2 & H3 & H4 & H5 & H6).
    revert IH H1 H2 H3 H4. generalize (f t x). intros t1 IH H1 H2 H3 H4.
    revert IH. generalize (fold_left f l t1). intros t' IH.
    destruct IH as (I1 & I2 & I3 & I4 & I5 & I6 & I7).
    assert (Hlast : forall H : negb (c x) && forallb (fun x => negb (c x)) l = true,
               v = false /\ r = true /\
               valid_sql_count t' = valid_sql_count t1 /\
               length (results t') = length (results t1) + length l).
    { intros H. apply andb_true_iff in H as [Hc Hl]. apply negb_true_iff in Hc.
      destruct (H6 Hc) as [Hv Hr]. destruct (I7 Hl) as [I8 I9]. auto. }
    clear H6 I7. destruct k.
    + destruct H5 as [-> ->]; [reflexivity|].
      repeat split; try lia;
        match goal with
        | Hx : _ && _ = true |- _ => destruct (Hlast Hx) as (Hv & _); discriminate Hv
        end.
    + clear H5.
      destruct v, r; repeat split; try lia;
        match goal with
        | Hx : _ && _ = true |- _ =>
            destruct (Hlast Hx) as (Hv & Hr & I8 & I9); try discriminate; lia
        end.
Qed.

Variable add sub : number -> number -> number.
Variable bench : Bench cell number.
Variable agent : nat -> World cell.

(** What one test case adds to the counts. *)
Lemma test_case_counting :
  counting (run_clean agent) (fun t ic => test_case add sub bench agent (fst ic) (snd ic) t).
Proof.
  intros t [i case]. unfold run_clean. cbn [fst snd]. unfold Evaluation.test_case.
  destruct (fst (invoke (agent i) (fst case))) as [response|e].
  - destruct (error_set response); cbn [negb andb].
    + exists false, false, true. unfold passed. cbn [results valid_sql_count correct_count].
      rewrite filter_app, !length_app. simpl.
      repeat split; try lia; discriminate.
    + destruct (negb (text_eqb _ _)).
      * destruct (accuracy_check bench i _ _) as [[|]|e].
        -- exists true, true, true. unfold passed.
           cbn [results valid_sql_count correct_count].
           rewrite filter_app, !length_app. simpl. repeat split; try lia; discriminate.
        -- exists true, false, true. unfold passed.
           cbn [results valid_sql_count correct_count].
           rewrite filter_app, !length_app. simpl. repeat split; try lia; discriminate.
        -- exists true, false, false. unfold passed.
           cbn [results valid_sql_count correct_count].
           repeat split; try lia; discriminate.
      * exists false, false, true. unfold passed.
        cbn [results valid_sql_count correct_count].
        rewrite filter_app, !length_app. simpl. repeat split; try lia; discriminate.
  - exists false, false, false. unfold passed. cbn [results valid_sql_count correct_count].
    repeat split; try lia; discriminate.
Qed.

(** With the store down, a run ends with an error. *)
Lemma invoke_store_down (w : World cell) (q : text) :
  llm_returns w -> always_fails w -> errors_have_text w ->
  exists st log, invoke w q = (Ret st, log) /\ error_set st = true.
Proof.
  intros Hllm Hfail Htext.
  assert (Hempty : rejects_empty w) by (intros k; apply Hfail).
  unfold invoke.
  destruct (@run_attempts cell w Hllm q Htext Hempty 2 0%Z (inputs cell q) []
              recursion_limit)
    as (st' & log' & Hrun & Hend); try reflexivity; try lia.
  { unfold recursion_limit. lia. }
  exists st', log'. split; [exact Hrun|].
  destruct Hend as [(e & H1 & H2 & _) | (_ & (k & sql & conn & Hc) & _)].
  - unfold error_set. rewrite H2. now destruct e.
  - destruct (Hfail k sql) as [e He]. congruence.
Qed.

Lemma store_down_not_clean (l : list (nat * (text * text))) :
  (forall i, llm_returns (agent i)) ->
  (forall i, always_fails (agent i)) ->
  (forall i, errors_have_text (agent i)) ->
  forallb (fun x => negb (run_clean agent x)) l = true.
Proof.
  intros Hllm Hfail Htext. apply forallb_forall. intros [i case] _.
  unfold run_clean. cbn [fst snd].
  destruct (invoke_store_down (fst case) (Hllm i) (Hfail i) (Htext i))
    as (st & log & Hrun & Herr).
  revert Hrun. generalize (invoke (agent i) (fst case)). intros o ->.
  cbn [fst]. now rewrite Herr.
Qed.

End Tallies.

Section EvaluationClaims.

Variable cell : Type.
Variable number : Type.
Variable add sub : number -> number -> number.
Variable zero : number.
Variable bench : Bench cell number.
Variable agent : nat -> World cell.

(** X23.  Whatever the graph, the store and the comparisons do, the report of
    the ten test cases has no more correct cases than valid ones, no more
    valid ones than cases, and counts as correct exactly the recorded
    cases that passed; a case can be missing from the record (when its run
    or its gold statement raised), never be there twice. *)
Theorem evaluation_counts :
  let t := run_evaluation add sub zero bench agent in
  correct_count t <= valid_sql_count t /\
  valid_sql_count t <= 10 /\
  correct_count t = passed t /\
  correct_count t <= length (results t) /\
  length (results t) <= 10.
Proof.
  cbv zeta. unfold run_evaluation, Evaluation.loop.
  pose proof (fold_counting (test_case_counting add sub bench agent)
                (combine (seq 0 (length test_dataset)) test_dataset)
                (start zero)) as H.
  cbv zeta in H. revert H.
  generalize (fold_left
                (fun t ic => test_case add sub bench agent (fst ic) (snd ic) t)
                (combine (seq 0 (length test_dataset)) test_dataset)
                (start zero)).
  intros t H.
  change (length (combine (seq 0 (length test_dataset)) test_dataset)) with 10 in H.
  change (valid_sql_count (start zero)) with 0 in H.
  change (correct_count (start zero)) with 0 in H.
  change (passed (start zero)) with 0 in H.
  change (length (results (start zero))) with 0 in H.
  destruct H as (H1 & H2 & H3 & H4 & H5 & H6 & _). lia.
Qed.

(** X24.  With the store down for every test case (the model answering), the
    ten cases are all recorded as failed: no valid statement, no correct
    one. *)
Theorem evaluation_store_down :
  (forall i, llm_returns (agent i)) ->
  (forall i, always_fails (agent i)) ->
  (forall i, errors_have_text (agent i)) ->
  let t := run_evaluation add sub zero bench agent in
  valid_sql_count t = 0 /\ correct_count t = 0 /\
  length (results t) = 10 /\ passed t = 0.
Proof.
  intros Hllm Hfail Htext. cbv zeta. unfold run_evaluation, Evaluation.loop.
  pose proof (fold_counting (test_case_counting add sub bench agent)
                (combine (seq 0 (length test_dataset)) test_dataset)
                (start zero)) as H.
  pose proof (@store_down_not_clean cell agent
                (combine (seq 0 (length test_dataset)) test_dataset)
                Hllm Hfail Htext) as Hdown.
  cbv zeta in H. revert H.
  generalize (fold_left
                (fun t ic => test_case add sub bench agent (fst ic) (snd ic) t)
                (combine (seq 0 (length test_dataset)) test_dataset)
                (start zero)).
  intros t H.
  change (length (combine (seq 0 (length test_dataset)) test_dataset)) with 10 in H.
  change (valid_sql_count (start zero)) with 0 in H.
  change (correct_count (start zero)) with 0 in H.
  change (passed (start zero)) with 0 in H.
  change (length (results (start zero))) with 0 in H.
  destruct H as (H1 & H2 & H3 & H4 & H5 & H6 & H7).
  destruct (H7 Hdown) as [H8 H9]. clear H7 Hdown. lia.
Qed.

End EvaluationClaims.

Lemma evaluation_store_down_witness :
  let t := run_evaluation Z.add Z.sub 0%Z Scenario.bench_plain
             (fun _ => Scenario.world_no_table) in
  valid_sql_count t = 0 /\ correct_count t = 0 /\
  length (results t) = 10 /\ passed t = 0.
Proof.
  apply (@evaluation_store_down Z Z Z.add Z.sub 0%Z Scenario.bench_plain
           (fun _ => Scenario.world_no_table)).
  - intros _. apply world_no_table_llm.
  - intros _. apply world_no_table_fails.
  - intros _. apply world_no_table_text.
Defined.

(* ================================================================= *)
(** * The sample database *)

Import Database.

Section Rows.

Variable fake : Faker.
Variable randint : nat -> Z -> Z -> Z.
Variable strftime : Z -> text.

Hypothesis Hrand : randint_in_range randint.

Lemma next_price_products (p_id : Z) :
  (1 <= p_id <= 5)%Z ->
  exists name category price,
    next_price products p_id = Some price /\
    In (p_id, name, category, price) products.
Proof.
  intros H.
  assert (E : (p_id = 1 \/ p_id = 2 \/ p_id = 3 \/ p_id = 4 \/ p_id = 5)%Z) by lia.
  destruct E as [-> | [-> | [-> | [-> | ->]]]]; do 3 eexists; (split; [reflexivity|]);
    simpl; auto 10.
Qed.

Lemma customer_ids (c_id : Z) :
  (1 <= c_id <= 50)%Z ->
  In c_id (map (fun c => fst (fst (fst c))) (customer_list fake)).
Proof.
  intros H. unfold customer_list. rewrite map_map. cbn [fst].
  apply in_map_iff. exists (Z.to_nat (c_id - 1)). split; [lia|].
  apply in_seq. lia.
Qed.

Lemma sale_row_sound (i : nat) :
  exists s, sale_row randint strftime i = Some s /\ sound_row fake strftime i s.
Proof.
  unfold sale_row.
  assert (Hp5 : (1 <= randint (5 * i + 1) 1 5 <= 5)%Z) by (apply Hrand; lia).
  destruct (next_price_products Hp5)
    as (name & category & price & Hp & Hin).
  rewrite Hp. eexists. split; [reflexivity|].
  unfold sound_row. cbn [sale_id customer_id product_id region_id sale_date quantity
                         total_amount].
  split; [reflexivity|]. split; [apply customer_ids, Hrand; lia|]. split.
  - assert (Hr : (1 <= randint (5 * i + 2) 1 4 <= 4)%Z) by (apply Hrand; lia).
    assert (E : (randint (5 * i + 2) 1 4 = 1 \/ randint (5 * i + 2) 1 4 = 2 \/
                 randint (5 * i + 2) 1 4 = 3 \/ randint (5 * i + 2) 1 4 = 4)%Z) by lia.
    destruct E as [E | [E | [E | E]]]; rewrite E; simpl; auto.
  - split; [apply Hrand; lia|]. split; [eauto|].
    eexists. split; [|reflexivity]. apply Hrand. lia.
Qed.

Lemma sales_loop_sound (range : list nat) :
  forall sales_data,
  exists rows,
    sales_loop randint strftime range sales_data = Some (sales_data ++ rows) /\
    Forall2 (sound_row fake strftime) range rows.
Proof.
  induction range as [|i rest IH]; intros sales_data.
  - exists []. split; [simpl; now rewrite app_nil_r | constructor].
  - cbn [sales_loop]. destruct (sale_row_sound i) as (s & -> & Hs).
    destruct (IH (sales_data ++ [s])) as (rows & -> & Hrows).
    exists (s :: rows). split; [now rewrite <- app_assoc | now constructor].
Qed.

Lemma init_db_sound :
  exists sales_data,
    init_db fake randint strftime =
    Some {| t_regions := regions; t_products := products;
            t_customers := customer_list fake; t_sales := sales_data |} /\
    Forall2 (sound_row fake strftime) (seq 0 200) sales_data.
Proof.
  unfold init_db. destruct (sales_loop_sound (seq 0 200) []) as (rows & -> & Hrows).
  exists rows. split; [reflexivity | exact Hrows].
Qed.

End Rows.

(** X25.  With a generator that keeps to its bounds, [init_db] runs to its end
    (the price of every product drawn is found), and fills the tables with
    4 regions, 5 products, 50 customers and 200 sales numbered from 1. *)
Theorem init_db_returns (fake : Faker) (randint : nat -> Z -> Z -> Z)
    (strftime : Z -> text) :
  randint_in_range randint ->
  exists t,
    init_db fake randint strftime = Some t /\
    length (t_regions t) = 4 /\ length (t_products t) = 5 /\
    length (t_customers t) = 50 /\ length (t_sales t) = 200 /\
    map sale_id (t_sales t) = map (fun i => (Z.of_nat i + 1)%Z) (seq 0 200).
Proof.
  intros Hrand. destruct (init_db_sound fake strftime Hrand) as (rows & -> & Hrows).
  eexists. split; [reflexivity|]. cbn [t_regions t_products t_customers t_sales].
  split; [reflexivity|]. split; [reflexivity|]. split; [reflexivity|].
  split.
  - apply Forall2_length in Hrows. now rewrite <- Hrows.
  - clear - Hrows. induction Hrows as [|i s range rows (Hid & _) _ IH]; [reflexivity|].
    cbn [map]. now rewrite Hid, IH.
Qed.

(** X26.  Every sale that [init_db] inserts refers to a customer, a product and
    a region it inserts; its quantity is 1 to 5, its total the quantity
    times the price of its product, and its date at most 700 days after
    the first of January 2023. *)
Theorem sales_refer_to_rows (fake : Faker) (randint : nat -> Z -> Z -> Z)
    (strftime : Z -> text) (t : Tables) (s : sale) :
  randint_in_range randint ->
  init_db fake randint strftime = Some t ->
  In s (t_sales t) ->
  In (customer_id s) (map (fun c => fst (fst (fst c))) (t_customers t)) /\
  In (region_id s) (map fst (t_regions t)) /\
  (1 <= quantity s <= 5)%Z /\
  (exists name category price,
     In (product_id s, name, category, price) (t_products t) /\
     total_amount s = (quantity s * price)%Z) /\
  exists d, (0 <= d <= 700)%Z /\ sale_date s = strftime d.
Proof.
  intros Hrand Hinit Hs.
  destruct (init_db_sound fake strftime Hrand) as (rows & E & Hrows).
  rewrite E in Hinit. injection Hinit as <-.
  cbn [t_regions t_products t_customers t_sales] in *.
  clear E. induction Hrows as [|i x range rows Hx _ IH]; [destruct Hs|].
  destruct Hs as [<- | Hs]; [|exact (IH Hs)].
  destruct Hx as (_ & H1 & H2 & H3 & H4 & H5). auto.
Qed.

Lemma randint_low_in_range : randint_in_range Scenario.randint_low.
Proof. intros k a b H. unfold Scenario.randint_low. lia. Qed.

Lemma init_db_returns_witness :
  exists t,
    init_db Scenario.fake_fixed Scenario.randint_low Scenario.strftime_days = Some t /\
    length (t_regions t) = 4 /\ length (t_products t) = 5 /\
    length (t_customers t) = 50 /\ length (t_sales t) = 200 /\
    map sale_id (t_sales t) = map (fun i => (Z.of_nat i + 1)%Z) (seq 0 200).
Proof.
  apply (@init_db_returns Scenario.fake_fixed Scenario.randint_low
           Scenario.strftime_days randint_low_in_range).
Defined.

Lemma sales_refer_to_rows_witness :
  In (customer_id Scenario.first_sale)
    (map (fun c => fst (fst (fst c))) (t_customers Scenario.sample_tables)) /\
  In (region_id Scenario.first_sale) (map fst (t_regions Scenario.sample_tables)) /\
  (1 <= quantity Scenario.first_sale <= 5)%Z /\
  (exists name category price,
     In (product_id Scenario.first_sale, name, category, price)
       (t_products Scenario.sample_tables) /\
     total_amount Scenario.first_sale = (quantity Scenario.first_sale * price)%Z) /\
  exists d, (0 <= d <= 700)%Z /\
    sale_date Scenario.first_sale = Scenario.strftime_days d.
Proof.
  apply (@sales_refer_to_rows Scenario.fake_fixed Scenario.randint_low
           Scenario.strftime_days Scenario.sample_tables Scenario.first_sale
           randint_low_in_range).
  - vm_compute. reflexivity.
  - vm_compute. left. reflexivity.
Defined.
